(** * marshmallow/schema.py: schema resolution and (un)marshalling orchestration

    A shallow embedding of [src/marshmallow/schema.py].  Python dictionaries
    are finite maps ([gmap]), Python sets are finite sets ([gset]); the
    iteration order of an unordered [dict]/[set] (and the insertion order of
    [OrderedDict]/[OrderedSet]) is not observable through these types, so
    every statement below is about contents, never about order.  Code that
    can raise returns a sum or runs in the exception/state monad [M] of the
    pipeline section.  Calls to [warnings.warn] change neither values nor
    control flow and are left out. *)

From stdpp Require Import gmap strings list fin_maps sorting.

Set Warnings "-register-all".
Set Default Proof Using "Type".

(** ** Python values *)

(** Run-time types, as far as [TYPE_MAPPING] and the field inference
    distinguish them. *)
Inductive pytype :=
  | text_type | binary_type | dt_datetime | float | bool_type | tuple_type
  | list_type | set_type | int_type | uuid_UUID | dt_time | dt_date
  | dt_timedelta | decimal_Decimal
  | NoneType | dict_type | generator_type | iterator_type | cursor_type
  | instance_of (cls : string).

#[global] Instance pytype_eq_dec : EqDecision pytype.
Proof. solve_decision. Defined.

(** The objects handed to [dump]/[load].  [VOpaque] stands for the scalar
    types whose payload the schema layer never looks at (float, datetime,
    Decimal, ...): only their type and truth value are kept.  [VGenerator]
    is a generator and [VIter] any other iterator (no [__getitem__], always
    truthy), each with the items it will yield; [VCursor] is a
    user collection that has [__getitem__] but neither [__len__] nor
    [__bool__] (the "Pymongo cursor" of the source comment), hence truthy
    even when it holds nothing; [VObj] is a plain instance with attributes. *)
Inductive pyval :=
  | VNone
  | VBool (b : bool)
  | VInt (n : Z)
  | VStr (s : string)
  | VBytes (s : string)
  | VOpaque (t : pytype) (truth : bool)
  | VTuple (items : list pyval)
  | VList (items : list pyval)
  | VSet (items : list pyval)
  | VDict (entries : gmap string pyval)
  | VGenerator (items : list pyval)
  | VIter (items : list pyval)
  | VCursor (items : list pyval)
  | VObj (cls : string) (attrs : gmap string pyval).

Definition type_of (v : pyval) : pytype :=
  match v with
  | VNone => NoneType
  | VBool _ => bool_type
  | VInt _ => int_type
  | VStr _ => text_type
  | VBytes _ => binary_type
  | VOpaque t _ => t
  | VTuple _ => tuple_type
  | VList _ => list_type
  | VSet _ => set_type
  | VDict _ => dict_type
  | VGenerator _ => generator_type
  | VIter _ => iterator_type
  | VCursor _ => cursor_type
  | VObj c _ => instance_of c
  end.

(** The attributes that a value has from its class: the methods and
    properties of the built-in types, the class attributes and methods of an
    instance.  For a value and a name, the type of what [getattr] finds, and
    [None] when there is no such attribute.  They are given by the Python
    runtime and by the classes of the objects handed to the schema, not by
    [schema.py], and are a parameter of the model. *)
Class ClassAttributes := class_attribute : pyval -> string -> option pytype.

Definition nonempty {A} (l : list A) : bool :=
  match l with [] => false | _ :: _ => true end.

(** Python truth value ([if obj:]). *)
Definition truthy (v : pyval) : bool :=
  match v with
  | VNone => false
  | VBool b => b
  | VInt n => negb (n =? 0)%Z
  | VStr s | VBytes s => negb (String.eqb s EmptyString)
  | VOpaque _ b => b
  | VTuple l | VList l | VSet l => nonempty l
  | VDict d => negb (bool_decide (d = ∅))
  | VGenerator _ | VIter _ | VCursor _ | VObj _ _ => true
  end.

(** ** Field objects *)

(** The field classes that [TYPE_MAPPING] mentions, the base class
    [fields.Field] and user-defined subclasses. *)
Module fields.
Inductive cls :=
  | String | DateTime | Float | Boolean | Raw | Integer | UUID | Time
  | Date | TimeDelta | Decimal | Field | Custom (name : string).
End fields.

#[global] Instance fields_cls_eq_dec : EqDecision fields.cls.
Proof. solve_decision. Defined.

(** A field object, with the attributes the schema layer reads or writes.
    [is_instance] is false when the class body assigned the field class
    itself ([name = fields.Str] instead of [fields.Str()]). *)
Record field := mk_field {
  field_class : fields.cls;
  is_instance : bool;
  _creation_index : nat;
  required : bool;
  load_only : bool;
  dump_only : bool;
  name : option string;
  parent : option string
}.

#[global] Instance field_eq_dec : EqDecision field.
Proof. solve_decision. Defined.

(** [cls()] with default arguments. *)
Definition new_field (c : fields.cls) : field :=
  mk_field c true 0 false false false None None.

(** ** Exceptions *)

(** Keys of an error dictionary: field names, or item indices when a
    collection is loaded with [index_errors]. *)
Inductive key := KStr (s : string) | KIdx (i : nat).

#[global] Instance key_eq_dec : EqDecision key.
Proof. solve_decision. Defined.

#[global] Instance key_countable : Countable key.
Proof.
  refine (inj_countable'
            (fun k => match k with KStr s => inl s | KIdx i => inr i end)
            (fun x => match x with inl s => KStr s | inr i => KIdx i end) _).
  by intros [].
Defined.

(** Values of an error dictionary: a list of messages, or a nested
    dictionary. *)
Inductive errval :=
  | EMsgs (msgs : list string)
  | ENested (d : gmap key errval).

Abbreviation errdict := (gmap key errval).

(** Exception messages: literal text, or one of the three [str.format]
    calls of the source, kept with its arguments. *)
Inductive message :=
  | Msg (text : string)
  | NotAValidField (key : string) (obj : pyval)
      (* '"{0}" is not a valid field for {1}.'.format(key, obj) *)
  | FieldDeclaredAsClass (field_name : string) (c : fields.cls)
      (* 'Field for "{0}" must be declared as a Field instance, not a
         class. Did you mean "fields.{1}()"?' *)
  | FieldDoesNotExist (field_name : string).
      (* '"{0}" field does not exist.'.format(field_name) *)

(** [ValidationError(message, field_names=, fields=, data=)]; the other
    constructors are the built-in exceptions the source raises or lets
    through, and [UserError] anything else raised by user code. *)
Inductive exn :=
  | ValueError (msg : message)
  | TypeError (msg : message)
  | KeyError (msg : message)
  | AttributeError (msg : message)
  | ValidationError (messages : errdict) (field_names : list string)
                    (error_fields : list (option field)) (data : pyval)
  | UserError (msg : string).

(** ** Dictionaries from lists of pairs *)

(** [dict(pairs)]: a later pair replaces an earlier one with the same key. *)
Definition dict_of_pairs {V} (pairs : list (string * V)) : gmap string V :=
  foldl (fun d kv => <[kv.1 := kv.2]> d) ∅ pairs.

(** ** [class Meta] and [SchemaOpts] *)

(** The value a [class Meta] gives to [fields], [additional] or [exclude]. *)
Inductive optval :=
  | OTuple (names : list string)
  | OList (names : list string)
  | OSet (names : list string)
  | OStr (s : string)
  | ONone.

Definition is_list_or_tuple (v : optval) : bool :=
  match v with OTuple _ | OList _ => true | _ => false end.

Definition opt_truthy (v : optval) : bool :=
  match v with
  | OTuple l | OList l | OSet l => nonempty l
  | OStr s => negb (String.eqb s EmptyString)
  | ONone => false
  end.

Definition opt_names (v : optval) : list string :=
  match v with
  | OTuple l | OList l | OSet l => l
  | OStr _ | ONone => []
  end.

(** A [class Meta], as [getattr(meta, option, default)] sees it: [None]
    where the attribute is not defined (on the class or its bases). *)
Record Meta := mk_Meta {
  meta_fields : option optval;
  meta_additional : option optval;
  meta_exclude : option optval;
  meta_strict : option bool;
  meta_dateformat : option string;
  meta_json_module : option string;
  meta_ordered : option bool;
  meta_index_errors : option bool;
  meta_include : option (list (string * field));
  meta_load_only : option (list string);
  meta_dump_only : option (list string)
}.

Definition empty_Meta : Meta :=
  mk_Meta None None None None None None None None None None None.

(** [fields], [additional] and [exclude] are kept as their items: past the
    checks of [__init__] each is a list or a tuple. *)
Record SchemaOpts := mk_SchemaOpts {
  opts_fields : list string;
  opts_additional : list string;
  opts_exclude : list string;
  opts_strict : bool;
  opts_dateformat : option string;
  opts_json_module : string;
  opts_ordered : bool;
  opts_index_errors : bool;
  opts_include : list (string * field);
  opts_load_only : list string;
  opts_dump_only : list string
}.

(** [SchemaOpts.__init__]. *)
Definition SchemaOpts_init (meta : Meta) : exn + SchemaOpts :=
  let fields := default (OTuple []) (meta_fields meta) in
  if negb (is_list_or_tuple fields) then
    inl (ValueError (Msg "`fields` option must be a list or tuple."))
  else
  let additional := default (OTuple []) (meta_additional meta) in
  if negb (is_list_or_tuple additional) then
    inl (ValueError (Msg "`additional` option must be a list or tuple."))
  else
  if opt_truthy fields && opt_truthy additional then
    inl (ValueError (Msg
      "Cannot set both `fields` and `additional` options for the same Schema."))
  else
  let exclude := default (OTuple []) (meta_exclude meta) in
  if negb (is_list_or_tuple exclude) then
    inl (ValueError (Msg "`exclude` must be a list or tuple."))
  else
    inr {| opts_fields := opt_names fields;
           opts_additional := opt_names additional;
           opts_exclude := opt_names exclude;
           opts_strict := default false (meta_strict meta);
           opts_dateformat := meta_dateformat meta;
           opts_json_module := default "json" (meta_json_module meta);
           opts_ordered := default false (meta_ordered meta);
           opts_index_errors := default true (meta_index_errors meta);
           opts_include := default [] (meta_include meta);
           opts_load_only := default [] (meta_load_only meta);
           opts_dump_only := default [] (meta_dump_only meta) |}.

(** ** Classes and the metaclass *)

(** What a class body (or a class [__dict__]) binds a name to: a field, a
    [class Meta], or anything else (methods, constants). *)
Inductive attr :=
  | AField (f : field)
  | AMeta (m : Meta)
  | AOther.

Definition is_field (a : attr) : option field :=
  match a with AField f => Some f | _ => None end.

(** The order of [sorted(fields, key=lambda pair: pair[1]._creation_index)]. *)
Definition by_creation_index (p q : string * field) : Prop :=
  _creation_index p.2 ≤ _creation_index q.2.

#[global] Instance by_creation_index_dec p q :
  Decision (by_creation_index p q).
Proof. unfold by_creation_index. apply _. Defined.

(** The pair of an attribute that is a field. *)
Definition field_pair (kv : string * attr) : option (string * field) :=
  (fun f => (kv.1, f)) <$> is_field kv.2.

(** [_get_fields(attrs, field_class, ordered=...)]: the (name, field) pairs
    of a mapping of class attributes, sorted by creation index when
    [ordered]. *)
Definition _get_fields (attrs : gmap string attr) (ordered : bool)
  : list (string * field) :=
  let fields := omap field_pair (map_to_list attrs) in
  if ordered then merge_sort by_creation_index fields else fields.

(** [pop=True]: the matching attributes are removed from [attrs]. *)
Definition pop_fields (attrs : gmap string attr) : gmap string attr :=
  filter (fun kv => is_field kv.2 = None) attrs.

(** A class object: its [__dict__], its own [_declared_fields] and [opts]
    (set by the metaclass; absent on classes not built by it) and the rest
    of its method resolution order, [inspect.getmro(klass)[1:]]. *)
Inductive klass := Klass {
  k_name : string;
  k_dict : gmap string attr;
  k_declared_fields : option (gmap string field);
  k_opts : option SchemaOpts;
  k_mro : list klass
}.

(** Attribute lookup on a class, [getattr(klass, name)], through its MRO. *)
Definition class_getattr (k_dict0 : gmap string attr) (mro_tail : list klass)
    (attr_name : string) : option attr :=
  match k_dict0 !! attr_name with
  | Some a => Some a
  | None => head (omap (fun c => k_dict c !! attr_name) mro_tail)
  end.

(** [getattr(base, '_declared_fields', base.__dict__)]. *)
Definition getattr_declared_fields (base : klass) : gmap string attr :=
  match head (omap k_declared_fields (base :: k_mro base)) with
  | Some d => AField <$> d
  | None => k_dict base
  end.

(** [_get_fields_by_mro]: the fields of the parents, most basic class
    first ([mro[:0:-1]]). *)
Definition _get_fields_by_mro (mro_tail : list klass) (ordered : bool)
  : list (string * field) :=
  concat ((fun base => _get_fields (getattr_declared_fields base) ordered)
            <$> reverse mro_tail).

(** [getattr(meta, option, default)] on what [Meta] is bound to: an object
    that is not a [class Meta] has none of the options. *)
Definition meta_of (a : option attr) : Meta :=
  match a with Some (AMeta m) => m | _ => empty_Meta end.

(** [SchemaMeta.get_declared_fields]. *)
Definition get_declared_fields (cls_fields inherited_fields : list (string * field))
  : gmap string field :=
  dict_of_pairs (inherited_fields ++ cls_fields).

(** The [ordered] option of a class definition: its own, else the one of
    the first base whose [Meta] has the attribute. *)
Definition resolve_ordered (bases : list klass) (attrs : gmap string attr) : bool :=
  let ordered := default false (meta_ordered (meta_of (attrs !! "Meta"))) in
  if negb ordered then
    default false
      (head (omap (fun base_ =>
                     match class_getattr (k_dict base_) (k_mro base_) "Meta" with
                     | Some (AMeta m) => meta_ordered m
                     | _ => None
                     end) bases))
  else ordered.

(** [SchemaMeta.__new__(mcs, name, bases, attrs)].  [mro_tail] is the
    linearisation [type.__new__] computes from [bases], without the new
    class itself; for a single base it is [base :: k_mro base]. *)
Definition SchemaMeta_new (name : string) (bases mro_tail : list klass)
    (attrs : gmap string attr) : exn + klass :=
  let ordered := resolve_ordered bases attrs in
  let cls_fields := _get_fields attrs ordered in
  let attrs := pop_fields attrs in
  let inherited_fields := _get_fields_by_mro mro_tail false in
  match class_getattr attrs mro_tail "Meta" with
  | None => inl (AttributeError (Msg "Meta"))
  | Some meta =>
    match SchemaOpts_init (meta_of (Some meta)) with
    | inl e => inl e
    | inr opts =>
      let cls_fields := cls_fields ++ opts_include opts in
      inr (Klass name attrs
             (Some (get_declared_fields cls_fields inherited_fields))
             (Some opts) mro_tail)
    end
  end.

(** The classes every schema derives from. *)
Definition object_k : klass := Klass "object" ∅ None None [].
Definition SchemaABC_k : klass := Klass "SchemaABC" ∅ None None [object_k].
Definition BaseSchema_k : klass :=
  Klass "BaseSchema"
    (<["Meta" := AMeta empty_Meta]> (<["TYPE_MAPPING" := AOther]> ∅))
    None None [SchemaABC_k; object_k].

Definition default_opts : SchemaOpts :=
  mk_SchemaOpts [] [] [] false None "json" false true [] [] [].

(** [class Schema(with_metaclass(SchemaMeta, BaseSchema))]. *)
Definition Schema_k : klass :=
  Klass "Schema" ∅ (Some ∅) (Some default_opts)
    [BaseSchema_k; SchemaABC_k; object_k].

(** Schema classes: [Schema] and everything derived from a schema class by
    a class statement with that single base. *)
Inductive schema_klass : klass -> Prop :=
  | schema_klass_root : schema_klass Schema_k
  | schema_klass_sub name base attrs k :
      schema_klass base ->
      SchemaMeta_new name [base] (base :: k_mro base) attrs = inr k ->
      schema_klass k.

(** The fields that a class with the single base [k] inherits, as a
    dictionary. *)
Definition inherited (k : klass) : gmap string field :=
  dict_of_pairs (_get_fields_by_mro (k :: k_mro k) false).

(** The fields a class statement declares itself: the fields of its body,
    overridden by those of its [include] option. *)
Definition own_fields (attrs : gmap string attr) (opts : SchemaOpts)
  : gmap string field :=
  dict_of_pairs (opts_include opts) ∪ omap is_field attrs.

(** ** Schema instances *)

(** The [partial] argument: a boolean, or a collection of field names. *)
Inductive partial_t :=
  | PartialBool (b : bool)
  | PartialNames (names : list string).

(** [bool(partial)]. *)
Definition partial_truthy (p : partial_t) : bool :=
  match p with
  | PartialBool b => b
  | PartialNames names => nonempty names
  end.

(** Hooks ([pre_dump], [post_dump], [pre_load], [post_load]): the attribute
    name under which the method is registered, its [pass_original] keyword
    and its body, applied to the positional arguments. *)
Record processor := mk_processor {
  p_name : string;
  p_pass_original : bool;
  p_call : list pyval -> exn + pyval
}.

(** What calling a validator method does: return ([None] or anything but
    [False]), return [False], raise [ValidationError(messages, *field_names)],
    or raise something else. *)
Inductive validator_result :=
  | VPass
  | VFalse
  | VInvalid (msgs : list string) (field_names : list string)
  | VRaises (e : exn).

(** Validators ([validates], [validates_schema]) with their keywords. *)
Record validator := mk_validator {
  v_name : string;
  v_field_name : string;
  v_pass_original : bool;
  v_call : list pyval -> validator_result
}.

Inductive tag := PRE_DUMP | POST_DUMP | PRE_LOAD | POST_LOAD.

#[global] Instance tag_eq_dec : EqDecision tag.
Proof. solve_decision. Defined.

(** What a call of an error handler leaves behind: the exception it
    raised, if any, and the content of the error dictionary it was handed.
    The source hands the handlers the error dictionary of the unmarshaller
    or marshaller itself (as [errors], or as the [messages] of the error it
    builds), so that a handler can edit it in place. *)
Abbreviation handler_outcome := (option exn * errdict)%type.

(** What a call of [on_bind_field] leaves behind: the exception it raised,
    if any, and the field, whose attributes the hook may have set. *)
Abbreviation bind_outcome := (option exn * field)%type.

(** What user code can observe of a call, in order. *)
Inductive event :=
  | EvProcessor (t : tag) (pass_many : bool) (attr_name : string)
                (args : list pyval)
  | EvErrorHandler (errors : errdict) (data : pyval)
  | EvHandleError (error : exn + errdict) (data : pyval).

(** A schema instance: the class-level data it reads ([opts],
    [__processors__] with the methods they name, [__error_handler__], the
    overridable [handle_error] and [on_bind_field]) and its own
    attributes. *)
Record schema := mk_schema {
  opts : SchemaOpts;
  processors : tag -> bool -> list processor;
  field_validators : list validator;
  schema_validators : bool -> list validator;
  __error_handler__ : option (errdict -> pyval -> handler_outcome);
  handle_error : exn + errdict -> pyval -> handler_outcome;
  on_bind_field : string -> field -> bind_outcome;
  schema_name : string;
  declared_fields : gmap string field;
  self_many : bool;
  self_only : list string;
  self_exclude : list string;
  self_prefix : string;
  self_strict : bool;
  self_ordered : bool;
  self_load_only : gset string;
  self_dump_only : gset string;
  self_partial : partial_t;
  self_fields : gmap string field;
  self_extra : option (gmap string pyval);
  self_context : gmap string pyval
}.

Definition set_fields (self : schema) (declared fs : gmap string field) : schema :=
  mk_schema (opts self) (processors self) (field_validators self)
    (schema_validators self) (__error_handler__ self) (handle_error self)
    (on_bind_field self) (schema_name self) declared (self_many self)
    (self_only self) (self_exclude self) (self_prefix self) (self_strict self)
    (self_ordered self) (self_load_only self) (self_dump_only self)
    (self_partial self) fs (self_extra self) (self_context self).

(** [TYPE_MAPPING.get(attribute_type, fields.Field)]. *)
Definition TYPE_MAPPING (t : pytype) : option fields.cls :=
  match t with
  | text_type => Some fields.String
  | binary_type => Some fields.String
  | dt_datetime => Some fields.DateTime
  | float => Some fields.Float
  | bool_type => Some fields.Boolean
  | tuple_type => Some fields.Raw
  | list_type => Some fields.Raw
  | set_type => Some fields.Raw
  | int_type => Some fields.Integer
  | uuid_UUID => Some fields.UUID
  | dt_time => Some fields.Time
  | dt_date => Some fields.Date
  | dt_timedelta => Some fields.TimeDelta
  | decimal_Decimal => Some fields.Decimal
  | _ => None
  end.

(** The field set of [_update_fields], before [exclude] is applied. *)
Definition selected_field_names (self : schema) : gset string :=
  if nonempty (self_only self) then
    if nonempty (opts_fields (opts self)) then
      list_to_set (opts_fields (opts self)) ∩ list_to_set (self_only self)
    else list_to_set (self_only self)
  else if nonempty (opts_fields (opts self)) then
    list_to_set (opts_fields (opts self))
  else if nonempty (opts_additional (opts self)) then
    dom (declared_fields self) ∪ list_to_set (opts_additional (opts self))
  else dom (declared_fields self).

(** [set(self.opts.exclude) | set(self.exclude)]. *)
Definition excludes (self : schema) : gset string :=
  list_to_set (opts_exclude (opts self)) ∪ list_to_set (self_exclude self).

(** The [field_names] that [_update_fields] passes to [__filter_fields]. *)
Definition field_names (self : schema) : gset string :=
  let field_names := selected_field_names self in
  if bool_decide (excludes self ≠ ∅) then field_names ∖ excludes self
  else field_names.

(** The first item of a collection, as [__filter_fields] takes it:
    [obj[0]] when [obj] has [__getitem__], else [next(iter(obj))].
    [inr None] is the [IndexError]/[StopIteration] that the source catches;
    [inl] is an exception it does not catch.  Indexing [bytes] follows
    Python 3. *)
Definition first_item (obj : pyval) : exn + option pyval :=
  match obj with
  | VTuple l | VList l | VCursor l => inr (head l)
  | VStr EmptyString | VBytes EmptyString => inr None
  | VStr (String c _) => inr (Some (VStr (String c EmptyString)))
  | VBytes (String c _) => inr (Some (VInt (Z.of_nat (Ascii.nat_of_ascii c))))
  | VDict _ => inl (KeyError (Msg "0"))
  | VSet l | VGenerator l | VIter l => inr (head l)
  | VNone | VBool _ | VInt _ | VOpaque _ _ | VObj _ _ =>
      inl (TypeError (Msg "object is not iterable"))
  end.

(** [type(getattr(obj, key))], [None] standing for [AttributeError]: an
    attribute of the instance itself, else what its class gives. *)
Definition getattr_type {CA : ClassAttributes} (obj : pyval) (key : string)
  : option pytype :=
  match obj with
  | VObj _ attrs =>
      match attrs !! key with
      | Some v => Some (type_of v)
      | None => class_attribute obj key
      end
  | _ => class_attribute obj key
  end.

(** [type(obj[key])] for a [Mapping], [type(getattr(obj, key))] otherwise,
    with the [KeyError]/[AttributeError] re-raised by the source. *)
Definition attribute_type {CA : ClassAttributes} (obj : pyval) (key : string)
  : exn + pytype :=
  match obj with
  | VDict d =>
      match d !! key with
      | Some v => inr (type_of v)
      | None => inl (KeyError (NotAValidField key obj))
      end
  | _ =>
      match getattr_type obj key with
      | Some t => inr t
      | None => inl (AttributeError (NotAValidField key obj))
      end
  end.

(** The body of the loop of [__filter_fields] for one [key]. *)
Definition resolve_field {CA : ClassAttributes} (self : schema) (obj : pyval)
    (key : string)
  : exn + field :=
  match declared_fields self !! key with
  | Some f => inr f
  | None =>
      if truthy obj then
        match attribute_type obj key with
        | inl e => inl e
        | inr t => inr (new_field (default fields.Field (TYPE_MAPPING t)))
        end
      else inr (new_field fields.Field)
  end.

(** The loop of [__filter_fields] over [field_names]. *)
Fixpoint filter_loop {CA : ClassAttributes} (self : schema) (obj : pyval)
    (keys : list string) (ret : gmap string field)
  : exn + gmap string field :=
  match keys with
  | [] => inr ret
  | key :: keys =>
      match resolve_field self obj key with
      | inl e => inl e
      | inr f => filter_loop self obj keys (<[key := f]> ret)
      end
  end.

(** [BaseSchema.__filter_fields]. *)
Definition __filter_fields {CA : ClassAttributes} (self : schema)
    (field_names : gset string) (obj : pyval) (many : bool)
  : exn + gmap string field :=
  if truthy obj && many then
    match first_item obj with
    | inl e => inl e
    | inr None => inr (declared_fields self)
    | inr (Some obj_prototype) =>
        filter_loop self obj_prototype (elements field_names) ∅
    end
  else filter_loop self obj (elements field_names) ∅.

(** Modelled from the spec: [Field._add_to_schema], defined in the module
    [fields] and not in [schema.py]; binding "sets each resolved field's
    parent-schema and bound name". *)
Definition _add_to_schema (field_name : string) (self : schema) (f : field)
  : field :=
  mk_field (field_class f) (is_instance f) (_creation_index f) (required f)
    (load_only f) (dump_only f) (Some field_name) (Some (schema_name self)).

Definition set_load_only (f : field) : field :=
  mk_field (field_class f) (is_instance f) (_creation_index f) (required f)
    true (dump_only f) (name f) (parent f).

Definition set_dump_only (f : field) : field :=
  mk_field (field_class f) (is_instance f) (_creation_index f) (required f)
    (load_only f) true (name f) (parent f).

Definition is_TypeError (e : exn) : bool :=
  match e with TypeError _ => true | _ => false end.

(** [on_bind_field] is handed the field object itself: whatever attributes
    it sets, the object stays the class or the instance that it was. *)
Definition hooked (field_obj after : field) : field :=
  mk_field (field_class field_obj) (is_instance field_obj)
    (_creation_index after) (required after) (load_only after)
    (dump_only after) (name after) (parent after).

(** The field after the first two statements of the [try] block of
    [__set_field_attrs]: [load_only] and [dump_only] set on it when its name
    is in the sets of the schema. *)
Definition flag_field (self : schema) (field_name : string) (field_obj : field)
  : field :=
  let f := if bool_decide (field_name ∈ self_load_only self)
           then set_load_only field_obj else field_obj in
  if bool_decide (field_name ∈ self_dump_only self)
  then set_dump_only f else f.

(** The [try] block of the loop of [__set_field_attrs]: the two flags, the
    hook [on_bind_field], then [_add_to_schema], which raises [TypeError]
    when called on a field class instead of a field (an unbound method
    called with an argument short).  The result comes with the field as the
    block leaves it. *)
Definition try_bind (self : schema) (field_name : string) (field_obj : field)
  : (exn + unit) * field :=
  let '(raised, after) :=
    on_bind_field self field_name (flag_field self field_name field_obj) in
  let f := hooked field_obj after in
  match raised with
  | Some e => (inl e, f)
  | None =>
      if is_instance field_obj
      then (inr tt, _add_to_schema field_name self f)
      else (inl (TypeError (Msg "_add_to_schema() missing 1 required positional argument")), f)
  end.

(** The body of the loop of [__set_field_attrs]: a [TypeError] from the
    [try] block is replaced by the message of the source when the field is
    a class, and swallowed when it is an instance; any other exception
    passes. *)
Definition bind_field (self : schema) (field_name : string) (field_obj : field)
  : exn + field :=
  match try_bind self field_name field_obj with
  | (inr _, f) => inr f
  | (inl e, f) =>
      if is_TypeError e then
        if is_instance field_obj then inr f
        else inl (TypeError (FieldDeclaredAsClass field_name
                               (field_class field_obj)))
      else inl e
  end.

Fixpoint set_attrs_loop (self : schema) (items : list (string * field))
    (fields_dict : gmap string field) : exn + gmap string field :=
  match items with
  | [] => inr fields_dict
  | (field_name, field_obj) :: items =>
      match bind_field self field_name field_obj with
      | inl e => inl e
      | inr f => set_attrs_loop self items (<[field_name := f]> fields_dict)
      end
  end.

(** [BaseSchema.__set_field_attrs]: the field objects are updated in
    place, here by replacing the entries of the dictionary. *)
Definition __set_field_attrs (self : schema) (fields_dict : gmap string field)
  : exn + gmap string field :=
  set_attrs_loop self (map_to_list fields_dict) fields_dict.

(** The declared fields are the very objects that [__filter_fields] puts
    into its result, so what [__set_field_attrs] writes on a field of [ret]
    shows in [self.declared_fields] too. *)
Definition rebind_declared (declared ret : gmap string field)
  : gmap string field :=
  map_imap (fun n f => Some (default f (ret !! n))) declared.

(** [BaseSchema._update_fields]; the result is [self] with its new
    [fields]. *)
Definition _update_fields {CA : ClassAttributes} (self : schema) (obj : pyval)
    (many : bool) : exn + schema :=
  match __filter_fields self (field_names self) obj many with
  | inl e => inl e
  | inr ret =>
      match __set_field_attrs self ret with
      | inl e => inl e
      | inr ret =>
          inr (set_fields self (rebind_declared (declared_fields self) ret) ret)
      end
  end.

(** A schema class as [__init__] and the pipelines see it: the class object
    built by the metaclass and the methods and registrations the class
    carries. *)
Record schema_class := mk_schema_class {
  cls : klass;
  cls_processors : tag -> bool -> list processor;
  cls_field_validators : list validator;
  cls_schema_validators : bool -> list validator;
  cls_error_handler : option (errdict -> pyval -> handler_outcome);
  cls_handle_error : exn + errdict -> pyval -> handler_outcome;
  cls_on_bind_field : string -> field -> bind_outcome
}.

(** The keyword arguments of [BaseSchema.__init__]. *)
Record init_args := mk_init_args {
  arg_extra : option (gmap string pyval);
  arg_only : list string;
  arg_exclude : list string;
  arg_prefix : string;
  arg_strict : bool;
  arg_many : bool;
  arg_context : option (gmap string pyval);
  arg_load_only : list string;
  arg_dump_only : list string;
  arg_partial : partial_t
}.

Definition default_args : init_args :=
  mk_init_args None [] [] EmptyString false false None [] []
    (PartialBool false).

(** [x or y] on two sets. *)
Definition set_or (x y : gset string) : gset string :=
  if bool_decide (x ≠ ∅) then x else y.

(** [BaseSchema.__init__]. *)
Definition BaseSchema_init {CA : ClassAttributes} (c : schema_class)
    (a : init_args) : exn + schema :=
  match k_declared_fields (cls c), k_opts (cls c) with
  | Some _declared_fields, Some opts =>
      let self :=
        {| opts := opts;
           processors := cls_processors c;
           field_validators := cls_field_validators c;
           schema_validators := cls_schema_validators c;
           __error_handler__ := cls_error_handler c;
           handle_error := cls_handle_error c;
           on_bind_field := cls_on_bind_field c;
           schema_name := k_name (cls c);
           declared_fields := _declared_fields;
           self_many := arg_many a;
           self_only := arg_only a;
           self_exclude := arg_exclude a;
           self_prefix := arg_prefix a;
           self_strict := arg_strict a || opts_strict opts;
           self_ordered := opts_ordered opts;
           self_load_only :=
             set_or (list_to_set (arg_load_only a))
                    (list_to_set (opts_load_only opts));
           self_dump_only :=
             set_or (list_to_set (arg_dump_only a))
                    (list_to_set (opts_dump_only opts));
           self_partial := arg_partial a;
           self_fields := ∅;
           self_extra := arg_extra a;
           self_context := default ∅ (arg_context a) |} in
      _update_fields self VNone (arg_many a)
  | _, _ => inl (AttributeError (Msg "_declared_fields"))
  end.

(** ** The pipelines *)

(** The state of the unmarshaller that the schema reads and writes. *)
Record ustate := mk_ustate {
  errors : errdict;
  error_field_names : list string;
  error_fields : list (option field)
}.

(** What a call can change: the events user code has seen, the
    unmarshaller ([self._unmarshal]) and the errors of the marshaller
    ([self._marshal.errors]). *)
Record state := mk_state {
  trace : list event;
  unmarshal_st : ustate;
  marshal_errors : errdict
}.

Definition initial_state : state :=
  mk_state [] (mk_ustate ∅ [] []) ∅.

(** Computations that read and write the state and may raise. *)
Definition M (A : Type) : Type := state -> (exn + A) * state.

Definition ret {A} (a : A) : M A := fun s => (inr a, s).

Definition bind {A B} (m : M A) (f : A -> M B) : M B :=
  fun s => match m s with
           | (inl e, s') => (inl e, s')
           | (inr a, s') => f a s'
           end.

Definition raise {A} (e : exn) : M A := fun s => (inl e, s).

Declare Scope M_scope.
Delimit Scope M_scope with M.
Notation "'do' x <- m ; k" := (bind m (fun x => k))
  (at level 10, x name, m at level 100, k at level 200,
   format "'[v' 'do'  x  <-  m ; '/' k ']'") : M_scope.
Notation "'do' ' p <- m ; k" := (bind m (fun x => match x with p => k end))
  (at level 10, p pattern, m at level 100, k at level 200) : M_scope.
Notation "m ;; k" := (bind m (fun _ => k))
  (at level 100, k at level 200, right associativity) : M_scope.
Open Scope M_scope.

Definition lift {A} (r : exn + A) : M A := fun s => (r, s).

Definition log (ev : event) : M unit :=
  fun s => (inr tt, mk_state (trace s ++ [ev]) (unmarshal_st s) (marshal_errors s)).

Definition lift_u {A} (f : ustate -> (exn + A) * ustate) : M A :=
  fun s => let '(r, u) := f (unmarshal_st s) in
           (r, mk_state (trace s) u (marshal_errors s)).

Definition lift_m {A} (f : errdict -> (exn + A) * errdict) : M A :=
  fun s => let '(r, e) := f (marshal_errors s) in
           (r, mk_state (trace s) (unmarshal_st s) e).

(** [try: body  except ValidationError as err: handler(err)]. *)
Definition try_except {A} (body : M A)
    (handler : errdict -> list string -> list (option field) -> pyval -> M A)
  : M A :=
  fun s => match body s with
           | (inl (ValidationError m fn fs d), s') => handler m fn fs d s'
           | r => r
           end.

Fixpoint map_M {A B} (f : A -> M B) (l : list A) : M (list B) :=
  match l with
  | [] => ret []
  | x :: l => do y <- f x; do ys <- map_M f l; ret (y :: ys)
  end.

Fixpoint fold_M {A B} (f : B -> A -> M B) (l : list A) (b : B) : M B :=
  match l with
  | [] => ret b
  | x :: l => do b <- f b x; fold_M f l b
  end.

(** The unmarshaller ([marshalling.Unmarshaller], defined outside
    [schema.py]) as the schema uses it: calling it, [call_and_store] and
    [run_validator], each acting on the unmarshaller's own state. *)
Record Unmarshaller := mk_Unmarshaller {
  unmarshal :
    pyval -> gmap string field -> bool (* many *) -> partial_t ->
    bool (* dict_class is OrderedDict *) -> bool (* index_errors *) ->
    ustate -> (exn + pyval) * ustate;
  call_and_store :
    validator -> pyval -> string -> field -> option nat (* index *) ->
    ustate -> (exn + unit) * ustate;
  run_validator :
    validator -> option bool (* many=, bound by functools.partial *) ->
    pyval -> pyval -> gmap string field -> bool (* many *) ->
    option nat (* index *) -> bool (* pass_original *) ->
    ustate -> (exn + unit) * ustate
}.

(** The marshaller ([marshalling.Marshaller]) as the schema uses it. *)
Record Marshaller := mk_Marshaller {
  marshal :
    pyval -> gmap string field -> bool (* many *) ->
    bool (* dict_class is OrderedDict *) -> bool (* index_errors *) ->
    string (* prefix *) -> errdict -> (exn + pyval) * errdict
}.

(** [utils.if_none(value, default)]. *)
Definition if_none (value default : pyval) : pyval :=
  match value with VNone => default | _ => value end.

(** The items a [for] loop over a value sees. *)
Definition iter_items (v : pyval) : exn + list pyval :=
  match v with
  | VTuple l | VList l | VSet l | VGenerator l | VIter l | VCursor l => inr l
  | VStr s => inr ((fun c => VStr (String c EmptyString)) <$> String.list_ascii_of_string s)
  | VBytes s => inr ((fun c => VInt (Z.of_nat (Ascii.nat_of_ascii c))) <$> String.list_ascii_of_string s)
  | VDict d => inr (VStr <$> (map_to_list d).*1)
  | VNone | VBool _ | VInt _ | VOpaque _ _ | VObj _ _ =>
      inl (TypeError (Msg "object is not iterable"))
  end.

(** [item[field_name]]: [inr None] is the [KeyError] of a dictionary. *)
Definition getitem (v : pyval) (field_name : string) : exn + option pyval :=
  match v with
  | VDict d => inr (d !! field_name)
  | _ => inl (TypeError (Msg "indices must be integers or object is not subscriptable"))
  end.

Section pipelines.

Context {CA : ClassAttributes}.
Variable U : Unmarshaller.
Variable Ma : Marshaller.

(** One call of a hook, seen by user code. *)
Definition call_processor (tag_name : tag) (pass_many : bool) (p : processor)
    (args : list pyval) : M pyval :=
  log (EvProcessor tag_name pass_many (p_name p) args);;
  lift (p_call p args).

(** The body of the loop of [_invoke_processors] for one processor. *)
Definition invoke_processor (tag_name : tag) (pass_many many : bool)
    (original_data data : pyval) (p : processor) : M pyval :=
  if pass_many then
    do r <- call_processor tag_name pass_many p
              (if p_pass_original p then [data; VBool many; original_data]
               else [data; VBool many]);
    ret (if_none r data)
  else if many then
    do items <- lift (iter_items data);
    do rs <- map_M (fun item =>
                do r <- call_processor tag_name pass_many p
                          (if p_pass_original p then [item; original_data]
                           else [item]);
                ret (if_none r item)) items;
    ret (VList rs)
  else
    do r <- call_processor tag_name pass_many p
              (if p_pass_original p then [data; original_data] else [data]);
    ret (if_none r data).

(** [BaseSchema._invoke_processors]. *)
Definition _invoke_processors (self : schema) (tag_name : tag)
    (pass_many : bool) (data : pyval) (many : bool) (original_data : pyval)
  : M pyval :=
  fold_M (invoke_processor tag_name pass_many many original_data)
        (processors self tag_name pass_many) data.

(** [BaseSchema._invoke_dump_processors]. *)
Definition _invoke_dump_processors (self : schema) (tag_name : tag)
    (data : pyval) (many : bool) (original_data : pyval) : M pyval :=
  do data <- _invoke_processors self tag_name false data many original_data;
  do data <- _invoke_processors self tag_name true data many original_data;
  ret data.

(** [BaseSchema._invoke_load_processors]. *)
Definition _invoke_load_processors (self : schema) (tag_name : tag)
    (data : pyval) (many : bool) (original_data : pyval) : M pyval :=
  do data <- _invoke_processors self tag_name true data many original_data;
  do data <- _invoke_processors self tag_name false data many original_data;
  ret data.

(** The [try: value = item[field_name] ... else: call_and_store(...)] of
    [_invoke_field_validators]. *)
Definition validate_field_value (v : validator) (field_obj : field)
    (item : pyval) (index : option nat) : M unit :=
  do value <- lift (getitem item (v_field_name v));
  match value with
  | None => ret tt
  | Some value =>
      lift_u (call_and_store U v value (v_field_name v) field_obj index)
  end.

(** [BaseSchema._invoke_field_validators]. *)
Definition _invoke_field_validators (self : schema) (data : pyval)
    (many : bool) : M unit :=
  fold_M (fun (_ : unit) v =>
    match self_fields self !! v_field_name v with
    | None =>
        if bool_decide (v_field_name v ∈ dom (declared_fields self))
        then ret tt
        else raise (ValueError (FieldDoesNotExist (v_field_name v)))
    | Some field_obj =>
        if many then
          do items <- lift (iter_items data);
          fold_M (fun (_ : unit) '(idx, item) =>
                   validate_field_value v field_obj item
                     (if opts_index_errors (opts self) then Some idx else None))
                (imap (fun idx item => (idx, item)) items) tt
        else validate_field_value v field_obj data None
    end) (field_validators self) tt.

(** [errors.update(err.messages)]: the entries of [messages] replace those
    of [errors] that have the same key. *)
Definition dict_update (errors messages : errdict) : errdict :=
  messages ∪ errors.

(** [try: run_validator(...)  except ValidationError as err:
    errors.update(err.messages)], on the local [errors] of
    [_invoke_validators]. *)
Definition run_and_collect (self : schema) (v : validator)
    (many_kw : option bool) (data original_data : pyval) (many : bool)
    (index : option nat) (errors : errdict) : M errdict :=
  try_except
    (lift_u (run_validator U v many_kw data original_data (self_fields self)
               many index (v_pass_original v));;
     ret errors)
    (fun messages _ _ _ => ret (dict_update errors messages)).

(** The body of the loop of [_invoke_validators] for one validator. *)
Definition invoke_validator (self : schema) (pass_many : bool)
    (data original_data : pyval) (many : bool) (errors : errdict)
    (v : validator) : M errdict :=
  let many_kw := if pass_many then Some many else None in
  if many && negb pass_many then
    do items <- lift (iter_items data);
    fold_M (fun errors '(idx, item) =>
             run_and_collect self v many_kw item original_data many
               (Some idx) errors)
          (imap (fun idx item => (idx, item)) items) errors
  else
    run_and_collect self v many_kw data original_data many None errors.

(** [BaseSchema._invoke_validators]. *)
Definition _invoke_validators (self : schema) (pass_many : bool)
    (data original_data : pyval) (many : bool) : M unit :=
  do errors <- fold_M (invoke_validator self pass_many data original_data many)
                     (schema_validators self pass_many) ∅;
  if bool_decide (errors ≠ ∅) then raise (ValidationError errors [] [] VNone)
  else ret tt.

(** [errors = self._unmarshal.errors] names the unmarshaller's own
    dictionary, so [errors.update(...)] in [_do_load] writes it. *)
Definition update_errors (messages : errdict) : M unit :=
  fun s =>
    let u := unmarshal_st s in
    (inr tt,
     mk_state (trace s)
       (mk_ustate (dict_update (errors u) messages) (error_field_names u)
          (error_fields u))
       (marshal_errors s)).

Definition get_ustate : M ustate := fun s => (inr (unmarshal_st s), s).

(** The content of [self._unmarshal.errors] and of [self._marshal.errors]. *)
Definition get_errors : M errdict :=
  fun s => (inr (errors (unmarshal_st s)), s).

Definition get_marshal_errors : M errdict :=
  fun s => (inr (marshal_errors s), s).

(** What a handler did to the dictionary it was handed, written back. *)
Definition set_errors (d : errdict) : M unit :=
  fun s =>
    let u := unmarshal_st s in
    (inr tt,
     mk_state (trace s) (mk_ustate d (error_field_names u) (error_fields u))
       (marshal_errors s)).

Definition set_marshal_errors (d : errdict) : M unit :=
  fun s => (inr tt, mk_state (trace s) (unmarshal_st s) d).

(** The error [_do_load] builds from the unmarshaller's state:
    [ValidationError(errors, field_names=self._unmarshal.error_field_names,
    fields=self._unmarshal.error_fields, data=data)]. *)
Definition aggregate_error (u : ustate) (data : pyval) : exn :=
  ValidationError (errors u) (error_field_names u) (error_fields u) data.

(** A call of an error handler on the dictionary that [write] names: the
    call is seen, the dictionary holds what the handler left in it, and the
    handler's exception, if any, is raised. *)
Definition run_handler (ev : event) (outcome : handler_outcome)
    (write : errdict -> M unit) : M unit :=
  log ev;;
  write outcome.2;;
  match outcome.1 with
  | Some e => raise e
  | None => ret tt
  end.

(** The [if errors:] block of [_do_load].  [errors] is the dictionary of
    the unmarshaller itself: it is what the handlers are handed (the second
    one as the [messages] of [exc]) and what [exc] carries when it is
    raised, each time with the content it has by then. *)
Definition report_errors (self : schema) (data : pyval) : M unit :=
  do errors <- get_errors;
  if bool_decide (errors ≠ ∅) then
    match __error_handler__ self with
    | Some h =>
        run_handler (EvErrorHandler errors data) (h errors data) set_errors
    | None => ret tt
    end;;
    do u <- get_ustate;
    let exc := aggregate_error u data in
    run_handler (EvHandleError (inl exc) data)
      (handle_error self (inl exc) data) set_errors;;
    if self_strict self then
      do errors <- get_errors;
      raise (ValidationError errors (error_field_names u) (error_fields u)
               data)
    else ret tt
  else ret tt.

(** [_do_load] from [if not errors and postprocess:] to its end: the test
    and the pair returned see the same dictionary, as it is by then. *)
Definition return_loaded (self : schema) (data : pyval)
    (many postprocess : bool) (result : pyval) : M (pyval * errdict) :=
  do errors <- get_errors;
  do result <-
    (if bool_decide (errors = ∅) && postprocess
     then _invoke_load_processors self POST_LOAD result many data
     else ret result);
  do errors <- get_errors;
  ret (result, errors).

(** [_do_load] from [if errors:] to its end. *)
Definition finish_load (self : schema) (data : pyval) (many postprocess : bool)
    (result : pyval) : M (pyval * errdict) :=
  report_errors self data;;
  return_loaded self data many postprocess result.

(** The two [try: self._invoke_validators(...)  except ValidationError as
    err: errors.update(err.messages)] of [_do_load]. *)
Definition run_schema_validators (self : schema) (result data : pyval)
    (many : bool) : M unit :=
  try_except
    (_invoke_validators self true result data many)
    (fun messages _ _ _ => update_errors messages);;
  try_except
    (_invoke_validators self false result data many)
    (fun messages _ _ _ => update_errors messages).

(** [_do_load] up to [if errors:]: hooks, deserialisation, validators. *)
Definition load_stages (self : schema) (data : pyval) (many : bool)
    (partial : partial_t) : M pyval :=
  do processed_data <- _invoke_load_processors self PRE_LOAD data many data;
  do result <-
    try_except
      (lift_u (unmarshal U processed_data (self_fields self) many partial
                 (self_ordered self) (opts_index_errors (opts self))))
      (fun _ _ _ error_data => ret error_data);
  _invoke_field_validators self result many;;
  run_schema_validators self result data many;;
  ret result.

(** The [partial] that [_do_load] hands to the unmarshaller:
    [self.partial if partial is None else bool(partial)]. *)
Definition effective_partial (self : schema) (partial : option partial_t)
  : partial_t :=
  match partial with
  | None => self_partial self
  | Some p => PartialBool (partial_truthy p)
  end.

(** [BaseSchema._do_load]. *)
Definition _do_load (self : schema) (data : pyval) (many : option bool)
    (partial : option partial_t) (postprocess : bool) : M (pyval * errdict) :=
  let many := default (self_many self) many in
  let partial := effective_partial self partial in
  do result <- load_stages self data many partial;
  finish_load self data many postprocess result.

(** [BaseSchema.load]. *)
Definition load (self : schema) (data : pyval) (many : option bool)
    (partial : option partial_t) : M (pyval * errdict) :=
  _do_load self data many partial true.

(** [BaseSchema.validate]. *)
Definition validate (self : schema) (data : pyval) (many : option bool)
  : M errdict :=
  do r <- _do_load self data many None false;
  ret r.2.

(** A collection with its items replaced (they are updated in place). *)
Definition with_items (data : pyval) (items : list pyval) : pyval :=
  match data with
  | VTuple _ => VTuple items
  | VList _ => VList items
  | VSet _ => VSet items
  | VGenerator _ => VGenerator items
  | VIter _ => VIter items
  | VCursor _ => VCursor items
  | _ => data
  end.

(** [each.update(self.extra)]. *)
Definition update_extra (extra : gmap string pyval) (each : pyval) : exn + pyval :=
  match each with
  | VDict d => inr (VDict (extra ∪ d))
  | _ => inl (AttributeError (Msg "update"))
  end.

(** [BaseSchema._postprocess]: [self.handle_error or self.__error_handler__]
    is [self.handle_error], a bound method being true. *)
Definition _postprocess (self : schema) (data : pyval) (many : bool)
    (obj : pyval) : M pyval :=
  do data <-
    match self_extra self with
    | Some extra =>
        if bool_decide (extra ≠ ∅) then
          if many then
            do items <- lift (iter_items data);
            do items <- map_M (fun each => lift (update_extra extra each)) items;
            ret (with_items data items)
          else lift (update_extra extra data)
        else ret data
    | None => ret data
    end;
  do errors <- get_marshal_errors;
  (if bool_decide (errors ≠ ∅) then
     run_handler (EvHandleError (inr errors) obj)
       (handle_error self (inr errors) obj) set_marshal_errors
   else ret tt);;
  ret data.

(** [BaseSchema.dump]; the result comes with [self], whose [fields] the
    call may have replaced.  After a marshalling error, [errors] is the
    dictionary of the marshaller itself, which [_postprocess] hands to
    [handle_error]; otherwise it is a new, empty one. *)
Definition dump (self : schema) (obj : pyval) (many : option bool)
    (update_fields : bool) : M (schema * (pyval * errdict)) :=
  let many := default (self_many self) many in
  let obj := match obj with VGenerator l => VList l | _ => obj end in
  do processed_obj <- _invoke_dump_processors self PRE_DUMP obj many obj;
  do self <- (if update_fields then lift (_update_fields self processed_obj many)
              else ret self);
  do '(preresult, failed) <-
    try_except
      (do preresult <-
         lift_m (marshal Ma processed_obj (self_fields self) many
                   (self_ordered self) (opts_index_errors (opts self))
                   (self_prefix self));
       ret (preresult, false))
      (fun messages fn fs error_data =>
         if self_strict self
         then raise (ValidationError messages fn fs error_data)
         else ret (error_data, true));
  do result <- _postprocess self preresult many obj;
  do result <- _invoke_dump_processors self POST_DUMP result many obj;
  do errors <- (if failed then get_marshal_errors else ret ∅);
  ret (self, (result, errors)).

End pipelines.

(** ** The collaborators, as the specification describes them

    The module [marshalling] is outside [schema.py].  Everything about the
    schema is stated for an arbitrary [Unmarshaller] and [Marshaller]; the
    two below serve to run the pipelines on concrete inputs. *)

Definition SCHEMA : string := "_schema".

(** Modelled from the spec: the per-field [partial] of the unmarshaller
    (missing [marshalling.py]); "partial may be a boolean for the whole load
    or a set of field names". *)
Definition partial_for (partial : partial_t) (field_name : string) : bool :=
  match partial with
  | PartialBool b => b
  | PartialNames names => bool_decide (field_name ∈ names)
  end.

(** Modelled from the spec: the error model of the missing
    [marshalling.py]; messages stored under a key are "additive (merged by
    key union, list concatenation within a key)". *)
Definition add_messages (k : key) (msgs : list string) (e : errdict) : errdict :=
  match e !! k with
  | Some (EMsgs old) => <[k := EMsgs (old ++ msgs)]> e
  | _ => <[k := EMsgs msgs]> e
  end.

(** Modelled from the spec: errors of the missing [marshalling.py] are
    keyed "for batches, from index then field name". *)
Definition store_messages (index : option nat) (k : key) (msgs : list string)
    (e : errdict) : errdict :=
  match index with
  | None => add_messages k msgs e
  | Some i =>
      let inner := match e !! KIdx i with Some (ENested d) => d | _ => ∅ end in
      <[KIdx i := ENested (add_messages k msgs inner)]> e
  end.

(** Modelled from the spec: deserialising one item in the missing
    [marshalling.py]: "a field absent from the input is treated as missing
    and skipped rather than flagged required, when partial is true for that
    field"; a field that is present passes through its contract, whose
    conversion is outside the schema layer. *)
Definition deserialize_item (fields : gmap string field) (partial : partial_t)
    (index : option nat) (item : pyval) (errs : errdict * list string)
  : gmap string pyval * (errdict * list string) :=
  let entries := match item with VDict d => d | _ => ∅ end in
  map_fold
    (fun field_name f '(out, (e, failed)) =>
       if dump_only f then (out, (e, failed))
       else match entries !! field_name with
            | Some v => (<[field_name := v]> out, (e, failed))
            | None =>
                if partial_for partial field_name then (out, (e, failed))
                else if required f then
                  (out,
                   (store_messages index (KStr field_name)
                      ["Missing data for required field."] e,
                    failed ++ [field_name]))
                else (out, (e, failed))
            end)
    (∅, errs) fields.

(** Modelled from the spec: calling the unmarshaller of the missing
    [marshalling.py]: errors are "created fresh per dump/load invocation";
    per-field failures "accumulate in the Error Model without halting
    sibling-field or sibling-item processing". *)
Definition spec_unmarshal (data : pyval) (fields : gmap string field)
    (many : bool) (partial : partial_t) (ordered index_errors : bool)
    (u : ustate) : (exn + pyval) * ustate :=
  let '(result, (e, failed)) :=
    if many then
      let items := match iter_items data with inr l => l | inl _ => [] end in
      let '(outs, errs) :=
        foldl (fun '(outs, errs) '(idx, item) =>
                 let '(out, errs) :=
                   deserialize_item fields partial
                     (if index_errors then Some idx else None) item errs in
                 (outs ++ [VDict out], errs))
              ([], (∅, [])) (imap (fun idx item => (idx, item)) items) in
      (VList outs, errs)
    else
      let '(out, errs) := deserialize_item fields partial None data (∅, []) in
      (VDict out, errs) in
  let failed_fields := (fun n => fields !! n) <$> failed in
  let u := mk_ustate e failed failed_fields in
  if bool_decide (e ≠ ∅)
  then (inl (ValidationError e failed failed_fields result), u)
  else (inr result, u).

(** Modelled from the spec: [call_and_store] of the missing
    [marshalling.py]: a field validator's "failures accumulate under that
    field's key". *)
Definition spec_call_and_store (v : validator) (value : pyval)
    (field_name : string) (field_obj : field) (index : option nat)
    (u : ustate) : (exn + unit) * ustate :=
  let fail msgs :=
    (inr tt,
     mk_ustate (store_messages index (KStr field_name) msgs (errors u))
       (error_field_names u ++ [field_name])
       (error_fields u ++ [Some field_obj])) in
  match v_call v [value] with
  | VPass => (inr tt, u)
  | VFalse => fail ["Invalid value."]
  | VInvalid msgs _ => fail msgs
  | VRaises e => (inl e, u)
  end.

(** The positional arguments of a call of a schema validator: the data,
    the original input when it asks for it, and [many] when it was bound
    with [functools.partial]. *)
Definition validator_args (pass_original : bool) (many_kw : option bool)
    (output original_data : pyval) : list pyval :=
  [output] ++ (if pass_original then [original_data] else [])
           ++ (match many_kw with Some m => [VBool m] | None => [] end).

(** Modelled from the spec: recording the messages of a schema validator in
    the error model of the missing [marshalling.py], under each of the
    names it gives: "merged by key union, list concatenation within a key;
    they never overwrite each other". *)
Definition record_messages (index : option nat) (msgs names : list string)
    (e : errdict) : errdict :=
  foldl (fun e n => store_messages index (KStr n) msgs e) e names.

(** Modelled from the spec: [run_validator] of the missing
    [marshalling.py]: for a schema validator "a failure raises a structured
    error that is merged into the aggregate": the messages are recorded in
    the error dictionary of the unmarshaller, under the field names the
    validator gives or under the schema key, and the error raised carries
    that dictionary. *)
Definition spec_run_validator (v : validator) (many_kw : option bool)
    (output original_data : pyval) (fields : gmap string field) (many : bool)
    (index : option nat) (pass_original : bool) (u : ustate)
  : (exn + unit) * ustate :=
  let args := validator_args pass_original many_kw output original_data in
  let fail msgs fns :=
    let names := if nonempty fns then fns else [SCHEMA] in
    let field_objs :=
      if nonempty fns then (fun n => fields !! n) <$> fns else [] in
    let errors := record_messages index msgs names (errors u) in
    (inl (ValidationError errors names field_objs output),
     mk_ustate errors names field_objs) in
  match v_call v args with
  | VPass => (inr tt, u)
  | VFalse => fail ["Invalid input."] []
  | VInvalid msgs fns => fail msgs fns
  | VRaises e => (inl e, u)
  end.

Definition spec_unmarshaller : Unmarshaller :=
  mk_Unmarshaller spec_unmarshal spec_call_and_store spec_run_validator.

(** Modelled from the spec: serialising one item in the missing
    [marshalling.py]: each field of the field set that is not load-only
    yields the object's value under its (prefixed) name. *)
Definition serialize_item (fields : gmap string field) (prefix : string)
    (obj : pyval) : pyval :=
  let source :=
    match obj with VDict d => d | VObj _ attrs => attrs | _ => ∅ end in
  VDict (map_fold
           (fun field_name f out =>
              if load_only f then out
              else match source !! field_name with
                   | Some v => <[(prefix +:+ field_name) := v]> out
                   | None => out
                   end)
           ∅ fields).

(** Modelled from the spec: calling the marshaller of the missing
    [marshalling.py], for objects every field of which serialises. *)
Definition spec_marshal (obj : pyval) (fields : gmap string field)
    (many ordered index_errors : bool) (prefix : string) (e : errdict)
  : (exn + pyval) * errdict :=
  if many then
    match iter_items obj with
    | inr items => (inr (VList (serialize_item fields prefix <$> items)), ∅)
    | inl err => (inl err, ∅)
    end
  else (inr (serialize_item fields prefix obj), ∅).

Definition spec_marshaller : Marshaller := mk_Marshaller spec_marshal.

(** ** Notions used in the statements *)


(** The item [__filter_fields] infers implicit fields from: the first item
    of a truthy [obj] when [many], else [obj] itself. *)
Definition representative (obj : pyval) (many : bool) : exn + option pyval :=
  if truthy obj && many then first_item obj else inr (Some obj).

(** What the deprecated [__error_handler__] leaves of the errors [d], when
    there is one. *)
Definition first_handler (self : schema) (d : errdict) (data : pyval)
  : handler_outcome :=
  match __error_handler__ self with
  | Some h => h d data
  | None => (None, d)
  end.

(** The error that [_do_load] hands to [handle_error], from the state [u]
    of the unmarshaller and what the first handler left of its errors. *)
Definition handled_error (self : schema) (u : ustate) (data : pyval) : exn :=
  ValidationError (first_handler self (errors u) data).2
    (error_field_names u) (error_fields u) data.

(** The calls of error handlers that [_do_load] makes on the errors of
    [u]: the deprecated handler when there is one, then, unless that one
    raised, [handle_error]. *)
Definition handler_calls (self : schema) (u : ustate) (data : pyval)
  : list event :=
  match __error_handler__ self with
  | Some _ => [EvErrorHandler (errors u) data]
  | None => []
  end
  ++ match (first_handler self (errors u) data).1 with
     | None => [EvHandleError (inl (handled_error self u data)) data]
     | Some _ => []
     end.

(** The error dictionary as the handlers of [_do_load] leave it. *)
Definition handled_errors (self : schema) (u : ustate) (data : pyval)
  : errdict :=
  match (first_handler self (errors u) data).1 with
  | Some _ => (first_handler self (errors u) data).2
  | None => (handle_error self (inl (handled_error self u data)) data).2
  end.

(** The messages stored under the field name [n], for the item [index]
    when there is one. *)
Definition msgs_under (e : errdict) (index : option nat) (n : string)
  : list string :=
  let at_top (d : errdict) :=
    match d !! KStr n with Some (EMsgs l) => l | _ => [] end in
  match index with
  | None => at_top e
  | Some i =>
      match e !! KIdx i with Some (ENested d) => at_top d | _ => [] end
  end.

(** What the outcome of a schema validator reports: its messages and the
    names they go under, the schema key when it names no field. *)
Definition reported (r : validator_result)
  : option (list string * list string) :=
  match r with
  | VFalse => Some (["Invalid input."], [SCHEMA])
  | VInvalid msgs fns => Some (msgs, if nonempty fns then fns else [SCHEMA])
  | VPass | VRaises _ => None
  end.

Definition raises (r : validator_result) : bool :=
  match r with VRaises _ => true | _ => false end.

(** The calls that [_invoke_validators] makes for one group of schema
    validators, in order, each with the index of its item and its outcome:
    every validator is called on the whole data, or, when [many] is set
    and the group is not the batch group, on each item in turn ([items]
    are the items of [data]). *)
Definition validator_group_calls (self : schema) (pass_many : bool)
    (data original_data : pyval) (many : bool) (items : list pyval)
  : list (option nat * validator_result) :=
  v ← schema_validators self pass_many;
  if many && negb pass_many then
    (fun '(idx, item) =>
       (Some idx, v_call v (validator_args (v_pass_original v) None item
                              original_data)))
      <$> imap (fun idx item => (idx, item)) items
  else
    [(None, v_call v (validator_args (v_pass_original v)
                        (if pass_many then Some many else None) data
                        original_data))].

(** The calls of schema validators that a load makes: the batch group,
    then the other. *)
Definition schema_validator_calls (self : schema) (result original_data : pyval)
    (many : bool) (items : list pyval) : list (option nat * validator_result) :=
  validator_group_calls self true result original_data many items
  ++ validator_group_calls self false result original_data many items.

(** The error dictionary after a call has been recorded. *)
Definition recorded (call : option nat * validator_result) (e : errdict)
  : errdict :=
  match reported call.2 with
  | Some (msgs, names) => record_messages call.1 msgs names e
  | None => e
  end.

(** The messages that a call adds under the name [n] for the item
    [index]. *)
Definition contribution (index : option nat) (n : string)
    (call : option nat * validator_result) : list string :=
  match reported call.2 with
  | Some (msgs, names) =>
      if decide (call.1 = index)
      then concat ((fun n' => if decide (n' = n) then msgs else []) <$> names)
      else []
  | None => []
  end.

(** [ev] is a call of a hook registered under [(t, pass_many)]. *)
Definition is_hook (t : tag) (pass_many : bool) (ev : event) : Prop :=
  match ev with
  | EvProcessor t' pm _ _ => t' = t ∧ pm = pass_many
  | _ => False
  end.

(** Every event with [P] comes before every event with [Q]. *)
Definition all_before (P Q : event -> Prop) (t : list event) : Prop :=
  forall i j e1 e2,
    t !! i = Some e1 -> t !! j = Some e2 -> P e1 -> Q e2 -> i < j.

(** The events of a call: what it appended to the trace. *)
Definition events_of {A} (m : M A) (s : state) (t : list event) : Prop :=
  trace (m s).2 = trace s ++ t.

(** ** Example schemas *)

Definition from_inr {A} (d : A) (r : exn + A) : A :=
  match r with inr a => a | inl _ => d end.

Definition declare (c : fields.cls) (idx : nat) (req : bool) : attr :=
  AField (mk_field c true idx req false false None None).

(** The runtime of the examples: a part of Python's table, the data
    attributes of integers and booleans ([(5).real] is an [int]); the
    methods of the built-in types are left out of it.  The objects of the
    examples are mappings and collections of mappings, on which no
    attribute is looked up, and every general result is stated for an
    arbitrary table. *)
#[global] Instance example_attributes : ClassAttributes :=
  fun obj key =>
    match obj with
    | VInt _ | VBool _ =>
        if bool_decide (key ∈ ["real"; "imag"; "numerator"; "denominator"])
        then Some int_type else None
    | _ => None
    end.

(** The error dictionary that a handler is handed: the dictionary itself,
    or the [messages] of the error. *)
Definition handed (error : exn + errdict) : errdict :=
  match error with
  | inl (ValidationError messages _ _ _) => messages
  | inl _ => ∅
  | inr errors => errors
  end.

(** [BaseSchema.handle_error] and [BaseSchema.on_bind_field] as they are
    defined: [pass] and [return None]. *)
Definition default_handle_error (error : exn + errdict) (data : pyval)
  : handler_outcome :=
  (None, handed error).

Definition default_on_bind_field (field_name : string) (field_obj : field)
  : bind_outcome :=
  (None, field_obj).

(** A class without hooks, validators or overridden methods. *)
Definition plain (k : klass) : schema_class :=
  mk_schema_class k (fun _ _ => []) [] (fun _ => []) None default_handle_error
    default_on_bind_field.

Definition subclass (class_name : string) (base : klass)
    (attrs : gmap string attr) : exn + klass :=
  SchemaMeta_new class_name [base] (base :: k_mro base) attrs.

(** [class Meta: fields = ("name",); additional = ("email",)]. *)
Definition conflicting_Meta : Meta :=
  mk_Meta (Some (OTuple ["name"])) (Some (OTuple ["email"])) None None None
    None None None None None None.

(** [class PersonSchema(Schema): name = Str(required); age = Int(required);
    email = Str(required)]. *)
Definition PersonSchema_attrs : gmap string attr :=
  <["name" := declare fields.String 1 true]>
    (<["age" := declare fields.Integer 2 true]>
       (<["email" := declare fields.String 3 true]> ∅)).

Definition PersonSchema_k : klass :=
  from_inr Schema_k (subclass "PersonSchema" Schema_k PersonSchema_attrs).

(** [class EmployeeSchema(PersonSchema): age = Float(); salary = Decimal()]. *)
Definition EmployeeSchema_attrs : gmap string attr :=
  <["age" := declare fields.Float 4 false]>
    (<["salary" := declare fields.Decimal 5 false]> ∅).

(** [class StrictSchema(Schema): class Meta: strict = True]. *)
Definition StrictSchema_attrs : gmap string attr :=
  <["name" := declare fields.String 1 false]>
    (<["Meta" := AMeta (mk_Meta None None None (Some true) None None None None
                          None None None)]> ∅).

Definition StrictSchema_k : klass :=
  from_inr Schema_k (subclass "StrictSchema" Schema_k StrictSchema_attrs).

(** [class ImplicitSchema(Schema): class Meta: fields = ("name",)]. *)
Definition ImplicitSchema_attrs : gmap string attr :=
  <["Meta" := AMeta (mk_Meta (Some (OTuple ["name"])) None None None None None
                       None None None None None)]> ∅.

Definition ImplicitSchema_k : klass :=
  from_inr Schema_k (subclass "ImplicitSchema" Schema_k ImplicitSchema_attrs).

(** Instances, with a placeholder where construction would fail. *)
Definition no_schema : schema :=
  mk_schema default_opts (fun _ _ => []) [] (fun _ => []) None
    default_handle_error default_on_bind_field EmptyString ∅ false [] [] EmptyString
    false false ∅ ∅ (PartialBool false) ∅ None ∅.

Definition instance (c : schema_class) (a : init_args) : schema :=
  from_inr no_schema (BaseSchema_init c a).

Definition only_name : init_args :=
  mk_init_args None ["name"] [] EmptyString false false None [] []
    (PartialBool false).

Definition a_person : pyval :=
  VDict (<["name" := VStr "Ada"]> (<["age" := VInt 36]> ∅)).

(** Hooks that leave their argument as it is. *)
Definition keep (attr_name : string) : processor :=
  mk_processor attr_name false (fun _ => inr VNone).

(** [PersonSchema] with a per-item [post_dump] hook and a batch
    ([pass_many=True]) [post_dump] hook. *)
Definition EnvelopeSchema : schema_class :=
  mk_schema_class PersonSchema_k
    (fun t pass_many =>
       match t, pass_many with
       | POST_DUMP, false => [keep "strip_item"]
       | POST_DUMP, true => [keep "add_envelope"]
       | _, _ => []
       end)
    [] (fun _ => []) None default_handle_error default_on_bind_field.

Definition failing (attr_name msg : string) : validator :=
  mk_validator attr_name EmptyString false (fun _ => VInvalid [msg] []).

(** [PersonSchema] with a batch and a per-item [validates_schema] method,
    both of which fail. *)
Definition CheckedSchema : schema_class :=
  mk_schema_class PersonSchema_k (fun _ _ => []) []
    (fun pass_many =>
       if pass_many then [failing "check_batch" "batch rejected"]
       else [failing "check_item" "item rejected"])
    None default_handle_error default_on_bind_field.

(** [PersonSchema] whose [handle_error] raises. *)
Definition RaisingSchema : schema_class :=
  mk_schema_class PersonSchema_k (fun _ _ => []) [] (fun _ => []) None
    (fun error _ => (Some (UserError "An error occurred"), handed error))
    default_on_bind_field.

(** [PersonSchema] with a [post_load] hook and a [handle_error] that
    empties the dictionary of the error it is given
    ([error.messages.clear()]). *)
Definition ForgivingSchema : schema_class :=
  mk_schema_class PersonSchema_k
    (fun t pass_many =>
       match t, pass_many with
       | POST_LOAD, false => [keep "make_object"]
       | _, _ => []
       end)
    [] (fun _ => []) None (fun _ _ => (None, ∅)) default_on_bind_field.

(** [PersonSchema] with two per-item [validates_schema] methods, both of
    which fail. *)
Definition TwiceCheckedSchema : schema_class :=
  mk_schema_class PersonSchema_k (fun _ _ => []) []
    (fun pass_many =>
       if pass_many then []
       else [failing "check_first" "first rejected";
             failing "check_second" "second rejected"])
    None default_handle_error default_on_bind_field.

Definition person_schema : schema := instance (plain PersonSchema_k) default_args.
Definition checked_schema : schema := instance CheckedSchema default_args.
Definition twice_checked_schema : schema :=
  instance TwiceCheckedSchema default_args.
Definition raising_schema : schema := instance RaisingSchema default_args.
Definition forgiving_schema : schema := instance ForgivingSchema default_args.

Definition only_a_name : pyval := VDict (<["name" := VStr "Ada"]> ∅).

(** The state with the unmarshaller's state replaced. *)
Definition with_ustate (s : state) (u : ustate) : state :=
  mk_state (trace s) u (marshal_errors s).

Definition EmployeeSchema_k : klass :=
  from_inr Schema_k
    (subclass "EmployeeSchema" PersonSchema_k EmployeeSchema_attrs).




(** [class ConflictSchema(Schema): class Meta: fields = ("name",);
    additional = ("email",)]. *)
Definition ConflictSchema_attrs : gmap string attr :=
  <["Meta" := AMeta conflicting_Meta]> ∅.

Definition implicit_schema : schema := instance (plain ImplicitSchema_k) default_args.

Definition person_only_name : schema := instance (plain PersonSchema_k) only_name.

Definition envelope_schema : schema := instance EnvelopeSchema default_args.

(** The error a failing schema validator raises through the unmarshaller of
    the specification, and the state it leaves. *)
Definition schema_messages (msg : string) : errdict :=
  {[KStr SCHEMA := EMsgs [msg]]}.

Definition after_schema_error : ustate := mk_ustate ∅ [SCHEMA] [].

(** ** Traces *)

(** Every event that [m] appends to the trace satisfies [φ]. *)
Definition emits {A} (m : M A) (φ : event -> Prop) : Prop :=
  forall s, exists t, trace (m s).2 = trace s ++ t /\ Forall φ t.

(** The events that [m] appends to the trace are events with [φ1] followed
    by events with [φ2]. *)
Definition emits_then {A} (m : M A) (φ1 φ2 : event -> Prop) : Prop :=
  forall s, exists t1 t2,
    trace (m s).2 = trace s ++ t1 ++ t2 /\ Forall φ1 t1 /\ Forall φ2 t2.

(** The hooks called, in order. *)
Definition hook_calls (t : list event) : list (tag * bool * string) :=
  omap (fun ev => match ev with
                  | EvProcessor t pass_many attr_name _ =>
                      Some (t, pass_many, attr_name)
                  | _ => None
                  end) t.

(** [ev] is not a call of a hook registered under [t], in either mode. *)
Definition no_hook (t : tag) (ev : event) : Prop :=
  forall pass_many, ~ is_hook t pass_many ev.

(** ** More examples and notions *)

Definition without_email : init_args :=
  mk_init_args None [] ["email"] EmptyString false false None [] []
    (PartialBool false).

Definition person_without_email : schema :=
  instance (plain PersonSchema_k) without_email.

Definition person_without_email_on_cursor : schema :=
  from_inr no_schema (_update_fields person_without_email (VCursor []) true).

(** [ev] is a call of a hook registered under [t], in either mode. *)
Definition any_hook (t : tag) (ev : event) : Prop :=
  exists pass_many, is_hook t pass_many ev.

(** [ev] is a call of an error handler. *)
Definition is_handler_call (ev : event) : Prop :=
  match ev with
  | EvErrorHandler _ _ | EvHandleError _ _ => True
  | EvProcessor _ _ _ _ => False
  end.

(** [dump] from [if update_fields:] on, given the object the [pre_dump]
    hooks returned; [obj] is the object after generators are made lists
    and [many] the collection mode in force. *)
Definition dump_processed {CA : ClassAttributes} (Ma : Marshaller)
    (self : schema) (obj : pyval)
    (many update_fields : bool) (processed_obj : pyval)
  : M (schema * (pyval * errdict)) :=
  do self <- (if update_fields then lift (_update_fields self processed_obj many)
              else ret self);
  do '(preresult, failed) <-
    try_except
      (do preresult <-
         lift_m (marshal Ma processed_obj (self_fields self) many
                   (self_ordered self) (opts_index_errors (opts self))
                   (self_prefix self));
       ret (preresult, false))
      (fun messages fn fs error_data =>
         if self_strict self
         then raise (ValidationError messages fn fs error_data)
         else ret (error_data, true));
  do result <- _postprocess self preresult many obj;
  do result <- _invoke_dump_processors self POST_DUMP result many obj;
  do errors <- (if failed then get_marshal_errors else ret ∅);
  ret (self, (result, errors)).

(** What [dump] makes of its [obj] before anything else:
    [if isinstance(obj, types.GeneratorType): obj = list(obj)]. *)
Definition materialize (obj : pyval) : pyval :=
  match obj with VGenerator l => VList l | _ => obj end.

(** [m] leaves the state of the unmarshaller as it is. *)
Definition keeps_unmarshaller {A} (m : M A) : Prop :=
  forall s, unmarshal_st (m s).2 = unmarshal_st s.

(** The key [field_name] is absent from the data a field validator would
    be given: from [data] itself, or from each of its items when [many]. *)
Definition lacks_key (data : pyval) (many : bool) (field_name : string)
  : Prop :=
  if many then
    exists items,
      iter_items data = inr items
      /\ Forall (fun item => getitem item field_name = inr None) items
  else getitem data field_name = inr None.

(** A marshaller for which the field [age] does not serialise. *)
Definition age_errors : errdict := {[KStr "age" := EMsgs ["Not a valid integer."]]}.

Definition rejecting_marshaller : Marshaller :=
  mk_Marshaller
    (fun obj fields many ordered index_errors prefix e =>
       (inl (ValidationError age_errors ["age"] [fields !! "age"] (VDict ∅)),
        age_errors)).

Definition strict_schema : schema := instance (plain StrictSchema_k) default_args.

Definition only_an_age : pyval := VDict (<["age" := VInt 36]> ∅).

Definition passing (attr_name field_name : string) : validator :=
  mk_validator attr_name field_name false (fun _ => VPass).

(** [PersonSchema] with a [validates("age")] and a [validates("email")]
    method. *)
Definition AgeCheckedSchema : schema_class :=
  mk_schema_class PersonSchema_k (fun _ _ => [])
    [passing "check_age" "age"; passing "check_email" "email"]
    (fun _ => []) None default_handle_error default_on_bind_field.

Definition age_checked_schema : schema :=
  instance AgeCheckedSchema without_email.

(** [PersonSchema] with a [validates("email")] and a
    [validates("nickname")] method; there is no field [nickname]. *)
Definition NicknameCheckedSchema : schema_class :=
  mk_schema_class PersonSchema_k (fun _ _ => [])
    [passing "check_email" "email"; passing "check_nickname" "nickname"]
    (fun _ => []) None default_handle_error default_on_bind_field.

Definition nickname_checked_schema : schema :=
  instance NicknameCheckedSchema without_email.

Definition load_only_email : init_args :=
  mk_init_args None [] [] EmptyString false false None ["email"] []
    (PartialBool false).

(** ** Hook registration *)

(** The six tag names of [marshmallow.decorators]; a method is tagged with
    pairs [(tag_name, pass_many)]. *)
Inductive tag_name :=
  | Tag (t : tag)
  | VALIDATES
  | VALIDATES_SCHEMA.

#[global] Instance tag_name_eq_dec : EqDecision tag_name.
Proof. solve_decision. Defined.

Abbreviation processor_tag := (tag_name * bool)%type.

(** A class [__dict__] as [_resolve_processors] reads it: under each
    attribute name, the [__marshmallow_tags__] of the attribute, [None]
    when it has none. *)
Abbreviation tagged_dict := (gmap string (option (list processor_tag))).

(** Alphabetical order of attribute names. *)
Definition name_le (a b : string) : Prop := String.leb a b = true.

#[global] Instance name_le_dec a b : Decision (name_le a b).
Proof. unfold name_le. apply _. Defined.

(** [dir(self)]: the names bound in the class or one of its bases, in
    alphabetical order. *)
Definition dir (mro : list tagged_dict) : list string :=
  merge_sort name_le (elements (⋃ (dom <$> mro) : gset string)).

(** The object that [parent.__dict__[attr_name]] finds first along the
    MRO, as its tags. *)
Definition find_descriptor (mro : list tagged_dict) (attr_name : string)
  : option (option (list processor_tag)) :=
  head (omap (fun parent => parent !! attr_name) mro).

(** [self.__processors__[tag].append(attr_name)] on a
    [defaultdict(list)]. *)
Definition register (processors : processor_tag -> list string)
    (tg : processor_tag) (attr_name : string) : processor_tag -> list string :=
  fun tg' => if decide (tg' = tg) then processors tg' ++ [attr_name]
             else processors tg'.

(** [SchemaMeta._resolve_processors], from the [__dict__]s of the classes of
    [inspect.getmro(self)]. *)
Definition _resolve_processors (mro : list tagged_dict)
  : processor_tag -> list string :=
  foldl (fun processors attr_name =>
           match find_descriptor mro attr_name with
           | Some (Some processor_tags) =>
               foldl (fun processors tg => register processors tg attr_name)
                     processors processor_tags
           | _ => processors
           end)
        (fun _ => []) (dir mro).

(** The method found under [attr_name] carries the tag [tg]. *)
Definition is_tagged (mro : list tagged_dict) (tg : processor_tag)
    (attr_name : string) : Prop :=
  exists processor_tags,
    find_descriptor mro attr_name = Some (Some processor_tags)
    /\ tg ∈ processor_tags.

#[global] Instance is_tagged_dec mro tg attr_name :
  Decision (is_tagged mro tg attr_name).
Proof.
  unfold is_tagged.
  destruct (find_descriptor mro attr_name) as [[tags|]|].
  - destruct (decide (tg ∈ tags)) as [Hin|Hnot].
    + left. by exists tags.
    + right. intros (tags' & [= <-] & Hin). done.
  - right. by intros (tags' & [=] & _).
  - right. by intros (tags' & [=] & _).
Defined.

(** A base class with a [pre_load] hook [clean] and a [post_dump] hook
    [wrap], and a subclass that redefines [clean] without the decorator. *)
Definition HookedBase_dict : tagged_dict :=
  <["clean" := Some [(Tag PRE_LOAD, false)]]>
    (<["wrap" := Some [(Tag POST_DUMP, true)]]> (<["Meta" := None]> ∅)).

Definition PlainChild_dict : tagged_dict := <["clean" := None]> ∅.

(** * Properties *)

(** ** The example classes and instances exist *)

Lemma Schema_is_built :
  SchemaMeta_new "Schema" [BaseSchema_k] (BaseSchema_k :: k_mro BaseSchema_k) ∅
  = inr Schema_k.
Proof. vm_compute. reflexivity. Qed.

Lemma example_classes_are_built :
  subclass "PersonSchema" Schema_k PersonSchema_attrs = inr PersonSchema_k
  /\ subclass "EmployeeSchema" PersonSchema_k EmployeeSchema_attrs
     = inr EmployeeSchema_k
  /\ subclass "StrictSchema" Schema_k StrictSchema_attrs = inr StrictSchema_k
  /\ subclass "ImplicitSchema" Schema_k ImplicitSchema_attrs
     = inr ImplicitSchema_k.
Proof. repeat split; vm_compute; reflexivity. Qed.

Lemma example_instances_are_built :
  BaseSchema_init (plain PersonSchema_k) default_args = inr person_schema
  /\ BaseSchema_init (plain PersonSchema_k) only_name = inr person_only_name
  /\ BaseSchema_init (plain ImplicitSchema_k) default_args = inr implicit_schema
  /\ BaseSchema_init EnvelopeSchema default_args = inr envelope_schema
  /\ BaseSchema_init CheckedSchema default_args = inr checked_schema
  /\ BaseSchema_init TwiceCheckedSchema default_args
     = inr twice_checked_schema
  /\ BaseSchema_init RaisingSchema default_args = inr raising_schema
  /\ BaseSchema_init ForgivingSchema default_args = inr forgiving_schema.
Proof. repeat split; vm_compute; reflexivity. Qed.

(** ** Dictionaries built from pairs *)

Lemma foldl_insert_union {V} (l : list (string * V)) (m : gmap string V) :
  foldl (fun d kv => <[kv.1 := kv.2]> d) m l = dict_of_pairs l ∪ m.
Proof.
  unfold dict_of_pairs. revert m.
  induction l as [|[k v] l IH]; intros m; simpl.
  - by rewrite (left_id_L ∅ (∪)).
  - rewrite IH, (IH (<[k:=v]> ∅)).
    rewrite <- (assoc_L (∪)). f_equal.
    rewrite insert_empty. apply insert_union_singleton_l.
Qed.

Lemma dict_of_pairs_app {V} (l1 l2 : list (string * V)) :
  dict_of_pairs (l1 ++ l2) = dict_of_pairs l2 ∪ dict_of_pairs l1.
Proof.
  unfold dict_of_pairs at 1. rewrite foldl_app.
  apply foldl_insert_union.
Qed.

Lemma dict_of_pairs_cons {V} k (v : V) l :
  dict_of_pairs ((k, v) :: l) = dict_of_pairs l ∪ {[k := v]}.
Proof.
  change ((k, v) :: l) with ([(k, v)] ++ l). rewrite dict_of_pairs_app.
  by f_equal.
Qed.

Lemma dict_of_pairs_NoDup {V} (l : list (string * V)) :
  NoDup l.*1 -> dict_of_pairs l = list_to_map l.
Proof.
  induction l as [|[k v] l IH]; intros Hnd.
  - done.
  - apply NoDup_cons in Hnd as [Hk Hnd].
    rewrite dict_of_pairs_cons, IH by done. simpl.
    symmetry. apply insert_union_singleton_r.
    by apply not_elem_of_list_to_map_1.
Qed.

Lemma dict_of_pairs_to_list {V} (m : gmap string V) :
  dict_of_pairs (map_to_list m) = m.
Proof.
  rewrite dict_of_pairs_NoDup by apply NoDup_fst_map_to_list.
  apply list_to_map_to_list.
Qed.

(** ** Fields of a class body *)

Lemma NoDup_fst_omap_field_pair (l : list (string * attr)) :
  NoDup l.*1 -> NoDup (omap field_pair l).*1.
Proof.
  induction l as [|[k a] l IH]; simpl; intros Hnd.
  - constructor.
  - apply NoDup_cons in Hnd as [Hk Hnd].
    unfold field_pair at 1. simpl. destruct (is_field a) as [f|]; simpl; [|by auto].
    apply NoDup_cons. split; [|by auto].
    intros Hin. apply Hk.
    apply list_elem_of_fmap in Hin as [[k' f'] [-> Hin]].
    apply list_elem_of_omap in Hin as [[k'' a''] [Hin Heq]].
    unfold field_pair in Heq. simpl in Heq.
    destruct (is_field a''); simplify_eq/=.
    apply list_elem_of_fmap. by exists (k', a'').
Qed.

Lemma get_fields_dict attrs ordered :
  dict_of_pairs (_get_fields attrs ordered) = omap is_field attrs.
Proof.
  assert (Hnd : NoDup (omap field_pair (map_to_list attrs)).*1)
    by apply NoDup_fst_omap_field_pair, NoDup_fst_map_to_list.
  assert (Hun : dict_of_pairs (omap field_pair (map_to_list attrs))
                = omap is_field attrs).
  { rewrite dict_of_pairs_NoDup by done.
    apply map_eq. intros i. apply option_eq. intros f.
    rewrite <- elem_of_list_to_map by done.
    rewrite list_elem_of_omap, lookup_omap_Some. split.
    - intros [[k a] [Hin Heq]]. unfold field_pair in Heq. simpl in Heq.
      destruct (is_field a) eqn:Hf; simplify_eq/=.
      exists a. split; [done|]. by apply elem_of_map_to_list.
    - intros [a [Hf Hl]]. exists (i, a). split.
      + by apply elem_of_map_to_list.
      + unfold field_pair. simpl. by rewrite Hf. }
  unfold _get_fields. destruct ordered; [|done].
  rewrite <- Hun.
  rewrite !dict_of_pairs_NoDup; [|done|].
  - apply list_to_map_proper.
    + by rewrite merge_sort_Permutation.
    + apply merge_sort_Permutation.
  - by rewrite merge_sort_Permutation.
Qed.

Lemma omap_is_field_fmap (d : gmap string field) :
  omap is_field (AField <$> d) = d.
Proof.
  apply map_eq. intros i. rewrite lookup_omap, lookup_fmap.
  by destruct (d !! i).
Qed.

Lemma get_fields_by_mro_cons base mro_tail ordered :
  _get_fields_by_mro (base :: mro_tail) ordered
  = _get_fields_by_mro mro_tail ordered
      ++ _get_fields (getattr_declared_fields base) ordered.
Proof.
  unfold _get_fields_by_mro.
  rewrite reverse_cons, fmap_app, concat_app. simpl. by rewrite app_nil_r.
Qed.

Lemma getattr_declared_fields_own k d :
  k_declared_fields k = Some d -> getattr_declared_fields k = AField <$> d.
Proof. intros H. unfold getattr_declared_fields. simpl. by rewrite H. Qed.

Lemma SchemaMeta_new_inr name bases mro_tail attrs k :
  SchemaMeta_new name bases mro_tail attrs = inr k ->
  exists meta opts,
    class_getattr (pop_fields attrs) mro_tail "Meta" = Some meta
    /\ SchemaOpts_init (meta_of (Some meta)) = inr opts
    /\ k = Klass name (pop_fields attrs)
             (Some (get_declared_fields
                      (_get_fields attrs (resolve_ordered bases attrs)
                         ++ opts_include opts)
                      (_get_fields_by_mro mro_tail false)))
             (Some opts) mro_tail.
Proof.
  unfold SchemaMeta_new.
  destruct (class_getattr _ _ _) as [meta|]; [|done].
  destruct (SchemaOpts_init _) as [e|opts] eqn:Hopts; [done|].
  intros [= <-]. by exists meta, opts.
Qed.

Lemma get_declared_fields_union attrs ordered opts inherited_fields :
  get_declared_fields (_get_fields attrs ordered ++ opts_include opts)
    inherited_fields
  = own_fields attrs opts ∪ dict_of_pairs inherited_fields.
Proof.
  unfold get_declared_fields, own_fields.
  by rewrite !dict_of_pairs_app, get_fields_dict.
Qed.


Lemma inherited_step k d base :
  k_declared_fields k = Some d -> k_mro k = base :: k_mro base ->
  inherited k = d ∪ inherited base.
Proof.
  intros Hd Hmro. unfold inherited.
  rewrite get_fields_by_mro_cons, dict_of_pairs_app, Hmro.
  by rewrite (getattr_declared_fields_own k d), get_fields_dict,
    omap_is_field_fmap.
Qed.

Lemma subclass_declared name base attrs k :
  SchemaMeta_new name [base] (base :: k_mro base) attrs = inr k ->
  exists opts,
    k_opts k = Some opts
    /\ k_mro k = base :: k_mro base
    /\ k_declared_fields k
       = Some (get_declared_fields
                 (_get_fields attrs (resolve_ordered [base] attrs)
                    ++ opts_include opts)
                 (_get_fields_by_mro (base :: k_mro base) false))
    /\ k_declared_fields k = Some (own_fields attrs opts ∪ inherited base).
Proof.
  intros Hnew.
  apply SchemaMeta_new_inr in Hnew as (meta & opts & _ & _ & ->).
  exists opts. cbn [k_opts k_mro k_declared_fields].
  by rewrite get_declared_fields_union.
Qed.

Lemma schema_klass_declared k :
  schema_klass k -> k_declared_fields k = Some (inherited k).
Proof.
  induction 1 as [|name base attrs k Hbase IH Hnew].
  - vm_compute. reflexivity.
  - apply subclass_declared in Hnew as (opts & _ & Hmro & _ & Hd).
    rewrite Hd. f_equal.
    rewrite (inherited_step k _ base Hd Hmro).
    by rewrite <- (assoc_L (∪)), (idemp_L (∪)).
Qed.




(** C5. A class definition whose [Meta] gives non-empty values to both
    [fields] and [additional] does not produce a class: [SchemaMeta.__new__]
    ends in the [ValueError] of [SchemaOpts.__init__], whatever the fields,
    bases and other options are; with two lists or tuples the message is the
    one about the two options.  No class object exists afterwards, hence no
    instance to dump or load with. *)
Theorem fields_and_additional_are_exclusive
    name bases mro_tail attrs meta fields additional :
  class_getattr (pop_fields attrs) mro_tail "Meta" = Some (AMeta meta) ->
  meta_fields meta = Some fields ->
  meta_additional meta = Some additional ->
  opt_truthy fields = true ->
  opt_truthy additional = true ->
  exists msg,
    SchemaOpts_init meta = inl (ValueError msg)
    /\ SchemaMeta_new name bases mro_tail attrs = inl (ValueError msg)
    /\ (is_list_or_tuple fields = true ->
        is_list_or_tuple additional = true ->
        msg = Msg "Cannot set both `fields` and `additional` options for the same Schema.").
Proof.
  intros Hmeta Hf Ha Tf Ta.
  assert (Hopts : exists msg,
             SchemaOpts_init meta = inl (ValueError msg)
             /\ (is_list_or_tuple fields = true ->
                 is_list_or_tuple additional = true ->
                 msg = Msg "Cannot set both `fields` and `additional` options for the same Schema.")).
  { unfold SchemaOpts_init. rewrite Hf, Ha. simpl.
    destruct (is_list_or_tuple fields); simpl; [|by eexists].
    destruct (is_list_or_tuple additional); simpl; [|by eexists].
    rewrite Tf, Ta. simpl. by eexists. }
  destruct Hopts as (msg & Hinit & Hmsg). exists msg.
  split; [done|]. split; [|done].
  unfold SchemaMeta_new. rewrite Hmeta. cbn [meta_of]. by rewrite Hinit.
Qed.

Lemma ConflictSchema_is_rejected :
  exists msg,
    SchemaOpts_init conflicting_Meta = inl (ValueError msg)
    /\ subclass "ConflictSchema" Schema_k ConflictSchema_attrs
       = inl (ValueError msg)
    /\ (is_list_or_tuple (OTuple ["name"]) = true ->
        is_list_or_tuple (OTuple ["email"]) = true ->
        msg = Msg "Cannot set both `fields` and `additional` options for the same Schema.").
Proof.
  apply (fields_and_additional_are_exclusive "ConflictSchema" [Schema_k]
           (Schema_k :: k_mro Schema_k) ConflictSchema_attrs conflicting_Meta
           (OTuple ["name"]) (OTuple ["email"])).
  - vm_compute. reflexivity.
  - reflexivity.
  - reflexivity.
  - reflexivity.
  - reflexivity.
Defined.


Lemma update_fields_strict {CA : ClassAttributes} self obj many self' :
  _update_fields self obj many = inr self' ->
  self_strict self' = self_strict self /\ opts self' = opts self.
Proof.
  unfold _update_fields.
  destruct (__filter_fields _ _ _ _) as [e|ret]; [done|].
  destruct (__set_field_attrs _ _) as [e|ret']; [done|].
  by intros [= <-].
Qed.

(** C9. An instance is strict when the constructor is given [strict=True]
    or the class sets [strict = True] in its [Meta]: [strict=False] does
    not switch off the strictness of the class. *)
Theorem strict_is_argument_or_class_option {CA : ClassAttributes}
    c a self class_opts :
  k_opts (cls c) = Some class_opts ->
  BaseSchema_init c a = inr self ->
  self_strict self = arg_strict a || opts_strict class_opts
  /\ (opts_strict class_opts = true -> self_strict self = true).
Proof.
  intros Hopts Hinit. unfold BaseSchema_init in Hinit.
  rewrite Hopts in Hinit.
  destruct (k_declared_fields (cls c)) as [d|]; [|done].
  apply update_fields_strict in Hinit as [Hstrict _]. simpl in Hstrict.
  split; [done|]. intros Hc. rewrite Hstrict, Hc. apply orb_true_r.
Qed.

Lemma StrictSchema_stays_strict :
  self_strict (instance (plain StrictSchema_k) default_args)
  = arg_strict default_args
    || opts_strict (default default_opts (k_opts StrictSchema_k))
  /\ (opts_strict (default default_opts (k_opts StrictSchema_k)) = true ->
      self_strict (instance (plain StrictSchema_k) default_args) = true).
Proof.
  apply (strict_is_argument_or_class_option (plain StrictSchema_k)
           default_args).
  - vm_compute. reflexivity.
  - vm_compute. reflexivity.
Defined.

(** ** Field resolution *)

Lemma filter_loop_spec {CA : ClassAttributes} self rep keys acc :
  match filter_loop self rep keys acc with
  | inr ret =>
      (forall k, k ∈ keys ->
         exists f, resolve_field self rep k = inr f /\ ret !! k = Some f)
      /\ (forall k, k ∉ keys -> ret !! k = acc !! k)
  | inl e => exists k, k ∈ keys /\ resolve_field self rep k = inl e
  end.
Proof.
  revert acc. induction keys as [|key keys IH]; intros acc; simpl.
  - split; [|done]. intros k Hk. by apply elem_of_nil in Hk.
  - destruct (resolve_field self rep key) as [e|f] eqn:Hres.
    + exists key. split; [left|done].
    + specialize (IH (<[key:=f]> acc)).
      destruct (filter_loop self rep keys (<[key:=f]> acc)) as [e|ret].
      * destruct IH as (k & Hk & Hr). exists k. split; [by right|done].
      * destruct IH as [Hin Hout]. split.
        -- intros k Hk. destruct (decide (k ∈ keys)) as [Hk'|Hk']; [by auto|].
           apply elem_of_cons in Hk as [->|Hk]; [|done].
           exists f. split; [done|]. rewrite Hout by done.
           apply lookup_insert_eq.
        -- intros k Hk. apply not_elem_of_cons in Hk as [Hne Hk].
           rewrite Hout by done. by apply lookup_insert_ne.
Qed.

(** What [__filter_fields] does.  Let [rep] be what the inference looks at:
    the first item of [obj] when [many] is set and [obj] is truthy, [obj]
    itself otherwise.  Then every name of the field set gets its declared
    field if it has one; otherwise, when [rep] is truthy, the field class
    that [TYPE_MAPPING] gives for the type of [rep]'s key (for a mapping)
    or attribute, [fields.Field] when the type is not in the table; and
    when [rep] is falsy a plain [fields.Field], without any lookup.  The
    call fails exactly when some undeclared name is missing from a truthy
    [rep], with a [KeyError] or [AttributeError] that names it. *)
Lemma filter_fields_outcome {CA : ClassAttributes} self names obj many rep :
  representative obj many = inr (Some rep) ->
  match __filter_fields self names obj many with
  | inr ret =>
      dom ret = names
      /\ forall key, key ∈ names ->
           match declared_fields self !! key with
           | Some f => ret !! key = Some f
           | None =>
               if truthy rep then
                 exists t,
                   attribute_type rep key = inr t
                   /\ ret !! key
                      = Some (new_field (default fields.Field (TYPE_MAPPING t)))
               else ret !! key = Some (new_field fields.Field)
           end
  | inl e =>
      exists key,
        key ∈ names /\ declared_fields self !! key = None
        /\ truthy rep = true /\ attribute_type rep key = inl e
        /\ (e = KeyError (NotAValidField key rep)
            \/ e = AttributeError (NotAValidField key rep))
  end.
Proof.
  intros Hrep.
  assert (Hloop : __filter_fields self names obj many
                  = filter_loop self rep (elements names) ∅).
  { unfold __filter_fields, representative in *.
    destruct (truthy obj && many).
    - by rewrite Hrep.
    - by injection Hrep as ->. }
  rewrite Hloop.
  pose proof (filter_loop_spec self rep (elements names) ∅) as Hspec.
  destruct (filter_loop self rep (elements names) ∅) as [e|ret].
  - destruct Hspec as (key & Hkey & Hres). exists key.
    apply elem_of_elements in Hkey. unfold resolve_field in Hres.
    destruct (declared_fields self !! key); [done|].
    destruct (truthy rep); [|done].
    destruct (attribute_type rep key) as [e'|t] eqn:Hty; [|done].
    injection Hres as ->. repeat split; try done.
    unfold attribute_type in Hty.
    destruct rep;
      try (destruct (getattr_type _ key); [done|]; injection Hty as <-;
           by right).
    destruct (entries !! key); [done|]. injection Hty as <-. by left.
  - destruct Hspec as [Hin Hout]. split.
    + apply set_eq. intros k. rewrite elem_of_dom. split.
      * intros [f Hf]. destruct (decide (k ∈ names)) as [|Hk]; [done|].
        rewrite Hout in Hf; [by rewrite lookup_empty in Hf|].
        by rewrite elem_of_elements.
      * intros Hk. apply elem_of_elements in Hk.
        destruct (Hin k Hk) as (f & _ & Hf). by exists f.
    + intros key Hkey. apply elem_of_elements in Hkey.
      destruct (Hin key Hkey) as (f & Hres & Hf).
      unfold resolve_field in Hres.
      destruct (declared_fields self !! key); [by simplify_eq|].
      destruct (truthy rep).
      * destruct (attribute_type rep key) as [e'|t]; [done|].
        exists t. by simplify_eq.
      * by simplify_eq.
Qed.

(** C8.  An object that is there but falsy is treated as if there were no
    object.  The schema [ImplicitSchema] has [fields = ("name",)] and
    declares no field.  For the non-empty mapping [{"age": 36}], which has
    no key [name], the resolution raises the [KeyError] that names the
    field, as the claim says; for the empty mapping, which has no key
    [name] either, the test [if obj:] sends the code to the branch that its
    comment reserves for [None]: no lookup is made, no error is raised, and
    [name] is bound to a plain [fields.Field]. *)
Lemma empty_mapping_raises_no_lookup_error :
  VDict ∅ <> VNone
  /\ field_names implicit_schema = {["name"]}
  /\ declared_fields implicit_schema !! "name" = None
  /\ attribute_type only_an_age "name"
     = inl (KeyError (NotAValidField "name" only_an_age))
  /\ __filter_fields implicit_schema (field_names implicit_schema) only_an_age
       false
     = inl (KeyError (NotAValidField "name" only_an_age))
  /\ attribute_type (VDict ∅) "name"
     = inl (KeyError (NotAValidField "name" (VDict ∅)))
  /\ __filter_fields implicit_schema (field_names implicit_schema) (VDict ∅)
       false
     = inr {["name" := new_field fields.Field]}.
Proof.
  split; [done|]. repeat split; vm_compute; reflexivity.
Qed.

(** C10, as the code has it.  With [many] set, an [obj] whose first item
    cannot be taken ([IndexError] from [obj[0]], [StopIteration] from
    [next(iter(obj))]) resolves to the whole of [declared_fields], with no
    filtering, when [obj] is truthy; when it is falsy, as an empty list,
    tuple or set is, the names are filtered as in every other case. *)
Theorem no_first_item_gives_declared_fields_when_truthy
    {CA : ClassAttributes} self names obj :
  first_item obj = inr None ->
  __filter_fields self names obj true
  = if truthy obj then inr (declared_fields self)
    else filter_loop self obj (elements names) ∅.
Proof.
  intros Hfirst. unfold __filter_fields.
  destruct (truthy obj); simpl; [by rewrite Hfirst|done].
Qed.

Lemma empty_cursor_gives_declared_fields :
  __filter_fields person_only_name (field_names person_only_name) (VCursor [])
    true
  = if truthy (VCursor []) then inr (declared_fields person_only_name)
    else filter_loop person_only_name (VCursor [])
           (elements (field_names person_only_name)) ∅.
Proof.
  apply (no_first_item_gives_declared_fields_when_truthy person_only_name
           (field_names person_only_name) (VCursor [])).
  reflexivity.
Defined.

(** C10 fails on the empty list: it has no first item, but the resolved
    fields are those of [only], not the three declared ones. *)
Lemma empty_list_is_still_filtered :
  first_item (VList []) = inr None
  /\ dom (declared_fields person_only_name) = {["name"; "age"; "email"]}
  /\ (exists ret,
        __filter_fields person_only_name (field_names person_only_name)
          (VList []) true = inr ret
        /\ dom ret = {["name"]})
  /\ __filter_fields person_only_name (field_names person_only_name)
       (VList []) true
     <> inr (declared_fields person_only_name).
Proof.
  split; [reflexivity|]. split; [vm_compute; reflexivity|]. split.
  - eexists. split; vm_compute; reflexivity.
  - intros H.
    apply (f_equal (fun r => match r with
                             | inr m => m !! "age"
                             | inl _ => None
                             end)) in H.
    vm_compute in H. discriminate H.
Qed.

(** ** What the pipelines append to the trace *)

Lemma emits_weaken {A} (m : M A) (φ ψ : event -> Prop) :
  (forall ev, φ ev -> ψ ev) -> emits m φ -> emits m ψ.
Proof.
  intros Himp Hm s. destruct (Hm s) as (t & Ht & Hall).
  exists t. split; [done|]. eapply Forall_impl; eauto.
Qed.

Lemma emits_silent {A} (m : M A) φ :
  (forall s, trace (m s).2 = trace s) -> emits m φ.
Proof. intros H s. exists []. by rewrite H, app_nil_r. Qed.

Lemma emits_ret {A} (a : A) φ : emits (ret a) φ.
Proof. by apply emits_silent. Qed.

Lemma emits_raise {A} e φ : emits (raise (A := A) e) φ.
Proof. by apply emits_silent. Qed.

Lemma emits_lift {A} (r : exn + A) φ : emits (lift r) φ.
Proof. by apply emits_silent. Qed.

Lemma emits_lift_u {A} (f : ustate -> (exn + A) * ustate) φ :
  emits (lift_u f) φ.
Proof.
  apply emits_silent. intros s. unfold lift_u.
  by destruct (f (unmarshal_st s)).
Qed.

Lemma emits_lift_m {A} (f : errdict -> (exn + A) * errdict) φ :
  emits (lift_m f) φ.
Proof.
  apply emits_silent. intros s. unfold lift_m.
  by destruct (f (marshal_errors s)).
Qed.

Lemma emits_log ev (φ : event -> Prop) : φ ev -> emits (log ev) φ.
Proof. intros H s. exists [ev]. split; [done|]. by constructor. Qed.

Lemma emits_bind {A B} (m : M A) (k : A -> M B) φ :
  emits m φ -> (forall a, emits (k a) φ) -> emits (bind m k) φ.
Proof.
  intros Hm Hk s. unfold bind.
  destruct (Hm s) as (t1 & Ht1 & H1).
  destruct (m s) as [[e|a] s'] eqn:Hms; simpl in *.
  - by exists t1.
  - destruct (Hk a s') as (t2 & Ht2 & H2).
    exists (t1 ++ t2). split.
    + by rewrite Ht2, Ht1, (assoc_L (++)).
    + by apply Forall_app.
Qed.

Lemma emits_try_except {A} (body : M A) handler φ :
  emits body φ ->
  (forall m fn fs d, emits (handler m fn fs d) φ) ->
  emits (try_except body handler) φ.
Proof.
  intros Hb Hh s. unfold try_except.
  destruct (Hb s) as (t1 & Ht1 & H1).
  destruct (body s) as [[e|a] s'] eqn:Hbs; simpl in *; [|by exists t1].
  destruct e as [| | | |m fn fs d|]; try by exists t1.
  destruct (Hh m fn fs d s') as (t2 & Ht2 & H2).
  exists (t1 ++ t2). split.
  - by rewrite Ht2, Ht1, (assoc_L (++)).
  - by apply Forall_app.
Qed.

Lemma emits_mapM {A B} (f : A -> M B) l φ :
  (forall x, emits (f x) φ) -> emits (map_M f l) φ.
Proof.
  intros Hf. induction l as [|x l IH]; simpl.
  - apply emits_ret.
  - apply emits_bind; [done|]. intros y.
    apply emits_bind; [done|]. intros ys. apply emits_ret.
Qed.

Lemma emits_foldM {A B} (f : B -> A -> M B) l b φ :
  (forall b x, emits (f b x) φ) -> emits (fold_M f l b) φ.
Proof.
  intros Hf. revert b. induction l as [|x l IH]; intros b; simpl.
  - apply emits_ret.
  - apply emits_bind; [done|]. intros b'. apply IH.
Qed.

Lemma emits_then_l {A} (m : M A) φ1 φ2 : emits m φ1 -> emits_then m φ1 φ2.
Proof.
  intros Hm s. destruct (Hm s) as (t & Ht & Hall).
  exists t, []. by rewrite app_nil_r.
Qed.

Lemma emits_then_bind_l {A B} (m : M A) (k : A -> M B) φ1 φ2 :
  emits m φ1 -> (forall a, emits_then (k a) φ1 φ2) ->
  emits_then (bind m k) φ1 φ2.
Proof.
  intros Hm Hk s. unfold bind.
  destruct (Hm s) as (t1 & Ht1 & H1).
  destruct (m s) as [[e|a] s'] eqn:Hms; simpl in *.
  - exists t1, []. by rewrite app_nil_r.
  - destruct (Hk a s') as (t2 & t3 & Ht2 & H2 & H3).
    exists (t1 ++ t2), t3. split; [|split].
    + by rewrite Ht2, Ht1, !(assoc_L (++)).
    + by apply Forall_app.
    + done.
Qed.

Lemma emits_then_bind_r {A B} (m : M A) (k : A -> M B) φ1 φ2 :
  emits_then m φ1 φ2 -> (forall a, emits (k a) φ2) ->
  emits_then (bind m k) φ1 φ2.
Proof.
  intros Hm Hk s. unfold bind.
  destruct (Hm s) as (t1 & t2 & Ht1 & H1 & H2).
  destruct (m s) as [[e|a] s'] eqn:Hms; simpl in *.
  - by exists t1, t2.
  - destruct (Hk a s') as (t3 & Ht3 & H3).
    exists t1, (t2 ++ t3). split; [|split].
    + by rewrite Ht3, Ht1, !(assoc_L (++)).
    + done.
    + by apply Forall_app.
Qed.

Lemma emits_then_all_before {A} (m : M A) (P Q : event -> Prop) s :
  emits_then m (fun ev => ~ Q ev) (fun ev => ~ P ev) ->
  exists t, trace (m s).2 = trace s ++ t /\ all_before P Q t.
Proof.
  intros Hm. destruct (Hm s) as (t1 & t2 & Ht & H1 & H2).
  exists (t1 ++ t2). split; [done|].
  intros i j e1 e2 Hi Hj HP HQ.
  rewrite Forall_lookup in H1. rewrite Forall_lookup in H2.
  apply lookup_app_Some in Hi as [Hi|[Hlen Hi]].
  - apply lookup_lt_Some in Hi as Hlt.
    apply lookup_app_Some in Hj as [Hj|[Hlen Hj]]; [|lia].
    by destruct (H1 _ _ Hj).
  - by destruct (H2 _ _ Hi).
Qed.

Section trace_of_pipelines.

Context {CA : ClassAttributes}.
Variable U : Unmarshaller.
Variable Ma : Marshaller.

Lemma emits_call_processor t pass_many p args (φ : event -> Prop) :
  φ (EvProcessor t pass_many (p_name p) args) ->
  emits (call_processor t pass_many p args) φ.
Proof.
  intros H. apply emits_bind; [by apply emits_log|].
  intros _. apply emits_lift.
Qed.

Lemma emits_invoke_processors self t pass_many data many original
    (φ : event -> Prop) :
  (forall n args, φ (EvProcessor t pass_many n args)) ->
  emits (_invoke_processors self t pass_many data many original) φ.
Proof.
  intros H. apply emits_foldM. intros b p. unfold invoke_processor.
  destruct pass_many; [|destruct many].
  - apply emits_bind; [by apply emits_call_processor|].
    intros r. apply emits_ret.
  - apply emits_bind; [apply emits_lift|]. intros items.
    apply emits_bind; [|intros rs; apply emits_ret].
    apply emits_mapM. intros item.
    apply emits_bind; [by apply emits_call_processor|].
    intros r. apply emits_ret.
  - apply emits_bind; [by apply emits_call_processor|].
    intros r. apply emits_ret.
Qed.

Lemma emits_invoke_dump_processors self t data many original
    (φ : event -> Prop) :
  (forall pass_many n args, φ (EvProcessor t pass_many n args)) ->
  emits (_invoke_dump_processors self t data many original) φ.
Proof.
  intros H. unfold _invoke_dump_processors.
  apply emits_bind; [by apply emits_invoke_processors|]. intros d1.
  apply emits_bind; [by apply emits_invoke_processors|]. intros d2.
  apply emits_ret.
Qed.

Lemma emits_invoke_load_processors self t data many original
    (φ : event -> Prop) :
  (forall pass_many n args, φ (EvProcessor t pass_many n args)) ->
  emits (_invoke_load_processors self t data many original) φ.
Proof.
  intros H. unfold _invoke_load_processors.
  apply emits_bind; [by apply emits_invoke_processors|]. intros d1.
  apply emits_bind; [by apply emits_invoke_processors|]. intros d2.
  apply emits_ret.
Qed.

Lemma emits_run_handler ev outcome write (φ : event -> Prop) :
  φ ev -> (forall d, emits (write d) φ) ->
  emits (run_handler ev outcome write) φ.
Proof.
  intros H Hw. apply emits_bind; [by apply emits_log|]. intros _.
  apply emits_bind; [done|]. intros _.
  destruct outcome.1; [apply emits_raise|apply emits_ret].
Qed.

Lemma emits_set_errors d φ : emits (set_errors d) φ.
Proof. by apply emits_silent. Qed.

Lemma emits_set_marshal_errors d φ : emits (set_marshal_errors d) φ.
Proof. by apply emits_silent. Qed.

(** The end of [dump]: the errors it returns. *)
Lemma emits_dump_errors {A} (failed : bool) (k : errdict -> A) φ :
  emits (do errors <- (if failed then get_marshal_errors else ret ∅);
         ret (k errors)) φ.
Proof.
  apply emits_bind; [|intros; apply emits_ret].
  destruct failed; by apply emits_silent.
Qed.

Lemma emits_postprocess self data many obj (φ : event -> Prop) :
  (forall errs, φ (EvHandleError (inr errs) obj)) ->
  emits (_postprocess self data many obj) φ.
Proof.
  intros H. unfold _postprocess. apply emits_bind.
  - destruct (self_extra self) as [extra|]; [|apply emits_ret].
    case_bool_decide; [|apply emits_ret].
    destruct many; [|apply emits_lift].
    apply emits_bind; [apply emits_lift|]. intros items.
    apply emits_bind; [|intros; apply emits_ret].
    apply emits_mapM. intros each. apply emits_lift.
  - intros d. apply emits_bind; [by apply emits_silent|]. intros errs.
    apply emits_bind; [|intros; apply emits_ret].
    case_bool_decide; [|apply emits_ret].
    apply emits_run_handler; [done|]. intros. apply emits_set_marshal_errors.
Qed.

Lemma not_hook_other_mode t pass_many n args :
  ~ is_hook t (negb pass_many) (EvProcessor t pass_many n args).
Proof. simpl. intros [_ H]. by destruct pass_many. Qed.

(** C2, as the code has it.  In every call of [dump], the per-item
    [post_dump] hooks are all called before any batch ([pass_many])
    [post_dump] hook: [_invoke_dump_processors] runs the [pass_many=False]
    group first, for [pre_dump] and [post_dump] alike. *)
Theorem post_dump_item_hooks_precede_batch_hooks
    self obj many update_fields s :
  exists t,
    trace (dump Ma self obj many update_fields s).2 = trace s ++ t
    /\ all_before (is_hook POST_DUMP false) (is_hook POST_DUMP true) t.
Proof.
  apply emits_then_all_before. unfold dump.
  assert (Hpre : forall pass_many n args,
            ~ is_hook POST_DUMP true (EvProcessor PRE_DUMP pass_many n args))
    by (simpl; intros ??? [? _]; done).
  apply emits_then_bind_l; [by apply emits_invoke_dump_processors|].
  intros processed_obj.
  apply emits_then_bind_l.
  { destruct update_fields; [apply emits_lift|apply emits_ret]. }
  intros self'.
  apply emits_then_bind_l.
  { apply emits_try_except.
    - apply emits_bind; [apply emits_lift_m|]. intros; apply emits_ret.
    - intros.
      destruct (self_strict self'); [apply emits_raise|apply emits_ret]. }
  intros [preresult failed].
  apply emits_then_bind_l.
  { apply emits_postprocess. intros ? []. }
  intros result.
  apply emits_then_bind_r;
    [|intros result'; apply (emits_dump_errors failed (fun errors => (self', (result', errors))))].
  unfold _invoke_dump_processors.
  apply emits_then_bind_l.
  { apply emits_invoke_processors. intros n args.
    apply (not_hook_other_mode POST_DUMP false). }
  intros d1. apply emits_then_bind_r; [|intros; apply emits_ret].
  intros s0.
  destruct (emits_invoke_processors self' POST_DUMP true d1
              (default (self_many self) many)
              match obj with VGenerator l => VList l | _ => obj end
              (fun ev => ~ is_hook POST_DUMP false ev)) with s0
    as (t & Ht & Hall).
  { intros n args. apply (not_hook_other_mode POST_DUMP true). }
  exists [], t. by repeat split.
Qed.

End trace_of_pipelines.

(** C2 fails on a schema with one hook of each kind: the per-item hook
    [strip_item] is called first, the batch hook [add_envelope] after
    it. *)
Lemma envelope_is_added_after_the_item_hook :
  hook_calls
    (trace (dump spec_marshaller envelope_schema a_person
              None true initial_state).2)
  = [(POST_DUMP, false, "strip_item"); (POST_DUMP, true, "add_envelope")]
  /\ ~ all_before (is_hook POST_DUMP true) (is_hook POST_DUMP false)
        (trace (dump spec_marshaller envelope_schema
                  a_person None true initial_state).2).
Proof.
  split; [vm_compute; reflexivity|].
  intros H.
  assert (Hlt : 1 < 0); [|lia].
  eapply (H 1 0).
  - vm_compute. reflexivity.
  - vm_compute. reflexivity.
  - simpl. done.
  - simpl. done.
Qed.

(** ** The unmarshaller of the specification under [partial] *)

Lemma deserialize_item_all_partial fields partial index item errs :
  (forall field_name, partial_for partial field_name = true) ->
  (deserialize_item fields partial index item errs).2 = errs.
Proof.
  intros Hp. unfold deserialize_item.
  apply (map_fold_weak_ind (fun r _ => r.2 = errs)); [done|].
  intros field_name f m [out [e failed]] _ Hr. simpl in Hr. subst errs.
  destruct (dump_only f); [done|].
  destruct (_ !! field_name); [done|].
  by rewrite Hp.
Qed.

Lemma spec_unmarshal_all_partial data fields partial ordered index_errors u :
  (forall field_name, partial_for partial field_name = true) ->
  exists out,
    spec_unmarshal data fields false partial ordered index_errors u
    = (inr (VDict out), mk_ustate ∅ [] []).
Proof.
  intros Hp. unfold spec_unmarshal.
  pose proof (deserialize_item_all_partial fields partial None data (∅, []) Hp)
    as Hd.
  destruct (deserialize_item fields partial None data (∅, []))
    as [out [e failed]].
  simpl in Hd. injection Hd as -> ->. by exists out.
Qed.

(** ** What the hooks leave alone *)

Lemma keeps_ret {A} (a : A) : keeps_unmarshaller (ret a).
Proof. done. Qed.

Lemma keeps_lift {A} (r : exn + A) : keeps_unmarshaller (lift r).
Proof. done. Qed.

Lemma keeps_log ev : keeps_unmarshaller (log ev).
Proof. done. Qed.

Lemma keeps_bind {A B} (m : M A) (k : A -> M B) :
  keeps_unmarshaller m -> (forall a, keeps_unmarshaller (k a)) ->
  keeps_unmarshaller (bind m k).
Proof.
  intros Hm Hk s. unfold bind. specialize (Hm s).
  destruct (m s) as [[e|a] s']; simpl in *; [done|].
  by rewrite Hk.
Qed.

Lemma keeps_map_M {A B} (f : A -> M B) l :
  (forall x, keeps_unmarshaller (f x)) -> keeps_unmarshaller (map_M f l).
Proof.
  intros Hf. induction l as [|x l IH]; simpl; [apply keeps_ret|].
  apply keeps_bind; [done|]. intros y.
  apply keeps_bind; [done|]. intros ys. apply keeps_ret.
Qed.

Lemma keeps_fold_M {A B} (f : B -> A -> M B) l b :
  (forall b x, keeps_unmarshaller (f b x)) -> keeps_unmarshaller (fold_M f l b).
Proof.
  intros Hf. revert b. induction l as [|x l IH]; intros b; simpl;
    [apply keeps_ret|].
  apply keeps_bind; [done|]. intros b'. apply IH.
Qed.

Lemma keeps_invoke_processors self t pass_many data many original :
  keeps_unmarshaller (_invoke_processors self t pass_many data many original).
Proof.
  assert (Hcall : forall p args,
            keeps_unmarshaller (call_processor t pass_many p args)).
  { intros. apply keeps_bind; [apply keeps_log|]. intros. apply keeps_lift. }
  apply keeps_fold_M. intros b p. unfold invoke_processor.
  destruct pass_many; [|destruct many].
  - apply keeps_bind; [done|]. intros; apply keeps_ret.
  - apply keeps_bind; [apply keeps_lift|]. intros items.
    apply keeps_bind; [|intros; apply keeps_ret].
    apply keeps_map_M. intros item.
    apply keeps_bind; [done|]. intros; apply keeps_ret.
  - apply keeps_bind; [done|]. intros; apply keeps_ret.
Qed.

Lemma keeps_invoke_load_processors self t data many original :
  keeps_unmarshaller (_invoke_load_processors self t data many original).
Proof.
  apply keeps_bind; [apply keeps_invoke_processors|]. intros d.
  apply keeps_bind; [apply keeps_invoke_processors|]. intros.
  apply keeps_ret.
Qed.

Section load_pipeline.

Variable U : Unmarshaller.

Lemma no_post_load_in_pre_load pass_many n args :
  no_hook POST_LOAD (EvProcessor PRE_LOAD pass_many n args).
Proof. intros pm [? _]. done. Qed.

Lemma emits_invoke_field_validators self data many φ :
  emits (_invoke_field_validators U self data many) φ.
Proof.
  apply emits_foldM. intros [] v.
  assert (Hv : forall field_obj item index,
            emits (validate_field_value U v field_obj item index) φ).
  { intros. apply emits_bind; [apply emits_lift|].
    intros [value|]; [apply emits_lift_u|apply emits_ret]. }
  destruct (self_fields self !! v_field_name v) as [field_obj|].
  - destruct many; [|apply Hv].
    apply emits_bind; [apply emits_lift|]. intros items.
    apply emits_foldM. intros [] [idx item]. apply Hv.
  - case_bool_decide; [apply emits_ret|apply emits_raise].
Qed.

Lemma emits_invoke_validators self pass_many data original many φ :
  emits (_invoke_validators U self pass_many data original many) φ.
Proof.
  assert (Hrun : forall v kw d idx errs,
            emits (run_and_collect U self v kw d original many idx errs) φ).
  { intros. apply emits_try_except.
    - apply emits_bind; [apply emits_lift_u|]. intros; apply emits_ret.
    - intros. apply emits_ret. }
  apply emits_bind.
  - apply emits_foldM. intros errs v. unfold invoke_validator.
    destruct (many && negb pass_many); [|apply Hrun].
    apply emits_bind; [apply emits_lift|]. intros items.
    apply emits_foldM. intros errs' [idx item]. apply Hrun.
  - intros errs. case_bool_decide; [apply emits_raise|apply emits_ret].
Qed.

Lemma emits_run_schema_validators self result data many φ :
  emits (run_schema_validators U self result data many) φ.
Proof.
  apply emits_bind; [|intros _].
  - apply emits_try_except; [apply emits_invoke_validators|].
    intros. by apply emits_silent.
  - apply emits_try_except; [apply emits_invoke_validators|].
    intros. by apply emits_silent.
Qed.

Lemma emits_load_stages self data many partial :
  emits (load_stages U self data many partial) (no_hook POST_LOAD).
Proof.
  apply emits_bind.
  { apply emits_invoke_load_processors. apply no_post_load_in_pre_load. }
  intros processed_data. apply emits_bind.
  { apply emits_try_except; [apply emits_lift_u|]. intros. apply emits_ret. }
  intros result. apply emits_bind; [apply emits_invoke_field_validators|].
  intros _. apply emits_bind; [apply emits_run_schema_validators|].
  intros _. apply emits_ret.
Qed.

Lemma bind_get_errors_keeps {A} (m : M A) s :
  keeps_unmarshaller m ->
  bind m (fun a => bind get_errors (fun errors => ret (a, errors))) s
  = bind m (fun a => ret (a, errors (unmarshal_st s))) s.
Proof.
  intros Hkeep. unfold bind. specialize (Hkeep s).
  destruct (m s) as [[e|a] s']; [done|]. simpl in Hkeep.
  unfold get_errors, ret. by rewrite Hkeep.
Qed.

Lemma return_loaded_outcome self data many postprocess result s :
  return_loaded self data many postprocess result s
  = if bool_decide (errors (unmarshal_st s) = ∅) && postprocess
    then bind (_invoke_load_processors self POST_LOAD result many data)
           (fun result => ret (result, ∅)) s
    else (inr (result, errors (unmarshal_st s)), s).
Proof.
  unfold return_loaded. unfold bind at 1. unfold get_errors at 1.
  destruct (bool_decide (errors (unmarshal_st s) = ∅) && postprocess) eqn:Hp.
  - rewrite bind_get_errors_keeps by apply keeps_invoke_load_processors.
    apply andb_true_iff in Hp as [Hd _].
    apply bool_decide_eq_true in Hd. by rewrite Hd.
  - by unfold bind, ret, get_errors.
Qed.

(** The [if errors:] block of [_do_load], when there are errors. *)
Lemma report_errors_outcome self data s :
  errors (unmarshal_st s) ≠ ∅ ->
  let u := unmarshal_st s in
  report_errors self data s
  = (match (first_handler self (errors u) data).1,
           (handle_error self (inl (handled_error self u data)) data).1 with
     | Some e, _ => inl e
     | None, Some e => inl e
     | None, None =>
         if self_strict self
         then inl (ValidationError (handled_errors self u data)
                     (error_field_names u) (error_fields u) data)
         else inr tt
     end,
     mk_state (trace s ++ handler_calls self u data)
       (mk_ustate (handled_errors self u data) (error_field_names u)
          (error_fields u))
       (marshal_errors s)).
Proof.
  intros Hne u. subst u. destruct s as [tr [errs fn fs] me].
  cbn [unmarshal_st errors trace marshal_errors error_field_names error_fields]
    in *.
  unfold report_errors, handler_calls, handled_errors, handled_error,
    first_handler.
  unfold bind at 1. unfold get_errors at 1. cbn [unmarshal_st errors].
  rewrite bool_decide_true by done.
  destruct (__error_handler__ self) as [h|].
  - destruct (h errs data) as [[e1|] d1] eqn:Hh.
    + cbv beta iota zeta delta
        [bind run_handler log set_errors raise ret get_ustate get_errors
         aggregate_error fst snd trace unmarshal_st marshal_errors errors
         error_field_names error_fields].
      by rewrite app_nil_r.
    + cbv beta iota zeta delta
        [bind run_handler log set_errors raise ret get_ustate get_errors
         aggregate_error fst snd trace unmarshal_st marshal_errors errors
         error_field_names error_fields].
      destruct (handle_error self (inl (ValidationError d1 fn fs data)) data)
        as [[e2|] d2]; [by rewrite <- (assoc_L (++))|].
      rewrite <- (assoc_L (++)). by destruct (self_strict self).
  - cbv beta iota zeta delta
      [bind run_handler log set_errors raise ret get_ustate get_errors
       aggregate_error fst snd trace unmarshal_st marshal_errors errors
       error_field_names error_fields].
    destruct (handle_error self (inl (ValidationError errs fn fs data)) data)
      as [[e2|] d2]; [done|].
    by destruct (self_strict self).
Qed.

(** [_do_load] from its error check on, when there are errors. *)
Lemma finish_load_with_errors self data many postprocess result s :
  errors (unmarshal_st s) ≠ ∅ ->
  let u := unmarshal_st s in
  let after :=
    mk_state (trace s ++ handler_calls self u data)
      (mk_ustate (handled_errors self u data) (error_field_names u)
         (error_fields u))
      (marshal_errors s) in
  finish_load self data many postprocess result s
  = match (first_handler self (errors u) data).1,
          (handle_error self (inl (handled_error self u data)) data).1 with
    | Some e, _ => (inl e, after)
    | None, Some e => (inl e, after)
    | None, None =>
        if self_strict self then
          (inl (ValidationError (handled_errors self u data)
                  (error_field_names u) (error_fields u) data), after)
        else if bool_decide (handled_errors self u data = ∅) && postprocess
        then bind (_invoke_load_processors self POST_LOAD result many data)
               (fun result => ret (result, ∅)) after
        else (inr (result, handled_errors self u data), after)
    end.
Proof.
  intros Hne u after. unfold finish_load. unfold bind at 1.
  rewrite report_errors_outcome by done. fold u. fold after.
  destruct (first_handler self (errors u) data).1; [done|].
  destruct (handle_error self (inl (handled_error self u data)) data).1;
    [done|].
  destruct (self_strict self); [done|].
  by rewrite return_loaded_outcome.
Qed.

Lemma handler_calls_are_no_hooks self u data t :
  Forall (no_hook t) (handler_calls self u data).
Proof.
  unfold handler_calls. apply Forall_app. split.
  - destruct (__error_handler__ self); repeat constructor. intros pm [].
  - destruct (first_handler _ _ _).1; repeat constructor. intros pm [].
Qed.

(** C6, as the code has it.  When [_do_load] reaches its error check with
    a non-empty error dictionary, it calls the deprecated
    [__error_handler__], if there is one, with the dictionary and the
    original input, and then [handle_error] with the error built from the
    dictionary, the field names and the fields of the unmarshaller, and
    with the original input.  An exception raised by a handler leaves the
    call (after the first handler's, [handle_error] is not called).  When
    the handlers return, a strict schema raises the error and a non-strict
    one returns the result with the dictionary, each with the dictionary
    as the handlers left it.  No [post_load] hook is called, except by a
    non-strict schema whose handlers have emptied the dictionary. *)
Theorem load_with_errors_calls_handlers_and_skips_post_load
    self data many partial postprocess s result s1 :
  load_stages U self data (default (self_many self) many)
    (effective_partial self partial) s = (inr result, s1) ->
  errors (unmarshal_st s1) ≠ ∅ ->
  let u := unmarshal_st s1 in
  let after :=
    mk_state (trace s1 ++ handler_calls self u data)
      (mk_ustate (handled_errors self u data) (error_field_names u)
         (error_fields u))
      (marshal_errors s1) in
  _do_load U self data many partial postprocess s
  = match (first_handler self (errors u) data).1,
          (handle_error self (inl (handled_error self u data)) data).1 with
    | Some e, _ => (inl e, after)
    | None, Some e => (inl e, after)
    | None, None =>
        if self_strict self then
          (inl (ValidationError (handled_errors self u data)
                  (error_field_names u) (error_fields u) data), after)
        else if bool_decide (handled_errors self u data = ∅) && postprocess
        then bind (_invoke_load_processors self POST_LOAD result
                     (default (self_many self) many) data)
               (fun result => ret (result, ∅)) after
        else (inr (result, handled_errors self u data), after)
    end
  /\ exists t,
       trace after = trace s ++ t /\ Forall (no_hook POST_LOAD) t.
Proof.
  intros Hstages Hne u after. split.
  - unfold _do_load. unfold bind at 1. rewrite Hstages.
    by apply finish_load_with_errors.
  - destruct (emits_load_stages self data (default (self_many self) many)
                (effective_partial self partial) s) as (t & Ht & Hall).
    rewrite Hstages in Ht. simpl in Ht.
    exists (t ++ handler_calls self u data). split.
    + subst after. simpl. by rewrite Ht, (assoc_L (++)).
    + apply Forall_app. split; [done|]. apply handler_calls_are_no_hooks.
Qed.

(** C3, as the code has it.  [_do_load] reduces its [partial] argument to
    its truth value: a collection of names acts as [True] when it is not
    empty and as [False] when it is, for every field alike, so that
    deserialisation never sees the names (and, once the argument is true,
    reports no absent required field of an item at all); only the
    [partial] of the instance, used when the argument is [None], is passed
    on as it is. *)
Theorem load_partial_is_a_truth_value
    self data many (p : partial_t) postprocess :
  _do_load U self data many (Some p) postprocess
  = _do_load U self data many (Some (PartialBool (partial_truthy p)))
      postprocess
  /\ (forall field_name,
        partial_for (effective_partial self (Some p)) field_name
        = partial_truthy p)
  /\ (partial_truthy p = true ->
      forall item fields ordered index_errors u,
      exists out,
        spec_unmarshal item fields false (effective_partial self (Some p))
          ordered index_errors u
        = (inr (VDict out), mk_ustate ∅ [] []))
  /\ effective_partial self None = self_partial self.
Proof.
  split; [done|]. split; [done|]. split; [|done].
  intros Hp item fields ordered index_errors u.
  apply spec_unmarshal_all_partial. intros field_name. exact Hp.
Qed.

End load_pipeline.

Lemma person_without_age_and_email_is_reported :
  let s1 :=
    (load_stages spec_unmarshaller person_schema only_a_name false
       (PartialBool false) initial_state).2 in
  let u := unmarshal_st s1 in
  let after :=
    mk_state (trace s1 ++ handler_calls person_schema u only_a_name)
      (mk_ustate (handled_errors person_schema u only_a_name)
         (error_field_names u) (error_fields u))
      (marshal_errors s1) in
  _do_load spec_unmarshaller person_schema only_a_name None None true
    initial_state
  = match (first_handler person_schema (errors u) only_a_name).1,
          (handle_error person_schema
             (inl (handled_error person_schema u only_a_name))
             only_a_name).1 with
    | Some e, _ => (inl e, after)
    | None, Some e => (inl e, after)
    | None, None =>
        if self_strict person_schema then
          (inl (ValidationError (handled_errors person_schema u only_a_name)
                  (error_field_names u) (error_fields u) only_a_name), after)
        else if bool_decide (handled_errors person_schema u only_a_name = ∅)
                && true
        then bind (_invoke_load_processors person_schema POST_LOAD only_a_name
                     (default (self_many person_schema) None) only_a_name)
               (fun result => ret (result, ∅)) after
        else (inr (only_a_name, handled_errors person_schema u only_a_name),
              after)
    end
  /\ exists t,
       trace after = trace initial_state ++ t
       /\ Forall (no_hook POST_LOAD) t.
Proof.
  apply (load_with_errors_calls_handlers_and_skips_post_load spec_unmarshaller
           person_schema only_a_name None None true initial_state only_a_name
           (load_stages spec_unmarshaller person_schema only_a_name false
              (PartialBool false) initial_state).2).
  - vm_compute. reflexivity.
  - vm_compute. discriminate.
Defined.

(** What the load of the witness comes to: the result with the two
    required fields reported, after one call of [handle_error]. *)
Lemma person_without_age_and_email_load :
  (load spec_unmarshaller person_schema only_a_name None None initial_state).1
  = inr (only_a_name,
         {[KStr "age" := EMsgs ["Missing data for required field."];
           KStr "email" := EMsgs ["Missing data for required field."]]})
  /\ length (trace (load spec_unmarshaller person_schema only_a_name None None
                      initial_state).2) = 1.
Proof. split; vm_compute; reflexivity. Qed.

(** C6 fails on a schema whose [handle_error] raises: the errors are
    there, the schema is not strict, and [load] ends in the handler's
    exception instead of returning a pair.  It fails as well on a schema
    whose [handle_error] empties the dictionary it is given: the errors
    were there, yet the [post_load] hook is called and the pair that is
    returned has no errors. *)
Lemma handlers_can_end_the_load_or_clear_its_errors :
  (self_strict raising_schema = false
   /\ errors (unmarshal_st
                (load_stages spec_unmarshaller raising_schema only_a_name false
                   (PartialBool false) initial_state).2) ≠ ∅
   /\ (load spec_unmarshaller raising_schema only_a_name None None
         initial_state).1
      = inl (UserError "An error occurred"))
  /\ (self_strict forgiving_schema = false
      /\ errors (unmarshal_st
                   (load_stages spec_unmarshaller forgiving_schema only_a_name
                      false (PartialBool false) initial_state).2) ≠ ∅
      /\ (load spec_unmarshaller forgiving_schema only_a_name None None
            initial_state).1
         = inr (only_a_name, ∅)
      /\ hook_calls
           (trace (load spec_unmarshaller forgiving_schema only_a_name None
                     None initial_state).2)
         = [(POST_LOAD, false, "make_object")]).
Proof.
  split.
  - split; [vm_compute; reflexivity|]. split.
    + vm_compute. discriminate.
    + vm_compute. reflexivity.
  - split; [vm_compute; reflexivity|]. split.
    + vm_compute. discriminate.
    + split; vm_compute; reflexivity.
Qed.

(** C3 fails on a set of names: with [partial={"age"}] the required field
    [email], absent from the input and not in the set, is not reported. *)
Lemma unnamed_required_field_is_not_reported :
  ("email" ∉ ["age"])
  /\ (required <$> (self_fields person_schema !! "email")) = Some true
  /\ getitem only_a_name "email" = inr None
  /\ (load spec_unmarshaller person_schema only_a_name None
        (Some (PartialNames ["age"])) initial_state).1
     = inr (only_a_name, ∅)
  /\ (load spec_unmarshaller person_schema only_a_name None
        (Some (PartialBool false)) initial_state).1
     = inr (only_a_name,
            {[KStr "age" := EMsgs ["Missing data for required field."];
              KStr "email" := EMsgs ["Missing data for required field."]]}).
Proof.
  split; [by intros ?%list_elem_of_singleton|].
  repeat split; vm_compute; reflexivity.
Qed.

(** ** The error model of the specification under schema validators *)

Lemma msgs_under_store index n msgs e index' n' :
  msgs_under (store_messages index (KStr n) msgs e) index' n'
  = msgs_under e index' n'
      ++ (if decide (index = index' /\ n = n') then msgs else []).
Proof.
  unfold msgs_under, store_messages, add_messages. cbv zeta.
  destruct index as [i|], index' as [j|].
  - destruct (decide (i = j)) as [->|Hij].
    + rewrite lookup_insert_eq.
      set (inner := match e !! KIdx j with Some (ENested d) => d | _ => ∅ end).
      assert (Hinner :
        match e !! KIdx j with
        | Some (ENested d) =>
            match d !! KStr n' with Some (EMsgs l) => l | _ => [] end
        | _ => []
        end
        = match inner !! KStr n' with Some (EMsgs l) => l | _ => [] end).
      { subst inner. by destruct (e !! KIdx j) as [[|d]|]. }
      rewrite Hinner.
      destruct (decide (n = n')) as [->|Hn].
      * rewrite decide_True by done.
        destruct (inner !! KStr n') as [[old|d]|] eqn:Hl;
          by rewrite lookup_insert_eq.
      * rewrite decide_False by (by intros [_ ?]). rewrite app_nil_r.
        destruct (inner !! KStr n) as [[old|d]|];
          by rewrite lookup_insert_ne by congruence.
    + rewrite lookup_insert_ne by congruence.
      rewrite decide_False by (intros [? _]; congruence).
      by rewrite app_nil_r.
  - rewrite lookup_insert_ne by done.
    rewrite decide_False by (by intros [? _]). by rewrite app_nil_r.
  - rewrite decide_False by (by intros [? _]). rewrite app_nil_r.
    destruct (e !! KStr n) as [[old|d]|]; by rewrite lookup_insert_ne.
  - destruct (decide (n = n')) as [->|Hn].
    + rewrite decide_True by done.
      destruct (e !! KStr n') as [[old|d]|]; by rewrite lookup_insert_eq.
    + rewrite decide_False by (by intros [_ ?]). rewrite app_nil_r.
      destruct (e !! KStr n) as [[old|d]|];
        by rewrite lookup_insert_ne by congruence.
Qed.

Lemma msgs_under_record index msgs names e index' n' :
  msgs_under (record_messages index msgs names e) index' n'
  = msgs_under e index' n'
      ++ (if decide (index = index')
          then concat ((fun n => if decide (n = n') then msgs else [])
                         <$> names)
          else []).
Proof.
  unfold record_messages. revert e.
  induction names as [|n names IH]; intros e; simpl.
  - destruct (decide _); by rewrite app_nil_r.
  - rewrite IH, msgs_under_store, <- (assoc_L (++)). f_equal.
    destruct (decide (index = index')) as [->|Hne].
    + destruct (decide (n = n')) as [->|Hn].
      * by rewrite decide_True.
      * by rewrite decide_False by (by intros [_ ?]).
    + by rewrite decide_False by (by intros [? _]).
Qed.

Lemma msgs_under_recorded calls e index n :
  msgs_under (foldl (fun e c => recorded c e) e calls) index n
  = msgs_under e index n ++ concat (contribution index n <$> calls).
Proof.
  revert e. induction calls as [|c calls IH]; intros e; simpl.
  - by rewrite app_nil_r.
  - rewrite IH, (assoc_L (++)). f_equal.
    unfold recorded, contribution.
    destruct (reported c.2) as [[msgs names]|]; [|by rewrite app_nil_r].
    apply msgs_under_record.
Qed.

Lemma store_messages_dom index k msgs (e : errdict) :
  dom e ⊆ dom (store_messages index k msgs e).
Proof.
  unfold store_messages, add_messages.
  destruct index; [|destruct (e !! k) as [[|]|]];
    rewrite dom_insert; apply union_subseteq_r.
Qed.

Lemma record_messages_dom index msgs names (e : errdict) :
  dom e ⊆ dom (record_messages index msgs names e).
Proof.
  unfold record_messages. revert e.
  induction names as [|n names IH]; intros e; simpl; [done|].
  etrans; [apply (store_messages_dom index (KStr n) msgs)|apply IH].
Qed.

Lemma recorded_dom call (e : errdict) : dom e ⊆ dom (recorded call e).
Proof.
  unfold recorded. destruct (reported call.2) as [[msgs names]|]; [|done].
  apply record_messages_dom.
Qed.

Lemma union_covered (e e' : errdict) : dom e ⊆ dom e' -> e' ∪ e = e'.
Proof.
  intros Hsub. apply map_eq. intros k. rewrite lookup_union.
  destruct (e' !! k) as [x|] eqn:Hk; [by destruct (e !! k)|].
  assert (He : e !! k = None).
  { apply not_elem_of_dom. intros Hin. apply Hsub in Hin.
    by apply not_elem_of_dom in Hk. }
  by rewrite He.
Qed.

Lemma bind_singleton {A B} (h : A -> B) (l : list A) :
  l ≫= (fun x => [h x]) = h <$> l.
Proof. induction l as [|x l IH]; [done|]. by rewrite bind_cons, fmap_cons, IH. Qed.

Lemma spec_run_validator_outcome v kw output original fields many index u :
  raises (v_call v (validator_args (v_pass_original v) kw output original))
  = false ->
  exists names objs,
    spec_run_validator v kw output original fields many index
      (v_pass_original v) u
    = match reported (v_call v (validator_args (v_pass_original v) kw output
                                  original)) with
      | Some _ =>
          let errors :=
            recorded (index, v_call v (validator_args (v_pass_original v) kw
                                         output original)) (errors u) in
          (inl (ValidationError errors names objs output),
           mk_ustate errors names objs)
      | None => (inr tt, u)
      end.
Proof.
  unfold spec_run_validator, recorded. cbn [fst snd].
  destruct (v_call v _) as [| |msgs fns|e]; intros Hr;
    [by exists [], []|eexists _, _; reflexivity|eexists _, _; reflexivity
    |done].
Qed.

(** One call of [run_validator], with the errors [errs] that
    [_invoke_validators] has collected so far: nothing, or the very content
    of the unmarshaller's dictionary. *)
Lemma run_and_collect_spec self v kw d original many idx errs s :
  raises (v_call v (validator_args (v_pass_original v) kw d original)) = false ->
  errs = ∅ \/ errs = errors (unmarshal_st s) ->
  exists errs' s',
    run_and_collect spec_unmarshaller self v kw d original many idx errs s
    = (inr errs', s')
    /\ errors (unmarshal_st s')
       = recorded (idx, v_call v (validator_args (v_pass_original v) kw d
                                    original))
           (errors (unmarshal_st s))
    /\ (errs' = ∅ \/ errs' = errors (unmarshal_st s')).
Proof.
  intros Hraises Hinv.
  assert (Hmerge : forall e' : errdict,
            dom (errors (unmarshal_st s)) ⊆ dom e' ->
            dict_update errs e' = e').
  { intros e' Hsub. unfold dict_update. destruct Hinv as [->| ->].
    - apply (right_id_L ∅ (∪)).
    - by apply union_covered. }
  destruct (spec_run_validator_outcome v kw d original (self_fields self) many
              idx (unmarshal_st s) Hraises) as (names & objs & Hrun).
  unfold run_and_collect, try_except, bind, lift_u.
  cbn [run_validator spec_unmarshaller]. rewrite Hrun.
  pose proof (recorded_dom
                (idx, v_call v (validator_args (v_pass_original v) kw d
                                  original))
                (errors (unmarshal_st s))) as Hdom.
  unfold recorded in *. cbn [fst snd] in *.
  destruct (reported (v_call v _)) as [[msgs ns]|].
  - eexists _, _. split; [done|]. cbn [unmarshal_st errors].
    split; [done|]. right. unfold ret. by apply Hmerge.
  - eexists _, _. split; [done|]. cbn [unmarshal_st errors].
    split; [done|]. destruct Hinv; [by left|by right].
Qed.

Lemma fold_M_collects {A} (f : errdict -> A -> M errdict)
    (g : A -> list (option nat * validator_result)) :
  (forall errs x s,
     forallb (fun c => negb (raises c.2)) (g x) = true ->
     errs = ∅ \/ errs = errors (unmarshal_st s) ->
     exists errs' s',
       f errs x s = (inr errs', s')
       /\ errors (unmarshal_st s')
          = foldl (fun e c => recorded c e) (errors (unmarshal_st s)) (g x)
       /\ (errs' = ∅ \/ errs' = errors (unmarshal_st s'))) ->
  forall l errs s,
    forallb (fun c => negb (raises c.2)) (l ≫= g) = true ->
    errs = ∅ \/ errs = errors (unmarshal_st s) ->
    exists errs' s',
      fold_M f l errs s = (inr errs', s')
      /\ errors (unmarshal_st s')
         = foldl (fun e c => recorded c e) (errors (unmarshal_st s)) (l ≫= g)
      /\ (errs' = ∅ \/ errs' = errors (unmarshal_st s')).
Proof.
  intros Hstep. induction l as [|x l IH]; intros errs s Hok Hinv.
  - by exists errs, s.
  - rewrite bind_cons in Hok. rewrite forallb_app in Hok.
    apply andb_true_iff in Hok as [Hx Hl].
    destruct (Hstep errs x s Hx Hinv) as (errs1 & s1 & Hf & He1 & Hinv1).
    destruct (IH errs1 s1 Hl Hinv1) as (errs2 & s2 & Hfold & He2 & Hinv2).
    exists errs2, s2. split; [|split; [|done]].
    + simpl. unfold bind. by rewrite Hf.
    + rewrite bind_cons. by rewrite foldl_app, <- He1.
Qed.

(** The calls that one schema validator of a group makes. *)
Lemma invoke_validator_spec self pass_many data original many items errs v s :
  (many && negb pass_many = true -> iter_items data = inr items) ->
  let calls :=
    if many && negb pass_many then
      (fun '(idx, item) =>
         (Some idx, v_call v (validator_args (v_pass_original v) None item
                                original)))
        <$> imap (fun idx item => (idx, item)) items
    else
      [(None, v_call v (validator_args (v_pass_original v)
                          (if pass_many then Some many else None) data
                          original))] in
  forallb (fun c => negb (raises c.2)) calls = true ->
  errs = ∅ \/ errs = errors (unmarshal_st s) ->
  exists errs' s',
    invoke_validator spec_unmarshaller self pass_many data original many errs
      v s = (inr errs', s')
    /\ errors (unmarshal_st s')
       = foldl (fun e c => recorded c e) (errors (unmarshal_st s)) calls
    /\ (errs' = ∅ \/ errs' = errors (unmarshal_st s')).
Proof.
  intros Hitems calls Hok Hinv. subst calls. unfold invoke_validator.
  destruct (many && negb pass_many) eqn:Hmode.
  - assert (Hnone : (if pass_many then Some many else None) = None).
    { apply andb_true_iff in Hmode as [_ Hp]. by destruct pass_many. }
    rewrite Hnone. unfold bind at 1. unfold lift at 1.
    rewrite Hitems by done.
    rewrite <- bind_singleton in Hok. rewrite <- bind_singleton.
    apply (fold_M_collects
             (fun errors '(idx, item) =>
                run_and_collect spec_unmarshaller self v None item original
                  many (Some idx) errors)
             (fun x =>
                [(fun '(idx, item) =>
                    (Some idx,
                     v_call v (validator_args (v_pass_original v) None item
                                 original))) x])); [|done|done].
    intros errs0 [idx item] s0 Hx Hinv0. simpl in Hx.
    rewrite andb_true_r in Hx. apply negb_true_iff in Hx.
    by apply run_and_collect_spec.
  - simpl in Hok. rewrite andb_true_r in Hok. apply negb_true_iff in Hok.
    by apply run_and_collect_spec.
Qed.

(** One group of schema validators: what [_invoke_validators] raises, if
    it raises, is the content of the unmarshaller's dictionary. *)
Lemma invoke_validators_spec self pass_many data original many items s :
  (many && negb pass_many = true -> iter_items data = inr items) ->
  forallb (fun c => negb (raises c.2))
    (validator_group_calls self pass_many data original many items) = true ->
  exists r s',
    _invoke_validators spec_unmarshaller self pass_many data original many s
    = (r, s')
    /\ errors (unmarshal_st s')
       = foldl (fun e c => recorded c e) (errors (unmarshal_st s))
           (validator_group_calls self pass_many data original many items)
    /\ (r = inr tt
        \/ r = inl (ValidationError (errors (unmarshal_st s')) [] [] VNone)).
Proof.
  intros Hitems Hok. unfold _invoke_validators, validator_group_calls in *.
  destruct (fold_M_collects
              (invoke_validator spec_unmarshaller self pass_many data original
                 many)
              (fun v =>
                 if many && negb pass_many then
                   (fun '(idx, item) =>
                      (Some idx,
                       v_call v (validator_args (v_pass_original v) None item
                                   original)))
                     <$> imap (fun idx item => (idx, item)) items
                 else
                   [(None, v_call v (validator_args (v_pass_original v)
                                       (if pass_many then Some many else None)
                                       data original))])
              (fun errs v s0 Hx Hinv =>
                 invoke_validator_spec self pass_many data original many items
                   errs v s0 Hitems Hx Hinv)
              (schema_validators self pass_many) ∅ s Hok (or_introl eq_refl))
    as (errs' & s' & Hfold & Herrs & Hinv).
  unfold bind. rewrite Hfold.
  case_bool_decide as Hne.
  - eexists _, s'. split; [done|]. split; [done|]. right.
    destruct Hinv as [->| ->]; done.
  - eexists _, s'. split; [done|]. split; [done|]. by left.
Qed.

Lemma try_update_errors_spec (m : M unit) s r s' :
  m s = (r, s') ->
  r = inr tt \/ r = inl (ValidationError (errors (unmarshal_st s')) [] [] VNone) ->
  exists s'',
    try_except m (fun messages _ _ _ => update_errors messages) s
    = (inr tt, s'')
    /\ errors (unmarshal_st s'') = errors (unmarshal_st s').
Proof.
  intros Hm [-> | ->]; unfold try_except; rewrite Hm.
  - by exists s'.
  - eexists. split; [done|]. simpl. unfold dict_update.
    apply (idemp_L (∪)).
Qed.

Lemma run_schema_validators_spec
    self result data (many : bool) (items : list pyval) s :
  (if many then iter_items result else inr []) = inr items ->
  forallb (fun c => negb (raises c.2))
    (schema_validator_calls self result data many items) = true ->
  exists s',
    run_schema_validators spec_unmarshaller self result data many s
    = (inr tt, s')
    /\ errors (unmarshal_st s')
       = foldl (fun e c => recorded c e) (errors (unmarshal_st s))
           (schema_validator_calls self result data many items).
Proof.
  intros Hitems Hok. unfold schema_validator_calls in *.
  rewrite forallb_app in Hok. apply andb_true_iff in Hok as [Hb Hn].
  destruct (invoke_validators_spec self true result data many items s)
    as (r1 & s1 & H1 & He1 & Hr1); [by rewrite andb_false_r|done|].
  destruct (try_update_errors_spec _ _ _ _ H1 Hr1) as (s1' & Ht1 & He1').
  destruct (invoke_validators_spec self false result data many items s1')
    as (r2 & s2 & H2 & He2 & Hr2); [|done|].
  { rewrite andb_true_r. intros ->. done. }
  destruct (try_update_errors_spec _ _ _ _ H2 Hr2) as (s2' & Ht2 & He2').
  exists s2'. split.
  - unfold run_schema_validators. unfold bind. by rewrite Ht1.
  - by rewrite foldl_app, He2', He2, He1', He1.
Qed.

(** C1.  With the unmarshaller of the specification, the schema
    validators of a load never overwrite one another's messages, nor any
    that were recorded before them.  When none of them raises anything but
    a validation error, the stage returns, and afterwards the error
    dictionary holds, under every name (and for every item index), the
    messages that were there before, followed by the messages of every
    validator that reported under that name, in the order of the calls:
    the batch validators first, then the others.  Two validators that
    report under the same key, of one group or of the two, thus have their
    message lists concatenated; the merges by [errors.update] in the schema
    lose nothing, because the error raised carries the dictionary of the
    unmarshaller. *)
Theorem schema_validator_messages_are_concatenated
    self result data (many : bool) (items : list pyval) s :
  (if many then iter_items result else inr []) = inr items ->
  forallb (fun c => negb (raises c.2))
    (schema_validator_calls self result data many items) = true ->
  (run_schema_validators spec_unmarshaller self result data many s).1 = inr tt
  /\ forall index n,
       msgs_under
         (errors (unmarshal_st
                    (run_schema_validators spec_unmarshaller self result data
                       many s).2)) index n
       = msgs_under (errors (unmarshal_st s)) index n
           ++ concat (contribution index n
                        <$> schema_validator_calls self result data many items).
Proof.
  intros Hitems Hok.
  destruct (run_schema_validators_spec self result data many items s Hitems Hok)
    as (s' & Hrun & Herrs).
  rewrite Hrun. split; [done|]. intros index n. simpl.
  rewrite Herrs. apply msgs_under_recorded.
Qed.

Lemma batch_and_item_errors_are_both_reported :
  (run_schema_validators spec_unmarshaller checked_schema a_person a_person
     false initial_state).1 = inr tt
  /\ forall index n,
       msgs_under
         (errors (unmarshal_st
                    (run_schema_validators spec_unmarshaller checked_schema
                       a_person a_person false initial_state).2)) index n
       = msgs_under (errors (unmarshal_st initial_state)) index n
           ++ concat (contribution index n
                        <$> schema_validator_calls checked_schema a_person
                              a_person false []).
Proof.
  apply (schema_validator_messages_are_concatenated checked_schema a_person
           a_person false [] initial_state).
  - reflexivity.
  - vm_compute. reflexivity.
Defined.

(** What the loads of the two examples return: under the schema key, the
    messages of both validators, in the order of the calls. *)
Lemma schema_errors_of_the_examples :
  (load spec_unmarshaller checked_schema a_person None
     (Some (PartialBool true)) initial_state).1
  = inr (a_person,
         {[KStr SCHEMA := EMsgs ["batch rejected"; "item rejected"]]})
  /\ (load spec_unmarshaller twice_checked_schema a_person None
        (Some (PartialBool true)) initial_state).1
     = inr (a_person,
            {[KStr SCHEMA := EMsgs ["first rejected"; "second rejected"]]})
  /\ concat (contribution None SCHEMA
               <$> schema_validator_calls checked_schema a_person a_person
                     false [])
     = ["batch rejected"; "item rejected"].
Proof. repeat split; vm_compute; reflexivity. Qed.

(** * Further properties *)

(** ** More on class options *)

(** X1. [SchemaOpts.__init__] either returns options or raises a
    [ValueError]: it returns exactly when [fields], [additional] and
    [exclude] are lists or tuples and [fields] and [additional] are not both
    non-empty; the options then hold the items given, one of [fields] and
    [additional] being empty. *)
Theorem SchemaOpts_init_outcome meta :
  let fields := default (OTuple []) (meta_fields meta) in
  let additional := default (OTuple []) (meta_additional meta) in
  let exclude := default (OTuple []) (meta_exclude meta) in
  match SchemaOpts_init meta with
  | inr opts =>
      is_list_or_tuple fields = true
      /\ is_list_or_tuple additional = true
      /\ is_list_or_tuple exclude = true
      /\ opts_fields opts = opt_names fields
      /\ opts_additional opts = opt_names additional
      /\ opts_exclude opts = opt_names exclude
      /\ (opts_fields opts = [] \/ opts_additional opts = [])
  | inl e =>
      (exists msg, e = ValueError (Msg msg))
      /\ (is_list_or_tuple fields = false
          \/ is_list_or_tuple additional = false
          \/ is_list_or_tuple exclude = false
          \/ (opt_truthy fields = true /\ opt_truthy additional = true))
  end.
Proof.
  intros fields additional exclude. unfold SchemaOpts_init.
  fold fields additional exclude.
  destruct (is_list_or_tuple fields) eqn:Hf; simpl; [|by eauto].
  destruct (is_list_or_tuple additional) eqn:Ha; simpl; [|by eauto 6].
  destruct (opt_truthy fields && opt_truthy additional) eqn:Hboth.
  { apply andb_true_iff in Hboth. by eauto 8. }
  destruct (is_list_or_tuple exclude) eqn:He; simpl; [|by eauto 8].
  repeat split; try done.
  apply andb_false_iff in Hboth as [Ht|Ht].
  - left. destruct fields as [[|??]|[|??]| | |]; done.
  - right. destruct additional as [[|??]|[|??]| | |]; done.
Qed.

Lemma SchemaOpts_init_exclusive meta opts :
  SchemaOpts_init meta = inr opts ->
  opts_fields opts = [] \/ opts_additional opts = [].
Proof.
  unfold SchemaOpts_init.
  destruct (is_list_or_tuple _) eqn:Hf; simpl; [|done].
  destruct (is_list_or_tuple (default _ (meta_additional meta))) eqn:Ha;
    simpl; [|done].
  destruct (opt_truthy _ && opt_truthy _) eqn:Hboth; [done|].
  destruct (is_list_or_tuple (default _ (meta_exclude meta))); simpl; [|done].
  intros [= <-]. simpl.
  apply andb_false_iff in Hboth as [Ht|Ht].
  - left. destruct (default _ (meta_fields meta)) as [[|??]|[|??]| | |]; done.
  - right.
    destruct (default _ (meta_additional meta)) as [[|??]|[|??]| | |]; done.
Qed.

Lemma class_getattr_subclass attrs base attr_name :
  attrs !! attr_name = None ->
  class_getattr attrs (base :: k_mro base) attr_name
  = class_getattr (k_dict base) (k_mro base) attr_name.
Proof.
  intros Hnone. unfold class_getattr. rewrite Hnone. simpl.
  by destruct (k_dict base !! attr_name).
Qed.

Lemma pop_fields_lookup attrs n :
  pop_fields attrs !! n
  = match attrs !! n with
    | Some (AField _) => None
    | other => other
    end.
Proof.
  unfold pop_fields. destruct (attrs !! n) as [a|] eqn:Hn.
  - destruct a as [f| |].
    + apply map_lookup_filter_None. right. intros a' Ha. simpl.
      rewrite Hn in Ha. by injection Ha as <-.
    + by apply map_lookup_filter_Some.
    + by apply map_lookup_filter_Some.
  - apply map_lookup_filter_None. by left.
Qed.

(** The options of a schema class are those of the [Meta] that attribute
    lookup finds on it. *)
Lemma schema_klass_opts k :
  schema_klass k ->
  exists meta opts,
    class_getattr (k_dict k) (k_mro k) "Meta" = Some meta
    /\ SchemaOpts_init (meta_of (Some meta)) = inr opts
    /\ k_opts k = Some opts.
Proof.
  destruct 1 as [|name base attrs k Hbase Hnew].
  - exists (AMeta empty_Meta), default_opts. by vm_compute.
  - apply SchemaMeta_new_inr in Hnew as (meta & opts & Hmeta & Hopts & ->).
    by exists meta, opts.
Qed.

(** X2. Every schema class carries options and declared fields, and its
    options never have both [fields] and [additional] set. *)
Theorem schema_klass_is_well_formed k :
  schema_klass k ->
  exists opts declared,
    k_opts k = Some opts
    /\ k_declared_fields k = Some declared
    /\ (opts_fields opts = [] \/ opts_additional opts = []).
Proof.
  intros Hk.
  destruct (schema_klass_opts k Hk) as (meta & opts & _ & Hinit & Hopts).
  exists opts, (inherited k). split; [done|]. split.
  - by apply schema_klass_declared.
  - by apply SchemaOpts_init_exclusive in Hinit.
Qed.

Lemma PersonSchema_is_well_formed :
  exists opts declared,
    k_opts PersonSchema_k = Some opts
    /\ k_declared_fields PersonSchema_k = Some declared
    /\ (opts_fields opts = [] \/ opts_additional opts = []).
Proof.
  apply (schema_klass_is_well_formed PersonSchema_k).
  apply (schema_klass_sub "PersonSchema" Schema_k PersonSchema_attrs).
  - apply schema_klass_root.
  - vm_compute. reflexivity.
Defined.

(** X3. A class statement without a [Meta] of its own, on a schema class,
    always yields a class, and the class has the options of its base:
    [getattr(klass, 'Meta')] finds the base's [Meta]. *)
Theorem subclass_without_Meta_inherits_options name base attrs :
  schema_klass base ->
  attrs !! "Meta" = None ->
  exists k,
    SchemaMeta_new name [base] (base :: k_mro base) attrs = inr k
    /\ k_opts k = k_opts base.
Proof.
  intros Hbase Hnone.
  destruct (schema_klass_opts base Hbase) as (meta & opts & Hmeta & Hinit & Ho).
  unfold SchemaMeta_new.
  rewrite class_getattr_subclass
    by (by rewrite pop_fields_lookup, Hnone).
  rewrite Hmeta, Hinit. eexists. split; [done|]. by simpl.
Qed.

Lemma subclass_of_StrictSchema_is_strict :
  exists k,
    SchemaMeta_new "Child" [StrictSchema_k]
      (StrictSchema_k :: k_mro StrictSchema_k) PersonSchema_attrs = inr k
    /\ k_opts k = k_opts StrictSchema_k.
Proof.
  apply (subclass_without_Meta_inherits_options "Child" StrictSchema_k
           PersonSchema_attrs).
  - apply (schema_klass_sub "StrictSchema" Schema_k StrictSchema_attrs).
    + apply schema_klass_root.
    + vm_compute. reflexivity.
  - vm_compute. reflexivity.
Defined.

(** X4. When the class body has its own [Meta], the options of the new
    class are those of that [Meta] alone, whatever the bases set: the
    options of a base are replaced, not merged; and the class statement
    fails exactly when [SchemaOpts.__init__] fails on that [Meta]. *)
Theorem own_Meta_replaces_inherited_options name bases mro_tail attrs m :
  attrs !! "Meta" = Some (AMeta m) ->
  match SchemaMeta_new name bases mro_tail attrs with
  | inr k => exists opts, SchemaOpts_init m = inr opts /\ k_opts k = Some opts
  | inl e => SchemaOpts_init m = inl e
  end.
Proof.
  intros Hmeta. unfold SchemaMeta_new, class_getattr.
  rewrite pop_fields_lookup, Hmeta. cbn [meta_of].
  destruct (SchemaOpts_init m) as [e|opts]; [done|]. by exists opts.
Qed.

(** [class LaxChild(StrictSchema): class Meta: fields = ("name",)]. *)
Lemma Meta_of_subclass_drops_strict :
  match SchemaMeta_new "LaxChild" [StrictSchema_k]
          (StrictSchema_k :: k_mro StrictSchema_k) ImplicitSchema_attrs with
  | inr k =>
      exists opts,
        SchemaOpts_init
          (mk_Meta (Some (OTuple ["name"])) None None None None None None None
             None None None) = inr opts
        /\ k_opts k = Some opts
  | inl e =>
      SchemaOpts_init
        (mk_Meta (Some (OTuple ["name"])) None None None None None None None
           None None None) = inl e
  end.
Proof.
  apply (own_Meta_replaces_inherited_options "LaxChild" [StrictSchema_k]
           (StrictSchema_k :: k_mro StrictSchema_k) ImplicitSchema_attrs).
  vm_compute. reflexivity.
Defined.

(** ** More on the fields of a class body *)

Lemma omap_all_None {A B} (f : A -> option B) (l : list A) :
  Forall (fun x => f x = None) l -> omap f l = [].
Proof.
  induction 1 as [|x l Hx _ IH]; [done|]. simpl. by rewrite Hx.
Qed.

(** X5. With [ordered], [_get_fields] returns the same pairs as
    without, in the order of their creation index. *)
Theorem ordered_fields_are_sorted_by_creation attrs :
  Sorted by_creation_index (_get_fields attrs true)
  /\ _get_fields attrs true ≡ₚ _get_fields attrs false.
Proof.
  assert (Htotal : Total by_creation_index).
  { intros p q. unfold by_creation_index. lia. }
  unfold _get_fields. split.
  - by apply Sorted_merge_sort.
  - apply merge_sort_Permutation.
Qed.

(** X6. [pop=True] removes from the class body exactly the attributes
    that are fields: what is left has no field and keeps every other
    attribute, and the pairs returned are the fields of the body. *)
Theorem popped_class_body_has_no_fields attrs ordered :
  _get_fields (pop_fields attrs) ordered = []
  /\ (forall n, pop_fields attrs !! n
               = match attrs !! n with
                 | Some (AField _) => None
                 | other => other
                 end)
  /\ dict_of_pairs (_get_fields attrs ordered) = omap is_field attrs.
Proof.
  split; [|split; [apply pop_fields_lookup|apply get_fields_dict]].
  assert (Hnone : omap field_pair (map_to_list (pop_fields attrs)) = []).
  { apply omap_all_None, Forall_forall. intros [n a] Hin.
    apply elem_of_map_to_list in Hin. rewrite pop_fields_lookup in Hin.
    unfold field_pair. simpl. destruct (attrs !! n) as [[| |]|]; by simplify_eq. }
  unfold _get_fields. rewrite Hnone. by destruct ordered.
Qed.

(** X7. Along the MRO the nearer class wins: the fields collected from
    the parents are those of the first parent, completed by those collected
    from the rest of the MRO under other names. *)
Theorem nearer_class_in_mro_wins base mro_tail ordered :
  dict_of_pairs (_get_fields_by_mro (base :: mro_tail) ordered)
  = omap is_field (getattr_declared_fields base)
      ∪ dict_of_pairs (_get_fields_by_mro mro_tail ordered)
  /\ dict_of_pairs (_get_fields_by_mro [] ordered) = ∅.
Proof.
  split; [|done].
  by rewrite get_fields_by_mro_cons, dict_of_pairs_app, get_fields_dict.
Qed.

(** ** Binding fields to a schema *)

(** What binding one field comes to, by what [on_bind_field] does. *)
Lemma bind_field_cases self n f :
  bind_field self n f
  = match on_bind_field self n (flag_field self n f) with
    | (None, after) =>
        if is_instance f then inr (_add_to_schema n self (hooked f after))
        else inl (TypeError (FieldDeclaredAsClass n (field_class f)))
    | (Some e, after) =>
        if is_TypeError e then
          if is_instance f then inr (hooked f after)
          else inl (TypeError (FieldDeclaredAsClass n (field_class f)))
        else inl e
    end.
Proof.
  unfold bind_field, try_bind.
  destruct (on_bind_field self n (flag_field self n f)) as [[e|] after].
  - done.
  - by destruct (is_instance f).
Qed.

Lemma bind_field_inr self n f g :
  bind_field self n f = inr g ->
  is_instance f = true
  /\ exists after,
       (on_bind_field self n (flag_field self n f) = (None, after)
        /\ g = _add_to_schema n self (hooked f after))
       \/ (exists e,
             on_bind_field self n (flag_field self n f) = (Some e, after)
             /\ is_TypeError e = true /\ g = hooked f after).
Proof.
  rewrite bind_field_cases.
  destruct (on_bind_field self n (flag_field self n f)) as [[e|] after].
  - destruct (is_TypeError e) eqn:He; [|done].
    destruct (is_instance f); [|done]. intros [= <-]. split; [done|].
    exists after. right. by exists e.
  - destruct (is_instance f); [|done]. intros [= <-]. split; [done|].
    exists after. by left.
Qed.

Lemma bind_field_inl self n f e :
  bind_field self n f = inl e ->
  (is_instance f = false
   /\ e = TypeError (FieldDeclaredAsClass n (field_class f)))
  \/ (exists after,
        on_bind_field self n (flag_field self n f) = (Some e, after)
        /\ is_TypeError e = false).
Proof.
  rewrite bind_field_cases.
  destruct (on_bind_field self n (flag_field self n f)) as [[e'|] after].
  - destruct (is_TypeError e') eqn:He.
    + destruct (is_instance f); [done|]. intros [= <-]. by left.
    + intros [= <-]. right. by exists after.
  - destruct (is_instance f); [done|]. intros [= <-]. by left.
Qed.

Lemma set_attrs_loop_spec self items acc :
  NoDup items.*1 ->
  match set_attrs_loop self items acc with
  | inr d' =>
      (forall n f, (n, f) ∈ items ->
         exists g, bind_field self n f = inr g /\ d' !! n = Some g)
      /\ (forall n, n ∉ items.*1 -> d' !! n = acc !! n)
  | inl e => exists n f, (n, f) ∈ items /\ bind_field self n f = inl e
  end.
Proof.
  revert acc. induction items as [|[n0 f0] items IH]; intros acc Hnd; simpl.
  - split; [|done]. intros n f Hin. by apply elem_of_nil in Hin.
  - apply NoDup_cons in Hnd as [Hn0 Hnd].
    destruct (bind_field self n0 f0) as [e|g0] eqn:Hbind.
    + exists n0, f0. split; [left|done].
    + specialize (IH (<[n0:=g0]> acc) Hnd).
      destruct (set_attrs_loop self items (<[n0:=g0]> acc)) as [e|d'].
      * destruct IH as (n & f & Hin & Hb). exists n, f.
        split; [by right|done].
      * destruct IH as [Hin Hout]. split.
        -- intros n f Hnf. apply elem_of_cons in Hnf as [[= -> ->]|Hnf].
           ++ exists g0. split; [done|].
              rewrite Hout by done. apply lookup_insert_eq.
           ++ by apply Hin.
        -- intros n Hn. apply not_elem_of_cons in Hn as [Hne Hn].
           rewrite Hout by done. by apply lookup_insert_ne.
Qed.

Lemma set_field_attrs_spec self (fields_dict : gmap string field) :
  match __set_field_attrs self fields_dict with
  | inr bound =>
      dom bound = dom fields_dict
      /\ forall n f, fields_dict !! n = Some f ->
           exists g, bind_field self n f = inr g /\ bound !! n = Some g
  | inl e =>
      exists n f, fields_dict !! n = Some f /\ bind_field self n f = inl e
  end.
Proof.
  unfold __set_field_attrs.
  pose proof (set_attrs_loop_spec self (map_to_list fields_dict) fields_dict
                (NoDup_fst_map_to_list fields_dict)) as Hspec.
  destruct (set_attrs_loop self (map_to_list fields_dict) fields_dict)
    as [e|bound].
  - destruct Hspec as (n & f & Hin & Hb). exists n, f.
    by apply elem_of_map_to_list in Hin.
  - destruct Hspec as [Hin Hout].
    assert (Hall : forall n f, fields_dict !! n = Some f ->
              exists g, bind_field self n f = inr g /\ bound !! n = Some g).
    { intros n f Hn. apply Hin. by apply elem_of_map_to_list. }
    split; [|done].
    apply set_eq. intros n. rewrite !elem_of_dom. split.
    + intros [g Hg]. destruct (fields_dict !! n) as [f|] eqn:Hn; [by eexists|].
      rewrite Hout in Hg; [by rewrite Hn in Hg|].
      intros Hk. apply list_elem_of_fmap in Hk as ([n' f'] & -> & Hk).
      apply elem_of_map_to_list in Hk. simpl in Hn. congruence.
    + intros [f Hf]. destruct (Hall n f Hf) as (g & _ & Hg). by eexists.
Qed.

(** X8. [__set_field_attrs] fails exactly when some field of the
    dictionary was declared as a class instead of an instance, with the
    [TypeError] of the source that names it, or when [on_bind_field]
    raises, for some field, an exception that is not a [TypeError], which
    passes as it is.  Otherwise it keeps the key set, every field is an
    instance, and every field has its flags set, has been through the hook
    and is bound to the schema; except that a [TypeError] raised by the
    hook for an instance is swallowed, which leaves that field unbound. *)
Theorem set_field_attrs_outcome self (fields_dict : gmap string field) :
  match __set_field_attrs self fields_dict with
  | inr bound =>
      dom bound = dom fields_dict
      /\ forall n f, fields_dict !! n = Some f ->
           is_instance f = true
           /\ exists after,
                (on_bind_field self n (flag_field self n f) = (None, after)
                 /\ bound !! n = Some (_add_to_schema n self (hooked f after)))
                \/ (exists e,
                      on_bind_field self n (flag_field self n f)
                      = (Some e, after)
                      /\ is_TypeError e = true
                      /\ bound !! n = Some (hooked f after))
  | inl e =>
      exists n f,
        fields_dict !! n = Some f
        /\ ((is_instance f = false
             /\ e = TypeError (FieldDeclaredAsClass n (field_class f)))
            \/ (exists after,
                  on_bind_field self n (flag_field self n f) = (Some e, after)
                  /\ is_TypeError e = false))
  end.
Proof.
  pose proof (set_field_attrs_spec self fields_dict) as Hspec.
  destruct (__set_field_attrs self fields_dict) as [e|bound].
  - destruct Hspec as (n & f & Hn & Hb). exists n, f. split; [done|].
    by apply bind_field_inl.
  - destruct Hspec as [Hdom Hall]. split; [done|]. intros n f Hn.
    destruct (Hall n f Hn) as (g & Hb & Hg).
    apply bind_field_inr in Hb as (Hinst & after & Hcases).
    split; [done|]. exists after.
    destruct Hcases as [[Ho ->]|(e & Ho & He & ->)]; [by left|].
    right. by exists e.
Qed.

(** ** Resolving the fields of an instance *)

Lemma filter_loop_dom {CA : ClassAttributes} self rep keys ret :
  filter_loop self rep keys ∅ = inr ret ->
  dom ret = list_to_set keys.
Proof.
  intros Hloop. pose proof (filter_loop_spec self rep keys ∅) as Hspec.
  rewrite Hloop in Hspec. destruct Hspec as [Hin Hout].
  apply set_eq. intros n. rewrite elem_of_dom, elem_of_list_to_set. split.
  - intros [f Hf]. destruct (decide (n ∈ keys)) as [|Hn]; [done|].
    rewrite Hout in Hf by done. by rewrite lookup_empty in Hf.
  - intros Hn. destruct (Hin n Hn) as (f & _ & Hf). by exists f.
Qed.

Lemma filter_fields_dom {CA : ClassAttributes} self names obj many rep ret :
  representative obj many = inr (Some rep) ->
  __filter_fields self names obj many = inr ret ->
  dom ret = names.
Proof.
  unfold representative, __filter_fields. intros Hrep Hret.
  destruct (truthy obj && many).
  - rewrite Hrep in Hret. apply filter_loop_dom in Hret.
    rewrite Hret. apply set_eq. intros n.
    by rewrite elem_of_list_to_set, elem_of_elements.
  - apply filter_loop_dom in Hret.
    rewrite Hret. apply set_eq. intros n.
    by rewrite elem_of_list_to_set, elem_of_elements.
Qed.

Lemma field_names_not_excluded self n :
  n ∈ field_names self -> n ∉ excludes self.
Proof.
  unfold field_names. case_bool_decide as Hex.
  - intros Hn. by apply elem_of_difference in Hn as [_ Hn].
  - intros _. rewrite Hex. apply not_elem_of_empty.
Qed.

Lemma update_fields_inr {CA : ClassAttributes} self obj many self' :
  _update_fields self obj many = inr self' ->
  exists ret bound,
    __filter_fields self (field_names self) obj many = inr ret
    /\ __set_field_attrs self ret = inr bound
    /\ self' = set_fields self (rebind_declared (declared_fields self) bound)
                 bound.
Proof.
  unfold _update_fields.
  destruct (__filter_fields _ _ _ _) as [e|ret]; [done|].
  destruct (__set_field_attrs self ret) as [e|bound] eqn:Hb; [done|].
  intros [= <-]. by exists ret, bound.
Qed.

Lemma set_field_attrs_dom self ret bound :
  __set_field_attrs self ret = inr bound -> dom bound = dom ret.
Proof.
  intros Hb. pose proof (set_field_attrs_spec self ret) as Hspec.
  rewrite Hb in Hspec. by destruct Hspec.
Qed.

Lemma rebind_declared_lookup declared ret n :
  rebind_declared declared ret !! n
  = (fun f => default f (ret !! n)) <$> declared !! n.
Proof.
  unfold rebind_declared. rewrite map_lookup_imap.
  by destruct (declared !! n).
Qed.

Lemma rebind_declared_dom declared ret :
  dom (rebind_declared declared ret) = dom declared.
Proof.
  apply set_eq. intros n. rewrite !elem_of_dom, rebind_declared_lookup.
  by rewrite fmap_is_Some.
Qed.

Lemma field_names_set_fields self declared fs :
  dom declared = dom (declared_fields self) ->
  field_names (set_fields self declared fs) = field_names self.
Proof.
  intros Hdom. unfold field_names, selected_field_names, excludes. simpl.
  by rewrite Hdom.
Qed.

(** X10. When there is an item to infer from, [_update_fields] binds
    exactly the selected names, and no name excluded at class or instance
    level is among the [fields]. *)
Theorem update_fields_selects_field_names {CA : ClassAttributes} self obj many rep self' :
  representative obj many = inr (Some rep) ->
  _update_fields self obj many = inr self' ->
  dom (self_fields self') = field_names self
  /\ field_names self' = field_names self
  /\ forall n, n ∈ excludes self -> self_fields self' !! n = None.
Proof.
  intros Hrep Hupd.
  apply update_fields_inr in Hupd as (ret & bound & Hret & Hbound & ->).
  apply (filter_fields_dom _ _ _ _ _ _ Hrep) in Hret.
  apply set_field_attrs_dom in Hbound. simpl.
  assert (Hdom : dom bound = field_names self) by congruence.
  split; [done|]. split.
  - apply field_names_set_fields, rebind_declared_dom.
  - intros n Hn. apply not_elem_of_dom. rewrite Hdom.
    intros Hin. by apply field_names_not_excluded in Hin.
Qed.

Lemma filter_loop_falsy {CA : ClassAttributes} self rep keys acc :
  truthy rep = false -> exists ret, filter_loop self rep keys acc = inr ret.
Proof.
  intros Hrep. pose proof (filter_loop_spec self rep keys acc) as Hspec.
  destruct (filter_loop self rep keys acc) as [e|ret]; [|by eexists].
  destruct Hspec as (k & _ & Hres). unfold resolve_field in Hres.
  destruct (declared_fields self !! k); [done|]. by rewrite Hrep in Hres.
Qed.

Lemma filter_loop_instances {CA : ClassAttributes} self rep keys ret :
  (forall n f, declared_fields self !! n = Some f -> is_instance f = true) ->
  filter_loop self rep keys ∅ = inr ret ->
  forall n f, ret !! n = Some f -> is_instance f = true.
Proof.
  intros Hdecl Hloop n f Hn.
  pose proof (filter_loop_spec self rep keys ∅) as Hspec.
  rewrite Hloop in Hspec. destruct Hspec as [Hin Hout].
  destruct (decide (n ∈ keys)) as [Hk|Hk].
  - destruct (Hin n Hk) as (g & Hres & Hg). rewrite Hn in Hg.
    injection Hg as <-. unfold resolve_field in Hres.
    destruct (declared_fields self !! n) as [d|] eqn:Hd.
    + injection Hres as <-. by eapply Hdecl.
    + destruct (truthy rep).
      * destruct (attribute_type rep n); by simplify_eq.
      * by simplify_eq.
  - rewrite Hout in Hn by done. by rewrite lookup_empty in Hn.
Qed.

(** X9. A schema whose declared fields are all instances, and whose
    [on_bind_field] raises nothing but [TypeError], can always be
    constructed: with no object to inspect, an undeclared name never
    raises a lookup error.  The instance has the options of its class, the
    declared names of its class, and exactly the selected names as
    [fields]. *)
Theorem init_succeeds_when_fields_are_instances {CA : ClassAttributes}
    c a declared class_opts :
  k_declared_fields (cls c) = Some declared ->
  k_opts (cls c) = Some class_opts ->
  (forall n f, declared !! n = Some f -> is_instance f = true) ->
  (forall n f e after,
     cls_on_bind_field c n f = (Some e, after) -> is_TypeError e = true) ->
  exists self,
    BaseSchema_init c a = inr self
    /\ opts self = class_opts
    /\ dom (declared_fields self) = dom declared
    /\ dom (self_fields self) = field_names self.
Proof.
  intros Hdecl Hopts Hinst Hhook. unfold BaseSchema_init.
  rewrite Hdecl, Hopts.
  match goal with |- context [_update_fields ?s VNone _] => set (self0 := s) end.
  unfold _update_fields, __filter_fields. simpl.
  destruct (filter_loop_falsy self0 VNone (elements (field_names self0)) ∅
              eq_refl) as [ret Hret].
  rewrite Hret.
  pose proof (set_field_attrs_spec self0 ret) as Hspec.
  destruct (__set_field_attrs self0 ret) as [e|bound].
  - destruct Hspec as (n & f & Hn & Hb).
    apply bind_field_inl in Hb as [[Hcls _]|(after & Ho & He)].
    + by rewrite (filter_loop_instances self0 VNone _ ret Hinst Hret n f Hn)
        in Hcls.
    + apply Hhook in Ho. congruence.
  - destruct Hspec as [Hdom _]. eexists. split; [done|]. simpl.
    split; [done|]. split; [apply rebind_declared_dom|].
    rewrite field_names_set_fields by apply rebind_declared_dom.
    rewrite Hdom. apply filter_loop_dom in Hret. rewrite Hret.
    apply set_eq. intros n. by rewrite elem_of_list_to_set, elem_of_elements.
Qed.

Lemma PersonSchema_can_be_instantiated :
  exists self,
    BaseSchema_init (plain PersonSchema_k) without_email = inr self
    /\ opts self = default default_opts (k_opts PersonSchema_k)
    /\ dom (declared_fields self)
       = dom (default ∅ (k_declared_fields PersonSchema_k))
    /\ dom (self_fields self) = field_names self.
Proof.
  apply (init_succeeds_when_fields_are_instances (plain PersonSchema_k)
           without_email).
  - vm_compute. reflexivity.
  - vm_compute. reflexivity.
  - intros n f Hn.
    assert (Hall : map_Forall (fun _ f => is_instance f = true)
                     (default ∅ (k_declared_fields PersonSchema_k))).
    { apply map_Forall_to_list. vm_compute. repeat constructor. }
    by apply (Hall n f).
  - intros n f e after Ho. discriminate Ho.
Defined.

Lemma excluded_email_is_not_bound :
  dom (self_fields person_without_email) = field_names person_without_email
  /\ field_names person_without_email = field_names person_without_email
  /\ forall n, n ∈ excludes person_without_email ->
       self_fields person_without_email !! n = None.
Proof.
  apply (update_fields_selects_field_names person_without_email a_person false
           a_person person_without_email).
  - reflexivity.
  - vm_compute. reflexivity.
Defined.

(** X11. When [many] is set and the truthy object has no first item,
    [_update_fields] makes [fields] the declared fields themselves: every
    declared name is bound, [only] and [exclude] notwithstanding. *)
Theorem no_first_item_binds_all_declared_fields {CA : ClassAttributes} self obj self' :
  truthy obj = true ->
  first_item obj = inr None ->
  _update_fields self obj true = inr self' ->
  self_fields self' = declared_fields self'
  /\ dom (self_fields self') = dom (declared_fields self).
Proof.
  intros Htruthy Hfirst Hupd.
  apply update_fields_inr in Hupd as (ret & bound & Hret & Hbound & ->).
  unfold __filter_fields in Hret. rewrite Htruthy, Hfirst in Hret.
  simpl in Hret. injection Hret as <-.
  apply set_field_attrs_dom in Hbound. simpl. split; [|done].
  apply map_eq. intros n. rewrite rebind_declared_lookup.
  destruct (declared_fields self !! n) as [f|] eqn:Hn; simpl.
  - assert (is_Some (bound !! n)) as [g Hg].
    { apply elem_of_dom. rewrite Hbound. apply elem_of_dom. by eexists. }
    by rewrite Hg.
  - apply not_elem_of_dom. rewrite Hbound. by apply not_elem_of_dom.
Qed.

Lemma empty_cursor_binds_excluded_email :
  self_fields person_without_email_on_cursor
  = declared_fields person_without_email_on_cursor
  /\ dom (self_fields person_without_email_on_cursor)
     = dom (declared_fields person_without_email).
Proof.
  apply (no_first_item_binds_all_declared_fields person_without_email
           (VCursor []) person_without_email_on_cursor).
  - reflexivity.
  - reflexivity.
  - vm_compute. reflexivity.
Defined.

(** X12. [_update_fields] never adds or removes a declared name; the
    declared fields that are not selected are left as they are, and a
    selected declared field is one object in [declared_fields] and
    [fields], so that what binding writes on it shows in both. *)
Theorem update_fields_shares_declared_fields {CA : ClassAttributes} self obj many rep self' :
  representative obj many = inr (Some rep) ->
  _update_fields self obj many = inr self' ->
  dom (declared_fields self') = dom (declared_fields self)
  /\ (forall n, n ∉ field_names self ->
        declared_fields self' !! n = declared_fields self !! n)
  /\ (forall n, n ∈ field_names self -> is_Some (declared_fields self !! n) ->
        declared_fields self' !! n = self_fields self' !! n).
Proof.
  intros Hrep Hupd.
  apply update_fields_inr in Hupd as (ret & bound & Hret & Hbound & ->).
  apply (filter_fields_dom _ _ _ _ _ _ Hrep) in Hret.
  apply set_field_attrs_dom in Hbound. simpl.
  assert (Hdom : dom bound = field_names self) by congruence.
  split; [apply rebind_declared_dom|]. split.
  - intros n Hn. rewrite rebind_declared_lookup.
    assert (Hnone : bound !! n = None)
      by (apply not_elem_of_dom; by rewrite Hdom).
    rewrite Hnone. by destruct (declared_fields self !! n).
  - intros n Hn [f Hf]. rewrite rebind_declared_lookup, Hf. simpl.
    assert (is_Some (bound !! n)) as [g Hg]
      by (apply elem_of_dom; by rewrite Hdom).
    by rewrite Hg.
Qed.

Lemma excluded_email_keeps_its_declaration :
  dom (declared_fields person_without_email)
  = dom (declared_fields person_without_email)
  /\ (forall n, n ∉ field_names person_without_email ->
        declared_fields person_without_email !! n
        = declared_fields person_without_email !! n)
  /\ (forall n, n ∈ field_names person_without_email ->
        is_Some (declared_fields person_without_email !! n) ->
        declared_fields person_without_email !! n
        = self_fields person_without_email !! n).
Proof.
  apply (update_fields_shares_declared_fields person_without_email a_person
           false a_person person_without_email).
  - reflexivity.
  - vm_compute. reflexivity.
Defined.

(** ** The field set of a call *)






(** ** Hooks *)

Lemma fold_M_app {A B} (f : B -> A -> M B) l1 l2 b s :
  fold_M f (l1 ++ l2) b s = bind (fold_M f l1 b) (fold_M f l2) s.
Proof.
  revert b s. induction l1 as [|x l1 IH]; intros b s; simpl; [reflexivity|].
  unfold bind in *. destruct (f b x s) as [[e|b'] s']; [reflexivity|].
  apply IH.
Qed.

Lemma fold_M_skip {A B} (f : B -> A -> M B) l b s :
  (forall x, x ∈ l -> forall s', f b x s' = (inr b, s')) ->
  fold_M f l b s = (inr b, s).
Proof.
  induction l as [|x l IH]; intros Hf; simpl; [done|].
  unfold bind. rewrite Hf by left. apply IH. intros y Hy. apply Hf. by right.
Qed.

Lemma invoke_processor_no_items t original p s :
  invoke_processor t false true original (VList []) p s = (inr (VList []), s).
Proof. done. Qed.

(** X13. Over an empty collection a per-item hook is never called: the
    trace is unchanged and the result is the empty list (an empty tuple
    becomes a list), or the data itself when no hook is registered. *)
Theorem item_hooks_skip_an_empty_collection self t data original s :
  iter_items data = inr [] ->
  _invoke_processors self t false data true original s
  = (inr (if nonempty (processors self t false) then VList [] else data), s).
Proof.
  intros Hitems. unfold _invoke_processors.
  destruct (processors self t false) as [|p ps]; [done|]. simpl.
  unfold bind at 1. unfold invoke_processor at 1. unfold bind at 1.
  unfold lift at 1. rewrite Hitems. simpl.
  apply (fold_M_skip (invoke_processor t false true original)).
  intros. apply invoke_processor_no_items.
Qed.

Lemma empty_tuple_becomes_empty_list :
  _invoke_processors envelope_schema POST_DUMP false (VTuple []) true VNone
    initial_state
  = (inr (if nonempty (processors envelope_schema POST_DUMP false)
          then VList [] else VTuple []), initial_state).
Proof.
  apply (item_hooks_skip_an_empty_collection envelope_schema POST_DUMP
           (VTuple []) VNone initial_state).
  reflexivity.
Defined.

(** X14. Hooks that return [None] leave the data as it is
    ([utils.if_none]), for batch hooks and for hooks on a single object. *)
Theorem hooks_returning_None_keep_the_data
    self t pass_many data many original s :
  many && negb pass_many = false ->
  (forall p, p ∈ processors self t pass_many ->
             forall args, p_call p args = inr VNone) ->
  (_invoke_processors self t pass_many data many original s).1 = inr data.
Proof.
  intros Hmode. unfold _invoke_processors. revert s.
  induction (processors self t pass_many) as [|p ps IH]; intros s Hnone;
    simpl; [done|].
  assert (Hp : forall s0,
            (invoke_processor t pass_many many original data p s0).1
            = inr data).
  { intros s0. unfold invoke_processor.
    destruct pass_many.
    - unfold bind, call_processor, bind, log, lift. simpl.
      by rewrite (Hnone p) by left.
    - destruct many; [done|].
      unfold bind, call_processor, bind, log, lift. simpl.
      by rewrite (Hnone p) by left. }
  unfold bind. specialize (Hp s).
  destruct (invoke_processor t pass_many many original data p s) as [r s'].
  simpl in Hp. subst r. apply IH. intros q Hq. apply Hnone. by right.
Qed.

Lemma envelope_hooks_keep_a_person :
  (_invoke_processors envelope_schema POST_DUMP true a_person false a_person
     initial_state).1 = inr a_person.
Proof.
  apply (hooks_returning_None_keep_the_data envelope_schema POST_DUMP true
           a_person false a_person initial_state).
  - reflexivity.
  - intros p Hp args.
    apply list_elem_of_singleton in Hp. by subst p.
Defined.

(** ** The order of hook calls *)

Lemma emits_then_r {A} (m : M A) φ1 φ2 : emits m φ2 -> emits_then m φ1 φ2.
Proof.
  intros Hm s. destruct (Hm s) as (t & Ht & Hall).
  exists [], t. by repeat split.
Qed.

Lemma emits_then_seq {A B} (m : M A) (k : A -> M B) φ1 φ2 :
  emits m φ1 -> (forall a, emits (k a) φ2) -> emits_then (bind m k) φ1 φ2.
Proof.
  intros Hm Hk. apply emits_then_bind_l; [done|].
  intros a. by apply emits_then_r.
Qed.

Lemma emits_then_before {A} (m : M A) (φ1 φ2 P Q : event -> Prop) s t :
  emits_then m φ1 φ2 ->
  (forall ev, φ1 ev -> ~ Q ev) -> (forall ev, φ2 ev -> ~ P ev) ->
  trace (m s).2 = trace s ++ t ->
  all_before P Q t.
Proof.
  intros Hm H1 H2 Ht. destruct (Hm s) as (t1 & t2 & Ht' & Hall1 & Hall2).
  rewrite Ht in Ht'. apply app_inv_head in Ht'. subst t.
  intros i j e1 e2 Hi Hj HP HQ.
  rewrite Forall_lookup in Hall1. rewrite Forall_lookup in Hall2.
  apply lookup_app_Some in Hi as [Hi|[Hlen Hi]].
  - apply lookup_lt_Some in Hi as Hlt.
    apply lookup_app_Some in Hj as [Hj|[Hlen Hj]]; [|lia].
    by destruct (H1 _ (Hall1 _ _ Hj)).
  - by destruct (H2 _ (Hall2 _ _ Hi)).
Qed.

Lemma emits_events {A} (m : M A) φ s :
  emits m φ -> exists t, trace (m s).2 = trace s ++ t.
Proof. intros Hm. destruct (Hm s) as (t & Ht & _). by exists t. Qed.

Lemma emits_forall {A} (m : M A) φ s t :
  emits m φ -> trace (m s).2 = trace s ++ t -> Forall φ t.
Proof.
  intros Hm Ht. destruct (Hm s) as (t' & Ht' & Hall).
  rewrite Ht in Ht'. apply app_inv_head in Ht'. by subst.
Qed.

Lemma dump_unfold {CA : ClassAttributes} Ma self obj many update_fields s :
  dump Ma self obj many update_fields s
  = bind (_invoke_dump_processors self PRE_DUMP (materialize obj)
            (default (self_many self) many) (materialize obj))
      (dump_processed Ma self (materialize obj)
         (default (self_many self) many) update_fields) s.
Proof. reflexivity. Qed.

Lemma emits_dump_processed {CA : ClassAttributes}
    Ma self obj many update_fields processed
    (φ : event -> Prop) :
  (forall errs o, φ (EvHandleError (inr errs) o)) ->
  (forall pass_many n args, φ (EvProcessor POST_DUMP pass_many n args)) ->
  emits (dump_processed Ma self obj many update_fields processed) φ.
Proof.
  intros Hh Hp. unfold dump_processed.
  apply emits_bind.
  { destruct update_fields; [apply emits_lift|apply emits_ret]. }
  intros self'. apply emits_bind.
  { apply emits_try_except.
    - apply emits_bind; [apply emits_lift_m|]. intros; apply emits_ret.
    - intros.
      destruct (self_strict self'); [apply emits_raise|apply emits_ret]. }
  intros [preresult failed]. apply emits_bind; [by apply emits_postprocess|].
  intros result. apply emits_bind; [by apply emits_invoke_dump_processors|].
  intros result'.
  apply (emits_dump_errors failed (fun errors => (self', (result', errors)))).
Qed.

(** X16. In every dump, the per-item [pre_dump] hooks are called before
    the batch ones, every [pre_dump] hook before the error handler and
    before any [post_dump] hook, and the error handler before any
    [post_dump] hook. *)
Theorem dump_calls_pre_dump_hooks_first {CA : ClassAttributes}
    Ma self obj many update_fields s :
  exists t,
    trace (dump Ma self obj many update_fields s).2 = trace s ++ t
    /\ all_before (is_hook PRE_DUMP false) (is_hook PRE_DUMP true) t
    /\ all_before (any_hook PRE_DUMP) is_handler_call t
    /\ all_before (any_hook PRE_DUMP) (any_hook POST_DUMP) t
    /\ all_before is_handler_call (any_hook POST_DUMP) t.
Proof.
  assert (Hall : emits (dump Ma self obj many update_fields) (fun _ => True)).
  { intros s0. rewrite dump_unfold. revert s0. apply emits_bind.
    - by apply emits_invoke_dump_processors.
    - intros. by apply emits_dump_processed. }
  destruct (emits_events _ _ s Hall) as [t Ht]. exists t. split; [done|].
  split; [|split; [|split]].
  - eapply (emits_then_before _ (fun ev => ~ is_hook PRE_DUMP true ev)
              (fun ev => ~ is_hook PRE_DUMP false ev)); [|done|done|exact Ht].
    intros s0. rewrite dump_unfold. revert s0.
    apply emits_then_bind_r.
    + unfold _invoke_dump_processors.
      apply emits_then_bind_l.
      { apply emits_invoke_processors. intros n args [_ ?]. done. }
      intros d. apply emits_then_r. apply emits_bind; [|intros; apply emits_ret].
      apply emits_invoke_processors. intros n args [_ ?]. done.
    + intros processed. apply emits_dump_processed.
      * intros ?? [].
      * intros ??? [? _]. done.
  - eapply (emits_then_before _ (fun ev => ~ is_handler_call ev)
              (fun ev => ~ any_hook PRE_DUMP ev)); [|done|done|exact Ht].
    intros s0. rewrite dump_unfold. revert s0. apply emits_then_seq.
    + apply emits_invoke_dump_processors. intros ??? [].
    + intros processed. apply emits_dump_processed.
      * intros ?? [? []].
      * intros ??? [? [? _]]. done.
  - eapply (emits_then_before _ (fun ev => ~ any_hook POST_DUMP ev)
              (fun ev => ~ any_hook PRE_DUMP ev)); [|done|done|exact Ht].
    intros s0. rewrite dump_unfold. revert s0. apply emits_then_seq.
    + apply emits_invoke_dump_processors. intros ??? [? [? _]]. done.
    + intros processed. apply emits_dump_processed.
      * intros ?? [? []].
      * intros ??? [? [? _]]. done.
  - eapply (emits_then_before _ (fun ev => ~ any_hook POST_DUMP ev)
              (fun ev => ~ is_handler_call ev)); [|done|done|exact Ht].
    intros s0. rewrite dump_unfold. revert s0. apply emits_then_bind_l.
    { apply emits_invoke_dump_processors. intros ??? [? [? _]]. done. }
    intros processed. unfold dump_processed.
    apply emits_then_bind_l.
    { destruct update_fields; [apply emits_lift|apply emits_ret]. }
    intros self'. apply emits_then_bind_l.
    { apply emits_try_except.
      - apply emits_bind; [apply emits_lift_m|]. intros; apply emits_ret.
      - intros.
        destruct (self_strict self'); [apply emits_raise|apply emits_ret]. }
    intros [preresult failed]. apply emits_then_seq.
    + apply emits_postprocess. intros ? [? []].
    + intros result. apply emits_bind.
      * apply emits_invoke_dump_processors. intros ??? [].
      * intros result'.
        apply (emits_dump_errors failed
                 (fun errors => (self', (result', errors)))).
Qed.

Section more_on_load.

Variable U : Unmarshaller.

Lemma emits_load_tail self data many partial processed_data φ :
  emits
    (do result <-
       try_except
         (lift_u (unmarshal U processed_data (self_fields self) many partial
                    (self_ordered self) (opts_index_errors (opts self))))
         (fun _ _ _ error_data => ret error_data);
     _invoke_field_validators U self result many;;
     run_schema_validators U self result data many;;
     ret result) φ.
Proof.
  apply emits_bind.
  { apply emits_try_except; [apply emits_lift_u|]. intros. apply emits_ret. }
  intros result. apply emits_bind; [apply emits_invoke_field_validators|].
  intros _. apply emits_bind; [apply emits_run_schema_validators|].
  intros _. apply emits_ret.
Qed.

Lemma emits_load_stages_any self data many partial (φ : event -> Prop) :
  (forall pass_many n args, φ (EvProcessor PRE_LOAD pass_many n args)) ->
  emits (load_stages U self data many partial) φ.
Proof.
  intros H. apply emits_bind; [by apply emits_invoke_load_processors|].
  intros processed_data. apply emits_load_tail.
Qed.

Lemma emits_report_errors self data (φ : event -> Prop) :
  (forall errs d, φ (EvErrorHandler errs d)) ->
  (forall e d, φ (EvHandleError e d)) ->
  emits (report_errors self data) φ.
Proof.
  intros Hold Hnew. unfold report_errors.
  apply emits_bind; [by apply emits_silent|]. intros errs.
  case_bool_decide; [|apply emits_ret].
  apply emits_bind.
  - destruct (__error_handler__ self); [|apply emits_ret].
    apply emits_run_handler; [done|]. intros. apply emits_set_errors.
  - intros _. apply emits_bind; [by apply emits_silent|]. intros u.
    apply emits_bind.
    + apply emits_run_handler; [done|]. intros. apply emits_set_errors.
    + intros _. destruct (self_strict self); [|apply emits_ret].
      apply emits_bind; [by apply emits_silent|]. intros.
      apply emits_raise.
Qed.

Lemma emits_return_loaded self data many postprocess result
    (φ : event -> Prop) :
  (postprocess = true ->
   forall pass_many n args, φ (EvProcessor POST_LOAD pass_many n args)) ->
  emits (return_loaded self data many postprocess result) φ.
Proof.
  intros Hpost. unfold return_loaded.
  apply emits_bind; [by apply emits_silent|]. intros errs.
  apply emits_bind.
  - destruct postprocess; [|rewrite andb_false_r; apply emits_ret].
    destruct (bool_decide _); simpl; [|apply emits_ret].
    apply emits_invoke_load_processors. by apply Hpost.
  - intros result'. apply emits_bind; [by apply emits_silent|].
    intros. apply emits_ret.
Qed.

Lemma emits_finish_load self data many postprocess result
    (φ : event -> Prop) :
  (forall errs d, φ (EvErrorHandler errs d)) ->
  (forall e d, φ (EvHandleError e d)) ->
  (postprocess = true ->
   forall pass_many n args, φ (EvProcessor POST_LOAD pass_many n args)) ->
  emits (finish_load self data many postprocess result) φ.
Proof.
  intros Hold Hnew Hpost. unfold finish_load.
  apply emits_bind; [by apply emits_report_errors|].
  intros _. by apply emits_return_loaded.
Qed.

(** X15. In every load, the batch [pre_load] hooks are called before
    the per-item ones, the batch [post_load] hooks before the per-item
    ones, and every [pre_load] hook before any [post_load] hook. *)
Theorem load_calls_batch_hooks_first self data many partial postprocess s :
  exists t,
    trace (_do_load U self data many partial postprocess s).2 = trace s ++ t
    /\ all_before (is_hook PRE_LOAD true) (is_hook PRE_LOAD false) t
    /\ all_before (is_hook POST_LOAD true) (is_hook POST_LOAD false) t
    /\ all_before (any_hook PRE_LOAD) (any_hook POST_LOAD) t.
Proof.
  assert (Hall : emits (_do_load U self data many partial postprocess)
                   (fun _ => True)).
  { apply emits_bind; [by apply emits_load_stages_any|].
    intros. by apply emits_finish_load. }
  destruct (emits_events _ _ s Hall) as [t Ht]. exists t. split; [done|].
  split; [|split].
  - eapply (emits_then_before _ (fun ev => ~ is_hook PRE_LOAD false ev)
              (fun ev => ~ is_hook PRE_LOAD true ev)); [|done|done|exact Ht].
    unfold _do_load. apply emits_then_bind_r.
    + unfold load_stages. apply emits_then_bind_r; [|intros; apply emits_load_tail].
      unfold _invoke_load_processors. apply emits_then_bind_l.
      { apply emits_invoke_processors. intros n args [_ ?]. done. }
      intros d. apply emits_then_r.
      apply emits_bind; [|intros; apply emits_ret].
      apply emits_invoke_processors. intros n args [_ ?]. done.
    + intros result. apply emits_finish_load.
      * intros ?? [].
      * intros ?? [].
      * intros _ ??? [? _]. done.
  - eapply (emits_then_before _ (fun ev => ~ is_hook POST_LOAD false ev)
              (fun ev => ~ is_hook POST_LOAD true ev)); [|done|done|exact Ht].
    unfold _do_load. apply emits_then_bind_l.
    { apply emits_load_stages_any. intros ??? [? _]. done. }
    intros result. unfold finish_load.
    apply emits_then_bind_l.
    { apply emits_report_errors; intros ?? []. }
    intros _. unfold return_loaded.
    apply emits_then_bind_l; [by apply emits_silent|]. intros errs.
    apply emits_then_bind_r.
    2:{ intros result'. apply emits_bind; [by apply emits_silent|].
        intros. apply emits_ret. }
    destruct (bool_decide _ && postprocess);
      [|apply emits_then_l, emits_ret].
    unfold _invoke_load_processors. apply emits_then_bind_l.
    { apply emits_invoke_processors. intros n args [_ ?]. done. }
    intros d. apply emits_then_r.
    apply emits_bind; [|intros; apply emits_ret].
    apply emits_invoke_processors. intros n args [_ ?]. done.
  - eapply (emits_then_before _ (fun ev => ~ any_hook POST_LOAD ev)
              (fun ev => ~ any_hook PRE_LOAD ev)); [|done|done|exact Ht].
    unfold _do_load. apply emits_then_seq.
    + apply emits_load_stages_any. intros ??? [? [? _]]. done.
    + intros result. apply emits_finish_load.
      * intros ?? [? []].
      * intros ?? [? []].
      * intros _ ??? [? [? _]]. done.
Qed.

(** X17. [validate] never calls a [post_load] hook. *)
Theorem validate_calls_no_post_load_hook self data many s :
  exists t,
    trace (validate U self data many s).2 = trace s ++ t
    /\ Forall (no_hook POST_LOAD) t.
Proof.
  assert (Hall : emits (validate U self data many) (no_hook POST_LOAD)).
  { unfold validate. apply emits_bind; [|intros; apply emits_ret].
    unfold _do_load. apply emits_bind.
    - apply emits_load_stages_any. intros ???? [? _]. done.
    - intros result. apply emits_finish_load.
      + intros ??? [].
      + intros ??? [].
      + done. }
  destruct (Hall s) as (t & Ht & Hforall). by exists t.
Qed.

End more_on_load.

(** ** Outcomes of [load] *)

Section load_outcomes.

Variable U : Unmarshaller.

(** X18. When deserialisation and validation leave no error, [_do_load]
    calls no error handler: it runs the [post_load] hooks on the result (if
    asked to) and returns what they give with an empty error dictionary. *)
Theorem load_without_errors_runs_post_load
    self data many partial postprocess s result s1 :
  load_stages U self data (default (self_many self) many)
    (effective_partial self partial) s = (inr result, s1) ->
  errors (unmarshal_st s1) = ∅ ->
  _do_load U self data many partial postprocess s
  = if postprocess
    then bind (_invoke_load_processors self POST_LOAD result
                 (default (self_many self) many) data)
           (fun result => ret (result, ∅)) s1
    else (inr (result, ∅), s1).
Proof.
  intros Hstages Hnone. unfold _do_load. unfold bind at 1. rewrite Hstages.
  unfold finish_load. unfold bind at 1.
  unfold report_errors. unfold bind at 1. unfold get_errors at 1.
  rewrite Hnone. rewrite bool_decide_false by (by intros []).
  unfold ret at 1. rewrite return_loaded_outcome, Hnone.
  rewrite bool_decide_true by done. by destruct postprocess.
Qed.

Lemma report_errors_returns self data s s' :
  report_errors self data s = (inr tt, s') ->
  errors (unmarshal_st s') ≠ ∅ -> self_strict self = false.
Proof.
  intros Hrep Hne'.
  destruct (decide (errors (unmarshal_st s) = ∅)) as [Hnone|Hne].
  - unfold report_errors in Hrep. unfold bind at 1 in Hrep.
    unfold get_errors at 1 in Hrep. rewrite Hnone in Hrep.
    rewrite bool_decide_false in Hrep by (by intros []).
    injection Hrep as <-. done.
  - rewrite (report_errors_outcome self data s Hne) in Hrep.
    destruct (first_handler _ _ _).1; [done|].
    destruct (handle_error _ _ _).1; [done|].
    by destruct (self_strict self).
Qed.

Lemma finish_load_returns self data many postprocess result s r e s' :
  finish_load self data many postprocess result s = (inr (r, e), s') ->
  e = errors (unmarshal_st s')
  /\ (self_strict self = true -> e = ∅)
  /\ (e ≠ ∅ -> r = result).
Proof.
  unfold finish_load. unfold bind at 1.
  destruct (report_errors self data s) as [[ex|[]] s1] eqn:Hrep; [done|].
  rewrite return_loaded_outcome.
  destruct (bool_decide (errors (unmarshal_st s1) = ∅) && postprocess) eqn:Hp.
  - apply andb_true_iff in Hp as [Hnone _].
    apply bool_decide_eq_true in Hnone.
    pose proof (keeps_invoke_load_processors self POST_LOAD result many data
                  s1) as Hkeep.
    unfold bind.
    destruct (_invoke_load_processors self POST_LOAD result many data s1)
      as [[ex|r'] s2]; [done|].
    unfold ret. intros [= <- <- <-]. simpl in Hkeep.
    split; [by rewrite Hkeep|]. by split.
  - intros [= <- <- <-]. split; [done|]. split; [|done].
    intros Hstrict.
    destruct (decide (errors (unmarshal_st s1) = ∅)) as [|Hne]; [done|].
    apply (report_errors_returns _ _ _ _ Hrep) in Hne. congruence.
Qed.

(** X19. The errors that [_do_load] returns are the unmarshaller's error
    dictionary as the call leaves it; a strict schema never returns a
    non-empty one; and with errors the data returned is the result of
    deserialisation, untouched by [post_load] hooks. *)
Theorem load_returns_the_unmarshaller_errors
    self data many partial postprocess s r e s' :
  _do_load U self data many partial postprocess s = (inr (r, e), s') ->
  e = errors (unmarshal_st s')
  /\ (self_strict self = true -> e = ∅)
  /\ (e ≠ ∅ ->
      exists s1,
        load_stages U self data (default (self_many self) many)
          (effective_partial self partial) s = (inr r, s1)).
Proof.
  unfold _do_load. unfold bind at 1.
  destruct (load_stages U self data _ _ s) as [[ex|result] s1] eqn:Hstages;
    [done|].
  intros Hfinish.
  apply finish_load_returns in Hfinish as (He & Hstrict & Hres).
  split; [done|]. split; [done|].
  intros Hne. rewrite (Hres Hne). by exists s1.
Qed.

End load_outcomes.

Lemma partial_person_loads_without_errors :
  _do_load spec_unmarshaller person_schema a_person None
    (Some (PartialBool true)) true initial_state
  = if true
    then bind (_invoke_load_processors person_schema POST_LOAD a_person
                 (default (self_many person_schema) None) a_person)
           (fun result => ret (result, ∅))
           (load_stages spec_unmarshaller person_schema a_person false
              (PartialBool true) initial_state).2
    else (inr (a_person, ∅),
          (load_stages spec_unmarshaller person_schema a_person false
             (PartialBool true) initial_state).2).
Proof.
  apply (load_without_errors_runs_post_load spec_unmarshaller person_schema
           a_person None (Some (PartialBool true)) true initial_state).
  - vm_compute. reflexivity.
  - vm_compute. reflexivity.
Defined.

Lemma incomplete_person_returns_the_stored_errors :
  errors (unmarshal_st
            (_do_load spec_unmarshaller person_schema only_a_name None None
               true initial_state).2)
  = errors (unmarshal_st
              (_do_load spec_unmarshaller person_schema only_a_name None None
                 true initial_state).2)
  /\ (self_strict person_schema = true ->
      errors (unmarshal_st
                (_do_load spec_unmarshaller person_schema only_a_name None
                   None true initial_state).2) = ∅)
  /\ (errors (unmarshal_st
                (_do_load spec_unmarshaller person_schema only_a_name None
                   None true initial_state).2) ≠ ∅ ->
      exists s1,
        load_stages spec_unmarshaller person_schema only_a_name
          (default (self_many person_schema) None)
          (effective_partial person_schema None) initial_state
        = (inr only_a_name, s1)).
Proof.
  apply (load_returns_the_unmarshaller_errors spec_unmarshaller person_schema
           only_a_name None None true initial_state only_a_name
           (errors (unmarshal_st
                      (_do_load spec_unmarshaller person_schema only_a_name
                         None None true initial_state).2))
           (_do_load spec_unmarshaller person_schema only_a_name None None
              true initial_state).2).
  vm_compute. reflexivity.
Defined.

(** ** Outcomes of [dump] *)

(** X20. In strict mode a marshalling error leaves [dump] at once: the
    error is raised as it is, [handle_error] is not called and no
    [post_dump] hook runs (the trace is the one the [pre_dump] hooks
    left). *)
Theorem strict_dump_raises_before_handler_and_hooks {CA : ClassAttributes}
    Ma (self : schema) obj many (update_fields : bool) s processed s1
    (self1 : schema) msgs fn fs d e1 :
  _invoke_dump_processors self PRE_DUMP (materialize obj)
    (default (self_many self) many) (materialize obj) s = (inr processed, s1) ->
  (if update_fields
   then _update_fields self processed (default (self_many self) many)
   else inr self) = inr self1 ->
  marshal Ma processed (self_fields self1) (default (self_many self) many)
    (self_ordered self1) (opts_index_errors (opts self1)) (self_prefix self1)
    (marshal_errors s1) = (inl (ValidationError msgs fn fs d), e1) ->
  self_strict self1 = true ->
  dump Ma self obj many update_fields s
  = (inl (ValidationError msgs fn fs d),
     mk_state (trace s1) (unmarshal_st s1) e1).
Proof.
  intros Hpre Hupd Hmarshal Hstrict.
  rewrite dump_unfold. unfold bind at 1. rewrite Hpre.
  unfold dump_processed. unfold bind at 1.
  assert (Hself : (if update_fields
                   then lift (_update_fields self processed
                                (default (self_many self) many))
                   else ret self) s1 = (inr self1, s1)).
  { destruct update_fields; unfold lift, ret; by rewrite Hupd || injection Hupd as ->. }
  rewrite Hself. unfold bind at 1. unfold try_except, bind at 1, lift_m.
  rewrite Hmarshal. simpl. by rewrite Hstrict.
Qed.

(** X21. An implicit field missing from the object makes [dump] raise
    the lookup error of [_update_fields], before anything is
    serialised. *)
Theorem dump_propagates_the_lookup_error {CA : ClassAttributes}
    Ma self obj many s processed s1 e :
  _invoke_dump_processors self PRE_DUMP (materialize obj)
    (default (self_many self) many) (materialize obj) s = (inr processed, s1) ->
  _update_fields self processed (default (self_many self) many) = inl e ->
  dump Ma self obj many true s = (inl e, s1).
Proof.
  intros Hpre Hupd. rewrite dump_unfold. unfold bind at 1. rewrite Hpre.
  unfold dump_processed. unfold bind at 1. unfold lift. by rewrite Hupd.
Qed.

(** X22. A strict schema never returns errors from [dump]. *)
Theorem strict_dump_returns_no_errors {CA : ClassAttributes}
    Ma self obj many update_fields s self' r errs s' :
  dump Ma self obj many update_fields s = (inr (self', (r, errs)), s') ->
  self_strict self' = true ->
  errs = ∅.
Proof.
  rewrite dump_unfold. unfold bind at 1.
  destruct (_invoke_dump_processors self PRE_DUMP _ _ _ s)
    as [[e|processed] s1]; [done|].
  unfold dump_processed. unfold bind at 1.
  destruct ((if update_fields
             then lift (_update_fields self processed
                          (default (self_many self) many))
             else ret self) s1) as [[e|self1] s2]; [done|].
  unfold bind at 1. unfold try_except, bind at 1, lift_m.
  destruct (marshal Ma processed _ _ _ _ _ _) as [[e|preresult] e1]; simpl.
  - destruct e as [| | | |m fn fs d|]; try done.
    destruct (self_strict self1) eqn:Hstrict; [done|].
    unfold ret at 1. unfold bind at 1.
    destruct (_postprocess self1 d _ _ _) as [[e|result] s3]; [done|].
    unfold bind at 1.
    destruct (_invoke_dump_processors self1 POST_DUMP _ _ _ s3)
      as [[e|result'] s4]; [done|].
    unfold bind, get_marshal_errors, ret. intros [= <- <- <- <-] Hs.
    congruence.
  - unfold ret at 1. unfold bind at 1.
    destruct (_postprocess self1 preresult _ _ _) as [[e|result] s3]; [done|].
    unfold bind at 1.
    destruct (_invoke_dump_processors self1 POST_DUMP _ _ _ s3)
      as [[e|result'] s4]; [done|].
    unfold bind, ret. by intros [= <- <- <- <-].
Qed.

Lemma strict_dump_of_a_bad_age_raises :
  dump rejecting_marshaller strict_schema a_person None false initial_state
  = (inl (ValidationError age_errors ["age"]
            [self_fields strict_schema !! "age"] (VDict ∅)),
     mk_state (trace initial_state) (unmarshal_st initial_state) age_errors).
Proof.
  apply (strict_dump_raises_before_handler_and_hooks rejecting_marshaller
           strict_schema a_person None false initial_state a_person
           initial_state strict_schema).
  - vm_compute. reflexivity.
  - reflexivity.
  - reflexivity.
  - vm_compute. reflexivity.
Defined.

Lemma dump_without_the_implicit_name_raises :
  dump spec_marshaller implicit_schema only_an_age None true initial_state
  = (inl (KeyError (NotAValidField "name" only_an_age)), initial_state).
Proof.
  apply (dump_propagates_the_lookup_error spec_marshaller implicit_schema
           only_an_age None initial_state only_an_age).
  - vm_compute. reflexivity.
  - vm_compute. reflexivity.
Defined.

Lemma strict_dump_of_a_person_has_no_errors :
  (from_inr (no_schema, (VNone, ∅))
     (dump spec_marshaller strict_schema a_person None true initial_state).1).2.2
  = ∅.
Proof.
  apply (strict_dump_returns_no_errors spec_marshaller strict_schema a_person
           None true initial_state
           (from_inr (no_schema, (VNone, ∅))
              (dump spec_marshaller strict_schema a_person None true
                 initial_state).1).1
           (from_inr (no_schema, (VNone, ∅))
              (dump spec_marshaller strict_schema a_person None true
                 initial_state).1).2.1
           _
           (dump spec_marshaller strict_schema a_person None true
              initial_state).2).
  - vm_compute. reflexivity.
  - vm_compute. reflexivity.
Defined.

(** ** Validators *)

Section more_on_validators.

Variable U : Unmarshaller.

Lemma validate_field_value_lacking v field_obj item index s :
  getitem item (v_field_name v) = inr None ->
  validate_field_value U v field_obj item index s = (inr tt, s).
Proof.
  intros Hget. unfold validate_field_value, bind, lift. by rewrite Hget.
Qed.

Lemma field_validator_step_skipped self data many v s :
  (self_fields self !! v_field_name v = None
   /\ v_field_name v ∈ dom (declared_fields self))
  \/ (is_Some (self_fields self !! v_field_name v)
      /\ lacks_key data many (v_field_name v)) ->
  match self_fields self !! v_field_name v with
  | None =>
      if bool_decide (v_field_name v ∈ dom (declared_fields self))
      then ret tt
      else raise (ValueError (FieldDoesNotExist (v_field_name v)))
  | Some field_obj =>
      if many then
        do items <- lift (iter_items data);
        fold_M (fun (_ : unit) '(idx, item) =>
                  validate_field_value U v field_obj item
                    (if opts_index_errors (opts self) then Some idx else None))
               (imap (fun idx item => (idx, item)) items) tt
      else validate_field_value U v field_obj data None
  end s = (inr tt, s).
Proof.
  intros [[Hnone Hdecl]|[[field_obj Hf] Hlack]].
  - rewrite Hnone. by rewrite bool_decide_true.
  - rewrite Hf. unfold lacks_key in Hlack. destruct many.
    + destruct Hlack as (items & Hitems & Hall).
      unfold bind, lift. rewrite Hitems.
      apply (fold_M_skip _ _ tt s). intros [idx item] Hin s'.
      apply validate_field_value_lacking.
      apply list_elem_of_lookup in Hin as [i Hi].
      apply list_lookup_imap_Some in Hi as (item' & Hitem & [= -> ->]).
      rewrite Forall_lookup in Hall. by eapply Hall.
    + by apply validate_field_value_lacking.
Qed.

(** X23. Field validators are not called for a field that is declared
    but not selected, nor for data that lacks the field's key: the call
    returns and leaves the unmarshaller as it was. *)
Theorem field_validators_skip_absent_values self data many s :
  (forall v, v ∈ field_validators self ->
     (self_fields self !! v_field_name v = None
      /\ v_field_name v ∈ dom (declared_fields self))
     \/ (is_Some (self_fields self !! v_field_name v)
         /\ lacks_key data many (v_field_name v))) ->
  _invoke_field_validators U self data many s = (inr tt, s).
Proof.
  intros Hskip. unfold _invoke_field_validators.
  apply (fold_M_skip _ (field_validators self) tt s). intros v Hv s'.
  by apply field_validator_step_skipped, Hskip.
Qed.

(** X24. A field validator registered for a name that is neither a
    selected nor a declared field makes [_invoke_field_validators] raise
    [ValueError], once the validators before it have been skipped. *)
Theorem field_validator_of_unknown_field_raises
    self data many s skipped v rest :
  field_validators self = skipped ++ v :: rest ->
  (forall w, w ∈ skipped ->
     (self_fields self !! v_field_name w = None
      /\ v_field_name w ∈ dom (declared_fields self))
     \/ (is_Some (self_fields self !! v_field_name w)
         /\ lacks_key data many (v_field_name w))) ->
  self_fields self !! v_field_name v = None ->
  v_field_name v ∉ dom (declared_fields self) ->
  _invoke_field_validators U self data many s
  = (inl (ValueError (FieldDoesNotExist (v_field_name v))), s).
Proof.
  intros Hvs Hskip Hnone Hundeclared. unfold _invoke_field_validators.
  rewrite Hvs, fold_M_app. unfold bind at 1.
  rewrite (fold_M_skip _ skipped tt s).
  - simpl. unfold bind at 1. rewrite Hnone.
    by rewrite bool_decide_false.
  - intros w Hw s'. by apply field_validator_step_skipped, Hskip.
Qed.

Lemma try_except_result {A} (body : M A) handler s m fn fs d :
  (forall m' fn' fs' d' s', exists a s'',
     handler m' fn' fs' d' s' = (inr a, s'')) ->
  (try_except body handler s).1 <> inl (ValidationError m fn fs d).
Proof.
  intros Hh. unfold try_except.
  destruct (body s) as [[e|a] s'] eqn:Hb; simpl; [|done].
  destruct e as [| | | |m' fn' fs' d'|]; try done.
  destruct (Hh m' fn' fs' d' s') as (a & s'' & ->). done.
Qed.

(** X25. The two schema-validator stages of [_do_load] never raise a
    [ValidationError]: what the validators report is caught and merged. *)
Theorem schema_validation_errors_do_not_escape
    self result data many s m fn fs d :
  (run_schema_validators U self result data many s).1
  <> inl (ValidationError m fn fs d).
Proof.
  unfold run_schema_validators. unfold bind at 1.
  pose proof (try_except_result
                (_invoke_validators U self true result data many)
                (fun messages _ _ _ => update_errors messages) s m fn fs d)
    as H1.
  destruct (try_except (_invoke_validators U self true result data many) _ s)
    as [[e|[]] s1]; simpl in *.
  - apply H1. intros. by eexists _, _.
  - apply try_except_result. intros. by eexists _, _.
Qed.

End more_on_validators.

Lemma register_all processors tags attr_name tg :
  NoDup tags ->
  foldl (fun processors tg => register processors tg attr_name) processors
    tags tg
  = processors tg ++ (if decide (tg ∈ tags) then [attr_name] else []).
Proof.
  revert processors. induction tags as [|t tags IH]; intros processors Hnd.
  - simpl. destruct (decide (tg ∈ [])) as [H|_].
    + by apply elem_of_nil in H.
    + by rewrite app_nil_r.
  - apply NoDup_cons in Hnd as [Ht Hnd]. simpl. rewrite IH by done.
    unfold register at 1.
    destruct (decide (tg = t)) as [->|Hne].
    + destruct (decide (t ∈ tags)) as [|_]; [done|].
      destruct (decide (t ∈ t :: tags)) as [_|Hnot].
      * by rewrite app_nil_r.
      * destruct Hnot. left.
    + destruct (decide (tg ∈ tags)) as [Hin|Hnot];
        destruct (decide (tg ∈ t :: tags)) as [Hin'|Hnot']; try done.
      * destruct Hnot'. by right.
      * apply elem_of_cons in Hin' as [?|?]; done.
Qed.

Lemma resolve_step mro names processors tg :
  (forall parent attr_name tags,
     parent ∈ mro -> parent !! attr_name = Some (Some tags) -> NoDup tags) ->
  foldl (fun processors attr_name =>
           match find_descriptor mro attr_name with
           | Some (Some processor_tags) =>
               foldl (fun processors tg => register processors tg attr_name)
                     processors processor_tags
           | _ => processors
           end) processors names tg
  = processors tg ++ filter (is_tagged mro tg) names.
Proof.
  intros Hnd. revert processors.
  induction names as [|n names IH]; intros processors; simpl.
  - by rewrite app_nil_r.
  - rewrite IH. rewrite filter_cons.
    destruct (find_descriptor mro n) as [[tags|]|] eqn:Hfind.
    + assert (NoDup tags) as Htags.
      { unfold find_descriptor in Hfind.
        apply head_Some_elem_of, list_elem_of_omap in Hfind
          as (parent & Hparent & Hn).
        by eapply Hnd. }
      rewrite register_all by done.
      destruct (decide (tg ∈ tags)) as [Hin|Hnot].
      * rewrite decide_True by (by exists tags).
        by rewrite <- (assoc_L (++)).
      * rewrite decide_False; [by rewrite app_nil_r|].
        intros (tags' & Hf & Hin). congruence.
    + rewrite decide_False; [done|].
      intros (tags' & Hf & Hin). congruence.
    + rewrite decide_False; [done|].
      intros (tags' & Hf & Hin). congruence.
Qed.

Lemma name_le_total : Total name_le.
Proof. intros a b. apply String.leb_total. Qed.

Lemma name_le_trans : Transitive name_le.
Proof.
  unfold name_le, String.leb. intros a. 
  induction a as [|c1 a IH]; intros [|c2 b] [|c3 c]; simpl; try done.
  unfold Ascii.compare.
  destruct (N.compare_spec (Ascii.N_of_ascii c1) (Ascii.N_of_ascii c2));
    destruct (N.compare_spec (Ascii.N_of_ascii c2) (Ascii.N_of_ascii c3));
    destruct (N.compare_spec (Ascii.N_of_ascii c1) (Ascii.N_of_ascii c3));
    try done; try lia.
  apply IH.
Qed.

Lemma StronglySorted_filter {A} (R : relation A) (P : A -> Prop)
    `{forall x, Decision (P x)} (l : list A) :
  StronglySorted R l -> StronglySorted R (filter P l).
Proof.
  induction 1 as [|x l Hl IH Hx]; [constructor|].
  rewrite filter_cons. destruct (decide (P x)); [|done].
  constructor; [done|].
  apply Forall_forall. intros y Hy. apply list_elem_of_filter in Hy as [_ Hy].
  rewrite Forall_forall in Hx. by apply Hx.
Qed.

Lemma elem_of_dir mro n :
  n ∈ dir mro <-> exists parent, parent ∈ mro /\ is_Some (parent !! n).
Proof.
  unfold dir. rewrite merge_sort_Permutation, elem_of_elements.
  rewrite elem_of_union_list. split.
  - intros (X & HX & Hn). apply list_elem_of_fmap in HX as (parent & -> & Hp).
    exists parent. split; [done|]. by apply elem_of_dom.
  - intros (parent & Hp & Hn). exists (dom parent). split.
    + apply list_elem_of_fmap. by exists parent.
    + by apply elem_of_dom.
Qed.

(** X26. [_resolve_processors] registers under a tag exactly the
    attribute names whose first definition along the MRO carries that tag,
    each once (the tags of a method being a set, they hold no duplicate),
    in alphabetical order: a method redefined in a subclass without the
    decorator is not registered, whatever the base had. *)
Theorem resolved_processors_are_the_tagged_names mro tg :
  (forall parent attr_name tags,
     parent ∈ mro -> parent !! attr_name = Some (Some tags) -> NoDup tags) ->
  _resolve_processors mro tg = filter (is_tagged mro tg) (dir mro)
  /\ StronglySorted name_le (_resolve_processors mro tg)
  /\ NoDup (_resolve_processors mro tg)
  /\ (forall attr_name,
        attr_name ∈ _resolve_processors mro tg <-> is_tagged mro tg attr_name).
Proof.
  intros Hnd.
  assert (Heq : _resolve_processors mro tg
                = filter (is_tagged mro tg) (dir mro)).
  { unfold _resolve_processors. by rewrite resolve_step. }
  assert (Hsorted : StronglySorted name_le (dir mro)).
  { unfold dir.
    apply StronglySorted_merge_sort; [apply name_le_trans|apply name_le_total]. }
  assert (Hnodup : NoDup (dir mro)).
  { unfold dir. rewrite merge_sort_Permutation. apply NoDup_elements. }
  rewrite Heq. split; [done|]. split; [|split].
  - by apply StronglySorted_filter.
  - by apply NoDup_filter.
  - intros n. rewrite list_elem_of_filter. split; [by intros [? _]|].
    intros Htag. split; [done|]. apply elem_of_dir.
    destruct Htag as (tags & Hfind & _). unfold find_descriptor in Hfind.
    apply head_Some_elem_of, list_elem_of_omap in Hfind
      as (parent & Hparent & Hn).
    exists parent. split; [done|]. by rewrite Hn.
Qed.

Lemma untagged_override_unregisters_the_hook :
  _resolve_processors [PlainChild_dict; HookedBase_dict] (Tag PRE_LOAD, false)
  = filter (is_tagged [PlainChild_dict; HookedBase_dict] (Tag PRE_LOAD, false))
      (dir [PlainChild_dict; HookedBase_dict])
  /\ StronglySorted name_le
       (_resolve_processors [PlainChild_dict; HookedBase_dict]
          (Tag PRE_LOAD, false))
  /\ NoDup (_resolve_processors [PlainChild_dict; HookedBase_dict]
              (Tag PRE_LOAD, false))
  /\ (forall attr_name,
        attr_name ∈ _resolve_processors [PlainChild_dict; HookedBase_dict]
                      (Tag PRE_LOAD, false)
        <-> is_tagged [PlainChild_dict; HookedBase_dict] (Tag PRE_LOAD, false)
              attr_name).
Proof.
  apply (resolved_processors_are_the_tagged_names
           [PlainChild_dict; HookedBase_dict] (Tag PRE_LOAD, false)).
  intros parent attr_name tags Hparent Hn.
  assert (Hall : Forall (fun d : tagged_dict =>
                   map_Forall (fun _ v => match v with
                                          | Some tags => NoDup tags
                                          | None => True
                                          end) d)
                   [PlainChild_dict; HookedBase_dict]).
  { repeat constructor; apply map_Forall_to_list; vm_compute;
      repeat constructor; set_solver. }
  rewrite Forall_forall in Hall. by apply (Hall parent Hparent attr_name _ Hn).
Defined.

Lemma hooks_resolved_for_the_example :
  _resolve_processors [PlainChild_dict; HookedBase_dict] (Tag PRE_LOAD, false)
  = []
  /\ _resolve_processors [HookedBase_dict] (Tag PRE_LOAD, false) = ["clean"]
  /\ _resolve_processors [PlainChild_dict; HookedBase_dict]
       (Tag POST_DUMP, true) = ["wrap"].
Proof. repeat split; vm_compute; reflexivity. Qed.

Lemma absent_age_and_excluded_email_are_not_validated :
  _invoke_field_validators spec_unmarshaller age_checked_schema only_a_name
    false initial_state
  = (inr tt, initial_state).
Proof.
  apply (field_validators_skip_absent_values spec_unmarshaller
           age_checked_schema only_a_name false initial_state).
  intros v Hv. apply elem_of_cons in Hv as [->|Hv].
  - right. split; [vm_compute; eauto|]. vm_compute. reflexivity.
  - apply list_elem_of_singleton in Hv as ->. left. split.
    + vm_compute. reflexivity.
    + apply elem_of_dom. vm_compute. eauto.
Defined.

Lemma validator_of_nickname_raises :
  _invoke_field_validators spec_unmarshaller nickname_checked_schema a_person
    false initial_state
  = (inl (ValueError
            (FieldDoesNotExist
               (v_field_name (passing "check_nickname" "nickname")))),
     initial_state).
Proof.
  apply (field_validator_of_unknown_field_raises spec_unmarshaller
           nickname_checked_schema a_person false initial_state
           [passing "check_email" "email"]
           (passing "check_nickname" "nickname") []).
  - reflexivity.
  - intros w Hw. apply list_elem_of_singleton in Hw as ->. left. split.
    + vm_compute. reflexivity.
    + apply elem_of_dom. vm_compute. eauto.
  - vm_compute. reflexivity.
  - intros Hin. apply elem_of_dom in Hin as [f Hf]. vm_compute in Hf.
    discriminate Hf.
Defined.

(** X27. With [many], the per-item schema validators are not called on
    an empty collection, and the stage returns without error. *)
Theorem item_validators_skip_an_empty_collection
    (U : Unmarshaller) self data original s :
  iter_items data = inr [] ->
  _invoke_validators U self false data original true s = (inr tt, s).
Proof.
  intros Hitems. unfold _invoke_validators. unfold bind at 1.
  rewrite (fold_M_skip _ (schema_validators self false) ∅ s).
  - by rewrite bool_decide_false by (by intros []).
  - intros v _ s'. unfold invoke_validator. simpl.
    unfold bind, lift. by rewrite Hitems.
Qed.

Lemma item_check_is_not_run_on_an_empty_list :
  _invoke_validators spec_unmarshaller checked_schema false (VList []) (VList [])
    true initial_state
  = (inr tt, initial_state).
Proof.
  apply (item_validators_skip_an_empty_collection spec_unmarshaller
           checked_schema (VList []) (VList []) initial_state).
  reflexivity.
Defined.

Lemma update_fields_keeps_instance_options {CA : ClassAttributes}
    self obj many self' :
  _update_fields self obj many = inr self' ->
  self_load_only self' = self_load_only self
  /\ self_dump_only self' = self_dump_only self.
Proof.
  intros Hupd.
  apply update_fields_inr in Hupd as (ret & bound & _ & _ & ->). done.
Qed.

(** X28. [load_only] and [dump_only] given to the constructor replace
    the class-level options instead of being added to them; the
    class-level ones apply when the argument is empty. *)
Theorem constructor_load_only_replaces_class_load_only
    {CA : ClassAttributes} c a self class_opts :
  k_opts (cls c) = Some class_opts ->
  BaseSchema_init c a = inr self ->
  self_load_only self
  = (if nonempty (arg_load_only a) then list_to_set (arg_load_only a)
     else list_to_set (opts_load_only class_opts))
  /\ self_dump_only self
     = (if nonempty (arg_dump_only a) then list_to_set (arg_dump_only a)
        else list_to_set (opts_dump_only class_opts)).
Proof.
  intros Hopts Hinit. unfold BaseSchema_init in Hinit. rewrite Hopts in Hinit.
  destruct (k_declared_fields (cls c)) as [d|]; [|done].
  apply update_fields_keeps_instance_options in Hinit as [-> ->]. simpl.
  assert (Hor : forall (l1 l2 : list string),
            set_or (list_to_set l1) (list_to_set l2)
            = if nonempty l1 then list_to_set l1 else list_to_set l2).
  { intros [|x l1] l2; unfold set_or; simpl.
    - by rewrite bool_decide_false by (by intros []).
    - rewrite bool_decide_true; [done|]. set_solver. }
  by rewrite !Hor.
Qed.

Lemma load_only_email_replaces_class_option :
  self_load_only (instance (plain PersonSchema_k) load_only_email)
  = (if nonempty (arg_load_only load_only_email)
     then list_to_set (arg_load_only load_only_email)
     else list_to_set
            (opts_load_only (default default_opts (k_opts PersonSchema_k))))
  /\ self_dump_only (instance (plain PersonSchema_k) load_only_email)
     = (if nonempty (arg_dump_only load_only_email)
        then list_to_set (arg_dump_only load_only_email)
        else list_to_set
               (opts_dump_only (default default_opts (k_opts PersonSchema_k)))).
Proof.
  apply (constructor_load_only_replaces_class_load_only
           (plain PersonSchema_k) load_only_email).
  - vm_compute. reflexivity.
  - vm_compute. reflexivity.
Defined.

(** X29. [dump] with [update_fields=False] returns with the schema's
    fields as they were. *)
Theorem dump_without_update_keeps_the_fields {CA : ClassAttributes}
    Ma self obj many s self' r errs s' :
  dump Ma self obj many false s = (inr (self', (r, errs)), s') ->
  self' = self.
Proof.
  rewrite dump_unfold. unfold bind at 1.
  destruct (_invoke_dump_processors self PRE_DUMP _ _ _ s)
    as [[e|processed] s1]; [done|].
  unfold dump_processed. unfold bind at 1. unfold ret at 1.
  unfold bind at 1. unfold try_except, bind at 1, lift_m.
  destruct (marshal Ma processed _ _ _ _ _ _) as [[e|preresult] e1]; simpl.
  - destruct e as [| | | |m fn fs d|]; try done.
    unfold bind at 1. simpl.
    destruct (self_strict self); [done|].
    unfold ret at 1. unfold bind at 1.
    destruct (_postprocess self d _ _ _) as [[e|result] s3]; [done|].
    unfold bind at 1.
    destruct (_invoke_dump_processors self POST_DUMP _ _ _ s3)
      as [[e|result'] s4]; [done|].
    unfold ret. by intros [= <- <- <- <-].
  - unfold ret at 1. unfold bind at 1.
    destruct (_postprocess self preresult _ _ _) as [[e|result] s3]; [done|].
    unfold bind at 1.
    destruct (_invoke_dump_processors self POST_DUMP _ _ _ s3)
      as [[e|result'] s4]; [done|].
    unfold ret. by intros [= <- <- <- <-].
Qed.

Lemma dump_of_a_person_keeps_the_fields :
  (from_inr (no_schema, (VNone, ∅))
     (dump spec_marshaller person_only_name a_person None false
        initial_state).1).1
  = person_only_name.
Proof.
  apply (dump_without_update_keeps_the_fields spec_marshaller person_only_name
           a_person None initial_state _
           (from_inr (no_schema, (VNone, ∅))
              (dump spec_marshaller person_only_name a_person None false
                 initial_state).1).2.1
           (from_inr (no_schema, (VNone, ∅))
              (dump spec_marshaller person_only_name a_person None false
                 initial_state).1).2.2
           (dump spec_marshaller person_only_name a_person None false
              initial_state).2).
  vm_compute. reflexivity.
Defined.
